(** * AI Rules Syncer: the synchronisation core, embedded and verified

    The development follows the TypeScript sources:
    - [fileSyncer.ts]   the mirror engine ([FileSyncer]),
    - [gitManager.ts]   repository access ([GitManager]),
    - [rulesManager.ts] the orchestrator and its failure handling
                        ([RulesManager]),
    - [configManager.ts] the parts of [ConfigManager] the orchestrator
                        consults.

    The file system is a tree of named nodes; paths are kept in normal
    form as the list of their components from the root, and
    [path.join] is the POSIX one (separator [/], with [.] and [..]
    resolved lexically).  Asynchronous methods become functions in a
    state-and-exception monad over a [World]; what the operating system,
    git and the user answer is supplied by an explicit environment. *)

From Stdlib Require Import List String Ascii Bool Arith ZArith Lia.
From Stdlib Require Import DecimalString.
Import ListNotations.
Local Open Scope string_scope.
Local Open Scope list_scope.

Set Warnings "-register-all".

(* ================================================================== *)
(** * Paths *)
(* ================================================================== *)

(** A normalised absolute path: its components, from the root. *)
Definition path := list string.

(** The pieces of [s] between the separators, [acc] being the piece
    under construction. *)
Fixpoint split_sep (s acc : string) : list string :=
  match s with
  | EmptyString => [acc]
  | String c s' =>
      if Ascii.eqb c "/" then acc :: split_sep s' ""
      else split_sep s' (acc ++ String c "")
  end.

(** One step of the lexical normalisation of [path.join]. *)
Definition push_component (stack : path) (c : string) : path :=
  if c =? "" then stack
  else if c =? "." then stack
  else if c =? ".." then removelast stack
  else stack ++ [c].

(** [path.join(base, seg)] for a normalised absolute [base]. *)
Definition path_join (base : path) (seg : string) : path :=
  fold_left push_component (split_sep seg "") base.

(** [path.dirname] of a normalised absolute path. *)
Definition path_dirname (p : path) : path := removelast p.

Fixpoint has_sep (s : string) : bool :=
  match s with
  | EmptyString => false
  | String c s' => Ascii.eqb c "/" || has_sep s'
  end.

(** A name that is one path component: what [readdir] returns, and what
    a directory entry can be called. *)
Definition plain_name (s : string) : bool :=
  negb (s =? "") && negb (s =? ".") && negb (s =? "..") && negb (has_sep s).

Fixpoint show_path (p : path) : string :=
  match p with
  | [] => ""
  | c :: p' => "/" ++ c ++ show_path p'
  end.

Fixpoint is_prefix (p q : path) : bool :=
  match p, q with
  | [], _ => true
  | c :: p', d :: q' => (c =? d) && is_prefix p' q'
  | _ :: _, [] => false
  end.

(** Neither path lies at or under the other. *)
Definition disjoint (p q : path) : bool :=
  negb (is_prefix p q) && negb (is_prefix q p).

(* ================================================================== *)
(** * The file-system tree *)
(* ================================================================== *)

Inductive node : Type :=
| File (data : string)
| Dir (entries : list (string * node)).

Definition entries_t := list (string * node).

Definition is_dir (o : option node) : bool :=
  match o with Some (Dir _) => true | _ => false end.

Definition is_dir_node (n : node) : bool :=
  match n with Dir _ => true | File _ => false end.

Fixpoint lookup_entry (k : string) (es : entries_t) : option node :=
  match es with
  | [] => None
  | (k', v) :: es' => if k =? k' then Some v else lookup_entry k es'
  end.

(** Replace the entry called [k], or add it after the others. *)
Fixpoint upsert (k : string) (v : node) (es : entries_t) : entries_t :=
  match es with
  | [] => [(k, v)]
  | (k', v') :: es' =>
      if k =? k' then (k, v) :: es' else (k', v') :: upsert k v es'
  end.

Fixpoint remove_entry (k : string) (es : entries_t) : entries_t :=
  match es with
  | [] => []
  | (k', v') :: es' =>
      if k =? k' then remove_entry k es' else (k', v') :: remove_entry k es'
  end.

Definition set_entry (k : string) (o : option node) (es : entries_t)
  : entries_t :=
  match o with
  | Some v => upsert k v es
  | None => remove_entry k es
  end.

Fixpoint lookup_opt (p : path) (o : option node) : option node :=
  match p with
  | [] => o
  | c :: p' =>
      match o with
      | Some (Dir es) => lookup_opt p' (lookup_entry c es)
      | _ => None
      end
  end.

(** What [p] resolves to in the tree rooted at [root]. *)
Definition lookup_path (p : path) (root : node) : option node :=
  lookup_opt p (Some root).

(** Apply [f] to what lives at [p]; nothing changes when the parent of
    [p] is not a directory. *)
Fixpoint update_opt (p : path) (f : option node -> option node)
  (o : option node) : option node :=
  match p with
  | [] => f o
  | c :: p' =>
      match o with
      | Some (Dir es) =>
          Some (Dir (set_entry c (update_opt p' f (lookup_entry c es)) es))
      | _ => o
      end
  end.

Definition update_path (p : path) (f : option node -> option node)
  (root : node) : node :=
  match update_opt p f (Some root) with
  | Some r => r
  | None => root
  end.

(** [mkdir -p]: [None] when a component of the path is a file. *)
Fixpoint mkdirp (p : path) (o : option node) : option node :=
  match p with
  | [] =>
      match o with
      | Some (File _) => None
      | Some (Dir es) => Some (Dir es)
      | None => Some (Dir [])
      end
  | c :: p' =>
      match o with
      | Some (File _) => None
      | Some (Dir es) =>
          match mkdirp p' (lookup_entry c es) with
          | Some v => Some (Dir (upsert c v es))
          | None => None
          end
      | None =>
          match mkdirp p' None with
          | Some v => Some (Dir [(c, v)])
          | None => None
          end
      end
  end.

(** Some strict ancestor of [p] exists and is a file. *)
Fixpoint blocked_by_file (p : path) (o : option node) : bool :=
  match p with
  | [] => false
  | c :: p' =>
      match o with
      | Some (File _) => true
      | Some (Dir es) => blocked_by_file p' (lookup_entry c es)
      | None => false
      end
  end.

(** The recursive copy of [fs.cp] with [force]: the result of copying
    [s] over what is at the destination ([None]: nothing there).  A
    directory cannot replace a file, nor a file a directory. *)
Fixpoint cp_node (s : node) (d : option node) : option node :=
  match s with
  | File c =>
      match d with
      | Some (Dir _) => None
      | _ => Some (File c)
      end
  | Dir es =>
      let fix cp_entries (es : entries_t) (ds : entries_t)
        : option entries_t :=
        match es with
        | [] => Some ds
        | (k, v) :: es' =>
            match cp_node v (lookup_entry k ds) with
            | Some v' => cp_entries es' (upsert k v' ds)
            | None => None
            end
        end in
      match d with
      | Some (File _) => None
      | Some (Dir ds) => option_map Dir (cp_entries es ds)
      | None => option_map Dir (cp_entries es [])
      end
  end.

Fixpoint cp_entries (es : entries_t) (ds : entries_t) : option entries_t :=
  match es with
  | [] => Some ds
  | (k, v) :: es' =>
      match cp_node v (lookup_entry k ds) with
      | Some v' => cp_entries es' (upsert k v' ds)
      | None => None
      end
  end.

Fixpoint nodupb (l : list string) : bool :=
  match l with
  | [] => true
  | x :: l' => negb (existsb (String.eqb x) l') && nodupb l'
  end.

(** Well-formed trees: in every directory the names are distinct and
    each is a single path component. *)
Fixpoint wf_node (n : node) : bool :=
  match n with
  | File _ => true
  | Dir es =>
      nodupb (map fst es) && forallb plain_name (map fst es)
      && (fix wf_all (es : entries_t) : bool :=
            match es with
            | [] => true
            | (_, v) :: es' => wf_node v && wf_all es'
            end) es
  end.

Fixpoint wf_all (es : entries_t) : bool :=
  match es with
  | [] => true
  | (_, v) :: es' => wf_node v && wf_all es'
  end.

(* ================================================================== *)
(** * Errors, the world and the monad of asynchronous methods *)
(* ================================================================== *)

Inductive errno : Type :=
| ENOENT | ENOTDIR | EEXIST | EACCES | EPERM | EBUSY | ENOSPC | EINVAL
| ERR_FS_CP_DIR_TO_NON_DIR | ERR_FS_CP_NON_DIR_TO_DIR.

Definition errno_eqb (a b : errno) : bool :=
  match a, b with
  | ENOENT, ENOENT | ENOTDIR, ENOTDIR | EEXIST, EEXIST | EACCES, EACCES
  | EPERM, EPERM | EBUSY, EBUSY | ENOSPC, ENOSPC | EINVAL, EINVAL
  | ERR_FS_CP_DIR_TO_NON_DIR, ERR_FS_CP_DIR_TO_NON_DIR
  | ERR_FS_CP_NON_DIR_TO_DIR, ERR_FS_CP_NON_DIR_TO_DIR => true
  | _, _ => false
  end.

Definition show_errno (e : errno) : string :=
  match e with
  | ENOENT => "ENOENT: no such file or directory"
  | ENOTDIR => "ENOTDIR: not a directory"
  | EEXIST => "EEXIST: file already exists"
  | EACCES => "EACCES: permission denied"
  | EPERM => "EPERM: operation not permitted"
  | EBUSY => "EBUSY: resource busy or locked"
  | ENOSPC => "ENOSPC: no space left on device"
  | EINVAL => "EINVAL: invalid argument"
  | ERR_FS_CP_DIR_TO_NON_DIR =>
      "Cannot overwrite non-directory with directory"
  | ERR_FS_CP_NON_DIR_TO_DIR =>
      "Cannot overwrite directory with non-directory"
  end.

(** A JavaScript [Error]: its message and, for the errors of [fs], the
    [code] and [path] properties. *)
Record Error : Type := mkError {
  e_code : option errno;
  e_message : string;
  e_path : option path
}.

Definition fs_error (e : errno) (syscall : string) (p : path) : Error :=
  mkError (Some e)
    (show_errno e ++ ", " ++ syscall ++ " '" ++ show_path p ++ "'")
    (Some p).

(** [new Error(msg)]. *)
Definition new_Error (msg : string) : Error := mkError None msg None.

(** An [Error] inside a template string. *)
Definition show_error (e : Error) : string := "Error: " ++ e_message e.

Definition code_is (c : errno) (e : Error) : bool :=
  match e_code e with
  | Some c' => errno_eqb c c'
  | None => false
  end.

Inductive level : Type := LDebug | LInfo | LWarn | LError.

(** What the user is shown: messages (modal or not) with their buttons,
    and commands run on the host. *)
Inductive UiEvent : Type :=
| ShowError (modal : bool) (msg : string) (items : list string)
| ShowWarning (msg : string) (items : list string)
| ShowInformation (modal : bool) (msg : string) (items : list string)
| ExecuteCommand (cmd arg : string).

(** The extension's settings, as the host stores them. *)
Record Settings : Type := mkSettings {
  s_repoUrl : string;
  s_teamNames : list string;
  s_rulesFolderPath : path;
  s_cacheDirPath : path;
  s_syncIntervalMinutes : Z;
  s_branchUser : option string;
  s_branchWorkspace : option string;
  s_workspaceRoot : option path
}.

Record World : Type := mkWorld {
  w_fs : node;
  w_log : list (level * string);
  w_ui : list UiEvent;
  w_settings : Settings;
  w_timer : option Z;
  w_disposed : bool
}.

Definition set_fs (r : node) (w : World) : World :=
  mkWorld r (w_log w) (w_ui w) (w_settings w) (w_timer w) (w_disposed w).

Definition add_log (l : level) (m : string) (w : World) : World :=
  mkWorld (w_fs w) (w_log w ++ [(l, m)]) (w_ui w) (w_settings w)
    (w_timer w) (w_disposed w).

Definition add_ui (e : UiEvent) (w : World) : World :=
  mkWorld (w_fs w) (w_log w) (w_ui w ++ [e]) (w_settings w)
    (w_timer w) (w_disposed w).

Definition set_settings (s : Settings) (w : World) : World :=
  mkWorld (w_fs w) (w_log w) (w_ui w) s (w_timer w) (w_disposed w).

Definition set_timer (t : option Z) (w : World) : World :=
  mkWorld (w_fs w) (w_log w) (w_ui w) (w_settings w) t (w_disposed w).

Inductive Outcome (A : Type) : Type :=
| Returned (a : A)
| Thrown (e : Error).
Arguments Returned {A} a.
Arguments Thrown {A} e.

(** An asynchronous method: run from a world, it returns or throws, and
    leaves a world.  What was done before a throw stays done. *)
Definition M (A : Type) : Type := World -> Outcome A * World.

Definition ret {A} (a : A) : M A := fun w => (Returned a, w).

Definition throw {A} (e : Error) : M A := fun w => (Thrown e, w).

Definition bind {A B} (c : M A) (k : A -> M B) : M B :=
  fun w =>
    match c w with
    | (Returned a, w') => k a w'
    | (Thrown e, w') => (Thrown e, w')
    end.

Definition try_catch {A} (c : M A) (handler : Error -> M A) : M A :=
  fun w =>
    match c w with
    | (Returned a, w') => (Returned a, w')
    | (Thrown e, w') => handler e w'
    end.

(** [try { c } finally { f }], for an [f] that does not throw. *)
Definition try_finally {A} (c : M A) (f : M unit) : M A :=
  fun w =>
    match c w with
    | (r, w') => (r, snd (f w'))
    end.

Declare Scope m_scope.
Delimit Scope m_scope with m.
Notation "x <- c ;; k" := (bind c (fun x => k))
  (at level 61, c at next level, right associativity) : m_scope.
Notation "c ;; k" := (bind c (fun _ => k))
  (at level 61, right associativity) : m_scope.
Local Open Scope m_scope.

Fixpoint for_each {A} (l : list A) (body : A -> M unit) : M unit :=
  match l with
  | [] => ret tt
  | x :: l' => body x ;; for_each l' body
  end.

Definition log (l : level) (m : string) : M unit :=
  fun w => (Returned tt, add_log l m w).

Definition show (e : UiEvent) : M unit :=
  fun w => (Returned tt, add_ui e w).

(* ================================================================== *)
(** * The primitives of [fs/promises] *)
(* ================================================================== *)

(** The operations that change the tree. *)
Inductive fsop : Type :=
| OpRm (p : path)
| OpMkdir (p : path)
| OpCp (src dest : path).

(** What the operating system refuses (permissions, a file held open, a
    full disk): the code it reports for an operation, if it refuses it.
    A refused operation throws and changes nothing.  Reads ([stat],
    [readdir]) are answered from the tree alone. *)
Definition Refusals := fsop -> option errno.

Definition no_refusal : Refusals := fun _ => None.

Section Primitives.
Variable refuses : Refusals.

(** [fs.rm(p, { recursive: true, force: true })]: an absent target is
    no error. *)
Definition fs_rm (p : path) : M unit := fun w =>
  match refuses (OpRm p) with
  | Some e => (Thrown (fs_error e "rm" p), w)
  | None =>
      if blocked_by_file p (Some (w_fs w))
      then (Thrown (fs_error ENOTDIR "lstat" p), w)
      else (Returned tt,
            set_fs (update_path p (fun _ => None) (w_fs w)) w)
  end.

(** [fs.mkdir(p, { recursive: true })]: a file at [p] itself is
    reported as EEXIST, a file on the way to [p] as ENOTDIR. *)
Definition fs_mkdir (p : path) : M unit := fun w =>
  match refuses (OpMkdir p) with
  | Some e => (Thrown (fs_error e "mkdir" p), w)
  | None =>
      match mkdirp p (Some (w_fs w)) with
      | Some r => (Returned tt, set_fs r w)
      | None =>
          (Thrown
             (fs_error
                (match lookup_path p (w_fs w) with
                 | Some (File _) => EEXIST
                 | _ => ENOTDIR
                 end) "mkdir" p), w)
      end
  end.

(** [fs.cp(src, dest, { recursive: true, force: true })]: the parent
    of [dest] is created when missing, and [src] is merged over what
    [dest] holds. *)
Definition fs_cp (src dest : path) : M unit := fun w =>
  match refuses (OpCp src dest) with
  | Some e => (Thrown (fs_error e "cp" dest), w)
  | None =>
      match lookup_path src (w_fs w) with
      | None => (Thrown (fs_error ENOENT "cp" src), w)
      | Some s =>
          if is_prefix src dest
          then (Thrown (fs_error EINVAL "cp" dest), w)
          else
            match mkdirp (path_dirname dest) (Some (w_fs w)) with
            | None => (Thrown (fs_error ENOTDIR "cp" dest), w)
            | Some r =>
                match cp_node s (lookup_path dest r) with
                | None =>
                    (Thrown
                       (fs_error
                          (if is_dir_node s then ERR_FS_CP_DIR_TO_NON_DIR
                           else ERR_FS_CP_NON_DIR_TO_DIR) "cp" dest), w)
                | Some d' =>
                    (Returned tt,
                     set_fs (update_path dest (fun _ => Some d') r) w)
                end
            end
      end
  end.
End Primitives.

(** A [Dirent]: a name with whether it is a directory. *)
Definition dirent (e : string * node) : string * bool :=
  (fst e, is_dir_node (snd e)).

(** [fs.readdir(p, { withFileTypes: true })]. *)
Definition fs_readdir (p : path) : M (list (string * bool)) := fun w =>
  match lookup_path p (w_fs w) with
  | Some (Dir es) => (Returned (map dirent es), w)
  | Some (File _) => (Thrown (fs_error ENOTDIR "scandir" p), w)
  | None => (Thrown (fs_error ENOENT "scandir" p), w)
  end.

(** [try { return (await fs.stat(p)).isDirectory() } catch { return false }],
    the body shared by [FileSyncer.directoryExists],
    [FileSyncer.hasExistingContent] and [GitManager.repositoryExists]. *)
Definition stat_isDirectory (p : path) : M bool := fun w =>
  (Returned (is_dir (lookup_path p (w_fs w))), w).

(* ================================================================== *)
(** * [RulesConfig] *)
(* ================================================================== *)

Record RulesConfig : Type := mkConfig {
  repoUrl : string;
  teamNames : list string;
  rulesFolderPath : path;
  cacheDirPath : path;
  syncIntervalMinutes : Z;
  branch : string
}.

(* ================================================================== *)
(** * [FileSyncer] *)
(* ================================================================== *)

Section FileSyncer.
Variable refuses : Refusals.

Definition directoryExists (dirPath : path) : M bool :=
  stat_isDirectory dirPath.

Definition hasExistingContent (repoPath : path) : M bool :=
  stat_isDirectory repoPath.

Definition copyRecursive (src dest : path) : M unit :=
  fs_cp refuses src dest.

Definition removeDestination (rulesPath : path) : M unit :=
  log LDebug "Removing destination directory entirely" ;;
  try_catch
    (fs_rm refuses rulesPath ;;
     log LDebug "Destination directory removed")
    (fun error =>
       if negb (code_is ENOENT error)
       then log LWarn
              ("Failed to remove destination directory: "
                 ++ show_error error)
       else ret tt).

(** The inner loop of [copyRulesFromRepo], over [config.teamNames]. *)
Definition copyTeam (entryName : string) (sourcePath teamDestRoot : path)
  (teamName : string) : M unit :=
  let srcTeamPath := path_join sourcePath teamName in
  found <- directoryExists srcTeamPath ;;
  if found then
    let destTeamPath := path_join teamDestRoot teamName in
    copyRecursive srcTeamPath destTeamPath ;;
    log LInfo ("Copied team rules for: " ++ teamName ++ " from "
                 ++ entryName ++ "/")
  else
    log LInfo ("Team folder not found under " ++ entryName ++ "/: "
                 ++ teamName ++ " (skipping)").

(** The body of the loop of [copyRulesFromRepo] over the entries of
    the repository. *)
Definition copyEntry (repoPath : path) (config : RulesConfig)
  (entry : string * bool) : M unit :=
  let (name, isDirectory) := entry in
  if prefix "." name || negb isDirectory then ret tt
  else
    let sourcePath := path_join repoPath name in
    if prefix "team" name then
      let teamDestRoot := path_join (rulesFolderPath config) name in
      fs_mkdir refuses teamDestRoot ;;
      for_each (teamNames config)
        (copyTeam name sourcePath teamDestRoot)
    else
      let destPath := path_join (rulesFolderPath config) name in
      copyRecursive sourcePath destPath ;;
      log LInfo ("Copied folder: " ++ name).

Definition copyRulesFromRepo (repoPath : path) (config : RulesConfig)
  : M unit :=
  repoEntries <- fs_readdir repoPath ;;
  for_each repoEntries (copyEntry repoPath config).

Definition syncFiles (repoPath : path) (config : RulesConfig) : M unit :=
  log LInfo ("Starting file sync from " ++ show_path repoPath ++ " to "
               ++ show_path (rulesFolderPath config)) ;;
  removeDestination (rulesFolderPath config) ;;
  fs_mkdir refuses (rulesFolderPath config) ;;
  copyRulesFromRepo repoPath config ;;
  log LInfo "File sync completed".
End FileSyncer.

(* ================================================================== *)
(** * [ConfigManager] *)
(* ================================================================== *)

Definition is_space (c : ascii) : bool :=
  let n := nat_of_ascii c in
  Nat.eqb n 32 || (Nat.leb 9 n && Nat.leb n 13).

Fixpoint trim_start (s : string) : string :=
  match s with
  | EmptyString => EmptyString
  | String c s' => if is_space c then trim_start s' else s
  end.

Fixpoint trim_end (s : string) : string :=
  match s with
  | EmptyString => EmptyString
  | String c s' =>
      let r := trim_end s' in
      if is_space c && (r =? "") then "" else String c r
  end.

(** [String.prototype.trim], for the ASCII white space: on a string of
    ASCII characters this is [trim]; the white space outside ASCII that
    [trim] strips as well (U+00A0, U+FEFF and the like) is left in
    place. *)
Definition trim (s : string) : string := trim_end (trim_start s).

(** [hay.includes(needle)]. *)
Fixpoint includes (hay needle : string) : bool :=
  prefix needle hay
  || match hay with
     | EmptyString => false
     | String _ hay' => includes hay' needle
     end.

(** A string in a condition: the empty string is false. *)
Definition truthy (s : string) : bool := negb (s =? "").

(** The regular expression [/^(https?:\/\/|git@)/]. *)
Definition urlPattern (s : string) : bool :=
  prefix "http://" s || prefix "https://" s || prefix "git@" s.

(** [config.get('branch', '')]: the workspace value when there is one,
    else the user value, else the default. *)
Definition effective_branch (s : Settings) : string :=
  match s_branchWorkspace s with
  | Some b => b
  | None => match s_branchUser s with Some b => b | None => "" end
  end.

(** [ConfigManager.getConfig], from settings whose team names are an
    array and whose paths the host has resolved: a rules folder that is
    absolute or has a workspace folder to be joined to.  The case where
    [resolveRulesFolderPath] throws, a relative path with no workspace
    folder open, is outside these settings. *)
Definition getConfig (s : Settings) : RulesConfig :=
  mkConfig (s_repoUrl s)
    (filter truthy (map trim (s_teamNames s)))
    (s_rulesFolderPath s) (s_cacheDirPath s)
    (s_syncIntervalMinutes s) (effective_branch s).

Definition isConfigured (s : Settings) : bool :=
  let repoUrl := trim (repoUrl (getConfig s)) in
  if Nat.eqb (String.length repoUrl) 0 then false else urlPattern repoUrl.

Fixpoint strip_prefix (p q : path) : option path :=
  match p, q with
  | [], _ => Some q
  | c :: p', d :: q' => if c =? d then strip_prefix p' q' else None
  | _ :: _, [] => None
  end.

(** The safety guard of [validateConfig]: [path.relative] from the
    workspace root to the rules folder is not empty and does not start
    with [..]. *)
Definition isInsideWorkspace (root rules : path) : bool :=
  match strip_prefix root rules with
  | Some (c :: _) => negb (prefix ".." c)
  | _ => false
  end.

Definition validateConfig (s : Settings) (config : RulesConfig)
  : list string :=
  (if negb (truthy (trim (repoUrl config)))
   then ["Repository URL is required"]
   else if negb (urlPattern (repoUrl config))
        then ["Repository URL must be a valid HTTPS or SSH URL"]
        else [])
  ++ (if (syncIntervalMinutes config <? 0)%Z
      then ["Sync interval must be zero or positive"]
      else [])
  ++ match s_workspaceRoot s with
     | Some root =>
         if negb (isInsideWorkspace root (rulesFolderPath config))
         then ["Rules folder path must be inside the workspace"]
         else []
     | None => []
     end.

Definition get_settings : M Settings := fun w => (Returned (w_settings w), w).

(** [ConfigManager.setBranchDefault]; writing a setting is taken not to
    fail. *)
Definition setBranchDefault (actualBranch : string) : M unit :=
  s <- get_settings ;;
  let userBranchValue :=
    match s_branchUser s with Some b => b | None => "" end in
  let workspaceBranchValue :=
    match s_branchWorkspace s with Some b => b | None => "" end in
  if negb (truthy (trim userBranchValue)) && truthy actualBranch then
    (fun w =>
       (Returned tt,
        set_settings
          (mkSettings (s_repoUrl s) (s_teamNames s) (s_rulesFolderPath s)
             (s_cacheDirPath s) (s_syncIntervalMinutes s)
             (Some actualBranch) (s_branchWorkspace s)
             (s_workspaceRoot s)) w)) ;;
    log LInfo ("Auto-configured branch setting at user level to: "
                 ++ actualBranch) ;;
    if truthy (trim workspaceBranchValue)
    then log LInfo ("Note: Workspace branch '" ++ workspaceBranchValue
                      ++ "' will override user default")
    else ret tt
  else ret tt.

(* ================================================================== *)
(** * [GitManager] *)
(* ================================================================== *)

(** What a call to git (through [simple-git]) or to the lock library
    answers: a value, or an error with its message. *)
Inductive Reply (A : Type) : Type :=
| Ok (a : A)
| Fail (msg : string).
Arguments Ok {A} a.
Arguments Fail {A} msg.

(** What git and the lock answer during one sync attempt.  A clone and
    a hard reset answer with the working tree they leave at the
    repository path. *)
Record GitEnv : Type := mkGitEnv {
  g_lock : Reply unit;
  g_release : Reply unit;
  g_clone : Reply node;
  g_abbrev_head : Reply string;
  g_head : Reply string;
  g_fetch : Reply unit;
  g_default_branch : string;
  g_remote_commit : string -> Reply string;
  g_reset : string -> Reply node
}.

(** Await a call: its value, or its error thrown. *)
Definition await {A} (r : Reply A) : M A :=
  match r with
  | Ok a => ret a
  | Fail msg => throw (new_Error msg)
  end.

Definition write_tree (p : path) (n : node) : M unit := fun w =>
  (Returned tt, set_fs (update_path p (fun _ => Some n) (w_fs w)) w).

Section GitManager.
Variable refuses : Refusals.
Variable git : GitEnv.
(** [generateRepoSlug] parses the URL with the platform's parser; any
    function from URLs to directory names will do here. *)
Variable generateRepoSlug : string -> string.

Definition getRepositoryPath (config : RulesConfig) : path :=
  let repoSlug := generateRepoSlug (repoUrl config) in
  path_join (cacheDirPath config) repoSlug.

Definition repositoryExists (repoPath : path) : M bool :=
  let gitDir := path_join repoPath ".git" in
  stat_isDirectory gitDir.

Definition cloneRepository (config : RulesConfig) (repoPath : path)
  : M string :=
  try_catch
    (tree <- await (g_clone git) ;;
     write_tree repoPath tree ;;
     log LInfo ("Successfully cloned repository to " ++ show_path repoPath) ;;
     currentBranch <- await (g_abbrev_head git) ;;
     ret (trim currentBranch))
    (fun error =>
       log LError "Failed to clone repository" ;;
       throw (new_Error ("Git clone failed: " ++ e_message error))).

Definition fetchRepository (config : RulesConfig) (repoPath : path)
  : M unit :=
  try_catch
    (currentCommit <- await (g_head git) ;;
     await (g_fetch git) ;;
     let remoteBranch :=
       if truthy (branch config) then branch config
       else g_default_branch git in
     remoteCommit <- await (g_remote_commit git remoteBranch) ;;
     if negb (currentCommit =? remoteCommit) then
       log LInfo ("New commits available, updating from "
                    ++ substring 0 8 currentCommit ++ " to "
                    ++ substring 0 8 remoteCommit) ;;
       tree <- await (g_reset git remoteBranch) ;;
       write_tree repoPath tree
     else
       log LInfo "Repository is already up to date")
    (fun error =>
       log LError "Failed to fetch repository updates" ;;
       hasLocalCopy <- repositoryExists repoPath ;;
       if hasLocalCopy then
         log LWarn "Using existing cached copy due to fetch failure"
       else
         throw (new_Error ("Git fetch failed: " ++ e_message error))).

Definition acquireLock (lockTargetPath : path) : M unit :=
  fs_mkdir refuses (path_dirname lockTargetPath) ;;
  try_catch (await (g_lock git))
    (fun e => throw (new_Error ("Failed to acquire lock: " ++ e_message e))).

Definition releaseLock : M unit :=
  try_catch (await (g_release git))
    (fun e => log LWarn ("Failed to release lock: " ++ e_message e)).

Definition ensureRepository (config : RulesConfig)
  : M (path * option string) :=
  let repoPath := getRepositoryPath config in
  fs_mkdir refuses (path_dirname repoPath) ;;
  acquireLock repoPath ;;
  try_finally
    (repoExists <- repositoryExists repoPath ;;
     if negb repoExists then
       log LInfo ("Cloning repository for the first time to "
                    ++ show_path repoPath) ;;
       actualBranch <- cloneRepository config repoPath ;;
       ret (repoPath, Some actualBranch)
     else
       log LInfo "Repository exists, fetching updates" ;;
       fetchRepository config repoPath ;;
       if negb (truthy (branch config)) then
         b <- await (g_abbrev_head git) ;;
         ret (repoPath, Some (trim b))
       else ret (repoPath, None))
    releaseLock.
End GitManager.

(* ================================================================== *)
(** * [RulesManager] *)
(* ================================================================== *)

(** What the world answers during one sync attempt: the refusals of the
    operating system, the answers of git, and the button chosen on a
    notification that offers buttons ([None]: it was dismissed). *)
Record Env : Type := mkEnv {
  refusals : Refusals;
  git_env : GitEnv;
  prompt : option string
}.

(** A session script: a sync attempt and how the user answers the modal
    dialog should the attempt fail.  "Retry" leads to another attempt;
    "Work with local copy" leads to a mirror of the cache, under the
    refusals of that moment. *)
Inductive Script : Type :=
| Attempt (env : Env) (reply : ModalReply)
with ModalReply : Type :=
| Dismissed
| ClickRetry (next : Script)
| ClickLocalCopy (refuses : Refusals).

Definition join_with (sep : string) (l : list string) : string :=
  String.concat sep l.

(** A number inside a template string. *)
Definition show_Z (z : Z) : string := NilZero.string_of_int (Z.to_int z).

Definition executeCommand (cmd arg : string) : M unit :=
  show (ExecuteCommand cmd arg).

Section RulesManager.
Variable generateRepoSlug : string -> string.

(** The prompt shown when the extension is not configured. *)
Definition promptToConfigure (env : Env) : M unit :=
  show (ShowWarning
          "AI Rules Syncer is not configured. Open settings to configure now?"
          ["Open Settings"; "Cancel"]) ;;
  match prompt env with
  | Some action =>
      if action =? "Open Settings"
      then executeCommand "workbench.action.openSettings" "aiRulesSyncer"
      else ret tt
  | None => ret tt
  end.

Definition syncRules (env : Env) : M unit := fun w =>
  if w_disposed w then (Returned tt, w)
  else if negb (isConfigured (w_settings w)) then promptToConfigure env w
  else
    let config := getConfig (w_settings w) in
    let errors := validateConfig (w_settings w) config in
    if negb (Nat.eqb (List.length errors) 0) then
      (let message : string :=
         ("Configuration invalid: " ++ join_with ", " errors)%string in
       log LWarn message ;;
       show (ShowWarning message [])) w
    else
      try_catch
        (log LInfo ("Syncing rules from " ++ repoUrl config) ;;
         r <- ensureRepository (refusals env) (git_env env)
                generateRepoSlug config ;;
         (match snd r with
          | Some actualBranch =>
              if truthy actualBranch then setBranchDefault actualBranch
              else ret tt
          | None => ret tt
          end) ;;
         syncFiles (refusals env) (fst r) config ;;
         log LInfo "Rules sync completed successfully")
        (fun error => log LError "Sync failed" ;; throw error) w.

Definition setupPeriodicSync : M unit := fun w =>
  let w0 := set_timer None w in
  let config := getConfig (w_settings w0) in
  let errors := validateConfig (w_settings w0) config in
  if negb (Nat.eqb (List.length errors) 0) then
    log LWarn ("Skipping periodic sync due to invalid configuration: "
                 ++ join_with ", " errors) w0
  else if (0 <? syncIntervalMinutes config)%Z then
    (Returned tt,
     set_timer (Some (syncIntervalMinutes config))
       (add_log LInfo
          ("Setting up periodic sync every "
             ++ show_Z (syncIntervalMinutes config) ++ " minutes") w0))
  else (Returned tt, w0).

(** The fallback shared by [handleSyncError] and [offerReconfiguration]:
    mirror the cached repository when there is one. *)
Definition useLocalCopy (refuses : Refusals) (onUse onNone : M unit)
  (onFail : M unit) : M unit :=
  try_catch
    (s <- get_settings ;;
     let config := getConfig s in
     let repoPath := getRepositoryPath generateRepoSlug config in
     cached <- hasExistingContent repoPath ;;
     if cached then
       syncFiles refuses repoPath config ;;
       log LInfo "Using existing cached rules" ;;
       onUse
     else onNone)
    (fun fallbackError =>
       log LError "Fallback to cached rules failed" ;; onFail).

(** The [try] block of [performInitialSync]. *)
Definition initialSyncBody (env : Env) : M unit :=
  log LInfo "Starting initial sync..." ;;
  syncRules env ;;
  setupPeriodicSync.

Fixpoint performInitialSync (script : Script) : M unit :=
  match script with
  | Attempt env reply =>
      try_catch (initialSyncBody env)
        (fun error =>
           log LError "Initial sync failed" ;;
           handleSyncError error true reply)
  end
with handleSyncError (error : Error) (isFirstTime : bool)
  (reply : ModalReply) : M unit :=
  if isFirstTime then
    show (ShowError true ("Failed to sync AI rules: " ++ e_message error)
            ["Retry"; "Work with local copy"]) ;;
    match reply with
    | ClickRetry next => performInitialSync next
    | ClickLocalCopy refuses =>
        useLocalCopy refuses (ret tt)
          (show (ShowWarning "No rules available; working without rules" []))
          (show (ShowWarning "No rules available; working without rules" []))
    | Dismissed => ret tt
    end
  else
    show (ShowWarning ("Failed to sync rules: " ++ e_message error) []).

Definition offerReconfiguration (env : Env) (errorMessage : string)
  : M unit :=
  show (ShowWarning
          ("Failed to access AI rules repository: " ++ errorMessage)
          ["Open Settings"; "Work with Local Copy"]) ;;
  match prompt env with
  | Some action =>
      if action =? "Open Settings" then
        executeCommand "workbench.action.openSettings"
          "aiRulesSyncer.repoUrl"
      else if action =? "Work with Local Copy" then
        useLocalCopy (refusals env)
          (show (ShowInformation false
                   "Using existing cached AI rules. You can reconfigure the repository later."
                   []))
          (show (ShowWarning
                   "No cached rules available; working without rules. You can reconfigure the repository later."
                   []))
          (show (ShowWarning
                   "No rules available; working without rules. You can reconfigure the repository later."
                   []))
      else ret tt
  | None => ret tt
  end.

(** The errors [performInitialSetup] treats as repository access
    failures. *)
Definition isRepositoryAccessError (errorMessage : string) : bool :=
  includes errorMessage "Repository not found"
  || includes errorMessage "Could not read from remote repository"
  || includes errorMessage "Authentication failed"
  || includes errorMessage "Git clone failed".

(** The [try] block of [performInitialSetup]. *)
Definition initialSetupBody (env : Env) : M unit :=
  log LInfo "Checking configuration..." ;;
  s <- get_settings ;;
  if negb (isConfigured s) then
    log LInfo "Extension not configured; prompting to open settings" ;;
    promptToConfigure env
  else
    let initialConfig := getConfig s in
    let initialErrors := validateConfig s initialConfig in
    if negb (Nat.eqb (List.length initialErrors) 0) then
      let message : string :=
        ("Configuration invalid: "
           ++ join_with ", " initialErrors)%string in
      log LWarn message ;;
      show (ShowWarning message [])
    else
      log LInfo "Configuration valid, starting initial sync..." ;;
      syncRules env ;;
      setupPeriodicSync.

Definition performInitialSetup (script : Script) : M unit :=
  match script with
  | Attempt env reply =>
      try_catch (initialSetupBody env)
        (fun error =>
           log LError "Initial setup failed" ;;
           let errorMessage := e_message error in
           if isRepositoryAccessError errorMessage then
             log LWarn "Repository access failed, offering reconfiguration" ;;
             offerReconfiguration env errorMessage
           else handleSyncError error true reply)
  end.

(** The callback of the periodic timer. *)
Definition timerTick (env : Env) : M unit :=
  try_catch (syncRules env)
    (fun error => handleSyncError error false Dismissed).

Definition resyncSettings : list string :=
  ["aiRulesSyncer.repoUrl"; "aiRulesSyncer.teamNames";
   "aiRulesSyncer.branch"; "aiRulesSyncer.rulesFolderPath";
   "aiRulesSyncer.cacheDirPath"].

Definition watchedSettings : list string :=
  ["aiRulesSyncer.repoUrl"; "aiRulesSyncer.teamNames";
   "aiRulesSyncer.branch"; "aiRulesSyncer.syncIntervalMinutes";
   "aiRulesSyncer.cacheDirPath"; "aiRulesSyncer.rulesFolderPath"].

(** [onConfigChanged], for an event that affects the settings
    [affects] holds of. *)
Definition onConfigChanged (affects : string -> bool) (env : Env)
  : M unit :=
  if affects "aiRulesSyncer" then
    log LInfo "Configuration changed, applying updates..." ;;
    let changedSettings := filter affects watchedSettings in
    log LDebug ("Changed settings: " ++ join_with ", " changedSettings) ;;
    setupPeriodicSync ;;
    if existsb (fun setting => existsb (String.eqb setting) resyncSettings)
         changedSettings
    then
      log LInfo "Relevant settings changed, triggering sync..." ;;
      try_catch (syncRules env)
        (fun error => handleSyncError error false Dismissed)
    else ret tt
  else ret tt.

(** The command [aiRulesSyncer.refreshRules] of [extension.ts]. *)
Definition refreshCommand (env : Env) : M unit :=
  try_catch
    (syncRules env ;;
     show (ShowInformation false "AI Rules refreshed successfully" []))
    (fun error =>
       show (ShowError false
               ("Failed to refresh rules: " ++ e_message error) [])).
End RulesManager.

(** What one round of the team loop of [copyRulesFromRepo] makes of the
    entries [acc] of the destination team folder, [es] being the entries
    of the source team folder. *)
Definition team_step (es acc : entries_t) (t : string) : entries_t :=
  match lookup_entry t es with
  | Some (Dir sub) => upsert t (Dir sub) acc
  | _ => acc
  end.

(** The copy phase seen from the destination: what its entries become
    when the copies merge over entries that are already there.  Every
    round of a loop either skips its item or replaces the entry of one
    name by a function of what the entry held ([None]: the copy fails,
    on a file where a directory is due or the reverse). *)
Fixpoint fold_opt {X : Type} (step : entries_t -> X -> option entries_t)
  (l : list X) (E : entries_t) : option entries_t :=
  match l with
  | [] => Some E
  | x :: l' =>
      match step E x with
      | Some E' => fold_opt step l' E'
      | None => None
      end
  end.

Definition keyed_step {X : Type} (key : X -> string)
  (g : X -> option (option node -> option node))
  (E : entries_t) (x : X) : option entries_t :=
  match g x with
  | None => Some E
  | Some f =>
      option_map (fun v => upsert (key x) v E) (f (lookup_entry (key x) E))
  end.

(** [fs.cp] over the entries of a directory is such a loop. *)
Definition entry_cp (e : string * node)
  : option (option node -> option node) :=
  Some (cp_node (snd e)).

(** The team loop, over the entries of the destination team folder. *)
Definition team_copy (es : entries_t) (t : string)
  : option (option node -> option node) :=
  match lookup_entry t es with
  | Some (Dir sub) => Some (cp_node (Dir sub))
  | _ => None
  end.

Definition merge_team (es : entries_t)
  : list string -> entries_t -> option entries_t :=
  fold_opt (keyed_step (fun t => t) (team_copy es)).

(** The loop over the entries of the source, over the entries of the
    destination. *)
Definition entry_copy (teams : list string) (e : string * node)
  : option (option node -> option node) :=
  match snd e with
  | File _ => None
  | Dir es =>
      if prefix "." (fst e) then None
      else if prefix "team" (fst e) then
        Some (fun o =>
                match mkdirp [] o with
                | Some (Dir ET) => option_map Dir (merge_team es teams ET)
                | _ => None
                end)
      else Some (cp_node (Dir es))
  end.

Definition merge_all (teams : list string)
  : entries_t -> entries_t -> option entries_t :=
  fold_opt (keyed_step fst (entry_copy teams)).

(** What [copyTeam] logs for the team [t], [es] being the entries of the
    source team folder called [entryName]. *)
Definition team_log (entryName : string) (es : entries_t) (t : string)
  : level * string :=
  if is_dir (lookup_entry t es)
  then (LInfo,
        ("Copied team rules for: " ++ t ++ " from " ++ entryName
           ++ "/")%string)
  else (LInfo,
        ("Team folder not found under " ++ entryName ++ "/: " ++ t
           ++ " (skipping)")%string).

(** What [copyEntry] logs for an entry of the source. *)
Definition entry_log (ts : list string) (e : string * node)
  : list (level * string) :=
  match snd e with
  | File _ => []
  | Dir es =>
      if prefix "." (fst e) then []
      else if prefix "team" (fst e) then map (team_log (fst e) es) ts
           else [(LInfo, ("Copied folder: " ++ fst e)%string)]
  end.

(** Whether the recursive deletion of [p] goes through: the operating
    system does not refuse it, and no ancestor of [p] is a file. *)
Definition rm_succeeds (refuses : Refusals) (p : path) (w : World) : bool :=
  match refuses (OpRm p) with
  | Some _ => false
  | None => negb (blocked_by_file p (Some (w_fs w)))
  end.

(** The entries the copy phase starts from: none when the deletion
    went through, else the ones the destination holds. *)
Definition start_entries (refuses : Refusals) (dest : path) (w : World)
  : entries_t :=
  if rm_succeeds refuses dest w then []
  else match lookup_path dest (w_fs w) with
       | Some (Dir E) => E
       | _ => []
       end.

(** The environment lets the operation through. *)
Definition allowed (refuses : Refusals) (op : fsop) : bool :=
  match refuses op with
  | None => true
  | Some _ => false
  end.

(** The operations of one round of the team loop are let through. *)
Definition team_allowed (refuses : Refusals) (repo dest : path)
  (T : string) (es : entries_t) (t : string) : bool :=
  match lookup_entry t es with
  | Some (Dir _) =>
      allowed refuses (OpCp ((repo ++ [T]) ++ [t]) ((dest ++ [T]) ++ [t]))
  | _ => true
  end.

(** The operations of one round of the loop over the source are let
    through. *)
Definition entry_allowed (refuses : Refusals) (repo dest : path)
  (teams : list string) (e : string * node) : bool :=
  match snd e with
  | File _ => true
  | Dir es =>
      if prefix "." (fst e) then true
      else if prefix "team" (fst e) then
        allowed refuses (OpMkdir (dest ++ [fst e]))
        && forallb (team_allowed refuses repo dest (fst e) es) teams
      else allowed refuses (OpCp (repo ++ [fst e]) (dest ++ [fst e]))
  end.

(** What a successful mirror logs when the deletion went through. *)
Definition mirror_log (repo : path) (cfg : RulesConfig) (src : entries_t)
  : list (level * string) :=
  [(LInfo, ("Starting file sync from " ++ show_path repo ++ " to "
              ++ show_path (rulesFolderPath cfg))%string);
   (LDebug, "Removing destination directory entirely");
   (LDebug, "Destination directory removed")]
  ++ flat_map (entry_log (teamNames cfg)) src
  ++ [(LInfo, "File sync completed")].

(** The error the recursive deletion of [p] throws, if it fails. *)
Definition rm_error (refuses : Refusals) (p : path) (w : World)
  : option Error :=
  match refuses (OpRm p) with
  | Some e => Some (fs_error e "rm" p)
  | None =>
      if blocked_by_file p (Some (w_fs w))
      then Some (fs_error ENOTDIR "lstat" p)
      else None
  end.

(** What [removeDestination] logs. *)
Definition rm_log (refuses : Refusals) (p : path) (w : World)
  : list (level * string) :=
  (LDebug, "Removing destination directory entirely")
  :: match rm_error refuses p w with
     | None => [(LDebug, "Destination directory removed")]
     | Some e =>
         if negb (code_is ENOENT e)
         then [(LWarn,
                ("Failed to remove destination directory: "
                   ++ show_error e)%string)]
         else []
     end.

(** The two worlds agree on all but the tree and the log. *)
Definition same_host (w w' : World) : Prop :=
  w_ui w' = w_ui w /\ w_settings w' = w_settings w
  /\ w_timer w' = w_timer w /\ w_disposed w' = w_disposed w.

(** A method that touches only the tree and the log. *)
Definition quiet {A} (c : M A) : Prop := forall w, same_host w (snd (c w)).

(** A blocking message: one shown with [{ modal: true }]. *)
Definition is_modal (e : UiEvent) : bool :=
  match e with
  | ShowError m _ _ => m
  | ShowInformation m _ _ => m
  | ShowWarning _ _ => false
  | ExecuteCommand _ _ => false
  end.

(** A method that shows nothing blocking: what it adds to the user
    interface is not modal. *)
Definition calm {A} (c : M A) : Prop :=
  forall w, exists evs,
    w_ui (snd (c w)) = w_ui w ++ evs
    /\ forallb (fun e => negb (is_modal e)) evs = true.

(** A method that leaves what is at [q] as it is. *)
Definition keeps (q : path) {A} (c : M A) : Prop :=
  forall w, lookup_path q (w_fs (snd (c w))) = lookup_path q (w_fs w).

(** A method that only adds to what the user was shown. *)
Definition grows {A} (c : M A) : Prop :=
  forall w, exists evs, w_ui (snd (c w)) = w_ui w ++ evs.

(** The modal dialog of [handleSyncError]. *)
Definition syncErrorModal (error : Error) : UiEvent :=
  ShowError true ("Failed to sync AI rules: " ++ e_message error)
    ["Retry"; "Work with local copy"].

(** The notice of [handleSyncError] for failures that are not the
    first. *)
Definition syncErrorNotice (error : Error) : UiEvent :=
  ShowWarning ("Failed to sync rules: " ++ e_message error) [].

(** Every entry of [acc] is a sub-directory of the source team folder. *)
Definition consistent (es acc : entries_t) : Prop :=
  forall k v, lookup_entry k acc = Some v ->
              lookup_entry k es = Some v /\ is_dir_node v = true.

(** The entries of [l] whose names are not in [K]. *)
Fixpoint remove_keys (K : list string) (l : entries_t) : entries_t :=
  match K with
  | [] => l
  | k :: K' => remove_entry k (remove_keys K' l)
  end.

(** What a name holds, when it is a directory. *)
Definition only_dir (o : option node) : option node :=
  match o with
  | Some (Dir sub) => Some (Dir sub)
  | _ => None
  end.

(** A method that never throws. *)
Definition unfailing {A} (c : M A) : Prop :=
  forall w, exists a, fst (c w) = Returned a.

(** What is found at a place holds the node [n]: the same file, or a
    directory where [n] is one. *)
Definition holds_as (n : node) (o : option node) : Prop :=
  match n with
  | File c => o = Some (File c)
  | Dir _ => is_dir o = true
  end.

(* ================================================================== *)
(** * The mirror the specification describes *)
(* ================================================================== *)

(** Reference definitions, written from the wording of the
    specification (its section 4.1) and not from the code, to compare
    [syncFiles] with. *)

(** "its name begins with a hidden-entry marker". *)
Definition hidden (name : string) : bool := prefix "." name.

(** "its name begins with the literal prefix team". *)
Definition team_like (name : string) : bool := prefix "team" name.

(** "for each identifier in selectedTeams, check whether a subdirectory
    of that exact name exists under the source team directory; if yes,
    copy it in full": one entry for each distinct selected team that is
    a directory under the team folder, in the order of first mention. *)
Fixpoint select_teams (selectedTeams : list string) (es : entries_t)
  : entries_t :=
  match selectedTeams with
  | [] => []
  | t :: ts =>
      match lookup_entry t es with
      | Some (Dir sub) => (t, Dir sub) :: remove_entry t (select_teams ts es)
      | _ => select_teams ts es
      end
  end.

(** What one immediate child of the source contributes. *)
Definition mirror_entry (selectedTeams : list string) (e : string * node)
  : entries_t :=
  match snd e with
  | File _ => []
  | Dir es =>
      if hidden (fst e) then []
      else if team_like (fst e)
           then [(fst e, Dir (select_teams selectedTeams es))]
           else [(fst e, Dir es)]
  end.

(** The entries of the destination after a mirror of a source directory
    with entries [src]. *)
Definition mirror (selectedTeams : list string) (src : entries_t)
  : entries_t :=
  flat_map (mirror_entry selectedTeams) src.

(* ================================================================== *)
(** * More of [ConfigManager]: the team names as a string *)
(* ================================================================== *)

(** Every character of [s] passes [f]. *)
Fixpoint string_forallb (f : ascii -> bool) (s : string) : bool :=
  match s with
  | EmptyString => true
  | String c s' => f c && string_forallb f s'
  end.

(** A string of ASCII characters.  A string is kept as its bytes; on
    these strings, and only on these, a byte is a character, so that
    what JavaScript does character by character ([trim], the classes of
    a regular expression) is what is done here byte by byte. *)
Definition ascii_only (s : string) : bool :=
  string_forallb (fun c => Nat.ltb (nat_of_ascii c) 128) s.

(** [s.split(sep)] for a separator of one character, [acc] being the
    piece under construction. *)
Fixpoint split_on (sep : ascii) (s acc : string) : list string :=
  match s with
  | EmptyString => [acc]
  | String c s' =>
      if Ascii.eqb c sep then acc :: split_on sep s' ""
      else split_on sep s' (acc ++ String c "")
  end.

(** The team names of [getConfig], from the raw setting, which is a
    string of comma-separated names or an array of names. *)
Definition normalizeTeamNames (rawTeamNames : string + list string)
  : list string :=
  match rawTeamNames with
  | inr names => filter truthy (map trim names)
  | inl text => filter truthy (map trim (split_on "," text ""))
  end.

(** [ConfigManager.setBranchDefault] with the answer of
    [config.update], which the method awaits outside any [try]: a
    rejected write is thrown to the caller before anything is logged.
    [setBranchDefault] above is the case where the write goes
    through. *)
Definition setBranchDefaultWith (update : Reply unit)
  (actualBranch : string) : M unit :=
  s <- get_settings ;;
  let userBranchValue :=
    match s_branchUser s with Some b => b | None => "" end in
  let workspaceBranchValue :=
    match s_branchWorkspace s with Some b => b | None => "" end in
  if negb (truthy (trim userBranchValue)) && truthy actualBranch then
    await update ;;
    (fun w =>
       (Returned tt,
        set_settings
          (mkSettings (s_repoUrl s) (s_teamNames s) (s_rulesFolderPath s)
             (s_cacheDirPath s) (s_syncIntervalMinutes s)
             (Some actualBranch) (s_branchWorkspace s)
             (s_workspaceRoot s)) w)) ;;
    log LInfo ("Auto-configured branch setting at user level to: "
                 ++ actualBranch) ;;
    if truthy (trim workspaceBranchValue)
    then log LInfo ("Note: Workspace branch '" ++ workspaceBranchValue
                      ++ "' will override user default")
    else ret tt
  else ret tt.

(* ================================================================== *)
(** * More of [GitManager]: [generateRepoSlug] *)
(* ================================================================== *)

(** The class [\w] of regular expressions: letters, digits, [_]. *)
Definition is_word (c : ascii) : bool :=
  let n := nat_of_ascii c in
  (Nat.leb 48 n && Nat.leb n 57) || (Nat.leb 65 n && Nat.leb n 90)
  || (Nat.leb 97 n && Nat.leb n 122) || Nat.eqb n 95.

(** The class [[a-zA-Z0-9-_]]. *)
Definition slug_char (c : ascii) : bool := is_word c || Ascii.eqb c "-".

(** The class [[\w.-]]. *)
Definition user_char (c : ascii) : bool :=
  is_word c || Ascii.eqb c "." || Ascii.eqb c "-".

Fixpoint string_map (f : ascii -> ascii) (s : string) : string :=
  match s with
  | EmptyString => EmptyString
  | String c s' => String (f c) (string_map f s')
  end.

(** [s.replace(/[^a-zA-Z0-9-_]/g, '-')], byte by byte: on a string of
    ASCII characters this is the replacement; a character outside ASCII
    is one or two units for the regular expression and two to four bytes
    here, so it gives more hyphens here than there. *)
Definition sanitize (s : string) : string :=
  string_map (fun c => if slug_char c then c else "-"%char) s.

(** [s.replace(/\.git$/, '')]. *)
Fixpoint strip_dot_git (s : string) : string :=
  match s with
  | EmptyString => EmptyString
  | String c s' =>
      if String c s' =? ".git" then EmptyString
      else String c (strip_dot_git s')
  end.

(** [s] cut at the first [sep]: what is before it and what is after. *)
Fixpoint break_at (sep : ascii) (s : string) : option (string * string) :=
  match s with
  | EmptyString => None
  | String c s' =>
      if Ascii.eqb c sep then Some (EmptyString, s')
      else match break_at sep s' with
           | Some (a, b) => Some (String c a, b)
           | None => None
           end
  end.

(** What the lazy group [([^/]+?)] captures before [(?:\.git)?$]: the
    first character, and the least of what follows that leaves nothing
    or [.git]. *)
Definition repo_group (rest : string) : string :=
  match rest with
  | EmptyString => EmptyString
  | String c rest' => String c (strip_dot_git rest')
  end.

(** [repoUrl.match(/^[\w.-]+@[^:]+:([^/]+)\/([^/]+?)(?:\.git)?$/)]: the
    two groups.  Each class excludes the character that ends its run, so
    the runs are cut at the first [@], the first [:] after it and the
    first [/] after that. *)
Definition ssh_match (repoUrl : string) : option (string * string) :=
  match break_at "@" repoUrl with
  | Some (user, r1) =>
      if negb (user =? "") && string_forallb user_char user then
        match break_at ":" r1 with
        | Some (host, r2) =>
            if negb (host =? "") then
              match break_at "/" r2 with
              | Some (org, r3) =>
                  if negb (org =? "") && negb (r3 =? "")
                     && negb (has_sep r3)
                  then Some (org, repo_group r3)
                  else None
              | None => None
              end
            else None
        | None => None
        end
      else None
  | None => None
  end.

(** [l.at(-1 - k)]. *)
Definition at_end (k : nat) (l : list string) : option string :=
  nth_error (rev l) k.

Definition base64url_alphabet : string :=
  "ABCDEFGHIJKLMNOPQRSTUVWXYZabcdefghijklmnopqrstuvwxyz0123456789-_".

(** The character of the six bits [x5 ... x0], the most significant
    first. *)
Definition sextet (x5 x4 x3 x2 x1 x0 : bool) : ascii :=
  let bit (b : bool) (v : nat) := if b then v else 0 in
  match String.get (bit x5 32 + bit x4 16 + bit x3 8 + bit x2 4
                    + bit x1 2 + bit x0 1) base64url_alphabet with
  | Some c => c
  | None => "="%char
  end.

(** [Buffer.from(s).toString('base64url')]: three bytes give four
    characters, a rest of one byte two, of two bytes three; no
    padding. *)
Fixpoint base64url (s : string) : string :=
  match s with
  | EmptyString => EmptyString
  | String (Ascii a0 a1 a2 a3 a4 a5 a6 a7) EmptyString =>
      String (sextet a7 a6 a5 a4 a3 a2)
        (String (sextet a1 a0 false false false false) EmptyString)
  | String (Ascii a0 a1 a2 a3 a4 a5 a6 a7)
      (String (Ascii b0 b1 b2 b3 b4 b5 b6 b7) EmptyString) =>
      String (sextet a7 a6 a5 a4 a3 a2)
        (String (sextet a1 a0 b7 b6 b5 b4)
           (String (sextet b3 b2 b1 b0 false false) EmptyString))
  | String (Ascii a0 a1 a2 a3 a4 a5 a6 a7)
      (String (Ascii b0 b1 b2 b3 b4 b5 b6 b7)
         (String (Ascii c0 c1 c2 c3 c4 c5 c6 c7) rest)) =>
      String (sextet a7 a6 a5 a4 a3 a2)
        (String (sextet a1 a0 b7 b6 b5 b4)
           (String (sextet b3 b2 b1 b0 c7 c6)
              (String (sextet c5 c4 c3 c2 c1 c0) (base64url rest))))
  end.

(** [GitManager.generateRepoSlug].  [pathname u] is [new URL(u).pathname],
    or [None] when the URL parser of the platform throws.  A URL is the
    sequence of its bytes, which for a URL of ASCII characters are its
    characters. *)
Definition generateRepoSlug (pathname : string -> option string)
  (repoUrl : string) : string :=
  let fallback := substring 0 32 (base64url repoUrl) in
  if prefix "http" repoUrl then
    match pathname repoUrl with
    | Some p =>
        let parts := filter truthy (split_on "/" (strip_dot_git p) "") in
        let org := match at_end 1 parts with
                   | Some x => x
                   | None => "repo"
                   end in
        let repo := match at_end 0 parts with
                    | Some x => x
                    | None => "unknown"
                    end in
        sanitize (org ++ "-" ++ repo)
    | None => fallback
    end
  else
    match ssh_match repoUrl with
    | Some (org, repo) => sanitize (org ++ "-" ++ repo)
    | None => fallback
    end.

(* ================================================================== *)
(** * A concrete repository, workspace and environment *)
(* ================================================================== *)

(** The rules repository of the README, as cloned into the cache. *)
Definition ex_src : entries_t :=
  [(".git", Dir [("HEAD", File "ref: refs/heads/main")]);
   ("README.md", File "# rules");
   ("general",
    Dir [("tone.mdc", File "tone");
         ("subdir", Dir [("extra.mdc", File "extra")])]);
   ("team",
    Dir [("cloud-infra", Dir [("general.mdc", File "cloud")]);
         ("blue-team", Dir [("general.mdc", File "blue")])]);
   ("teams",
    Dir [("cloud-infra", Dir [("extra.mdc", File "cloud-extra")]);
         ("data-science", Dir [("general.mdc", File "ds")])])].

Definition ex_cache : path := ["home"; ".cache"].
Definition ex_repoPath : path := ["home"; ".cache"; "Org-ai-coding-rules"].
Definition ex_workspace : path := ["ws"].
Definition ex_dest : path := ["ws"; ".cursor"; "rules"; "remote"].

(** A tree where the cache holds the clone and the workspace holds
    [remote], the content of the rules folder ([None]: no such folder). *)
Definition ex_tree (remote : option node) : node :=
  Dir [("home", Dir [(".cache", Dir [("Org-ai-coding-rules", Dir ex_src)])]);
       ("ws",
        Dir [("src", Dir [("main.ts", File "code")]);
             (".cursor",
              Dir [("rules",
                    Dir (match remote with
                         | Some n => [("remote", n)]
                         | None => []
                         end))])])].

(** What an earlier sync left: a file of a team no longer selected. *)
Definition ex_stale : node :=
  Dir [("team", Dir [("blue-team", Dir [("old.mdc", File "old")])])].

Definition ex_settings (teams : list string) : Settings :=
  mkSettings "https://github.com/Org/ai-coding-rules.git" teams
    ex_dest ex_cache 0 None None (Some ex_workspace).

Definition ex_world (remote : option node) (teams : list string) : World :=
  mkWorld (ex_tree remote) [] [] (ex_settings teams) None false.

Definition ex_cfg (teams : list string) : RulesConfig :=
  mkConfig "https://github.com/Org/ai-coding-rules.git" teams
    ex_dest ex_cache 0 "".

(** An operating system that refuses every recursive deletion. *)
Definition refuse_rm : Refusals :=
  fun op => match op with OpRm _ => Some EACCES | _ => None end.

(** An operating system with a full disk: every copy is refused. *)
Definition refuse_cp : Refusals :=
  fun op => match op with OpCp _ _ => Some ENOSPC | _ => None end.

(** The slug of the example URL. *)
Definition ex_slug : string -> string := fun _ => "Org-ai-coding-rules".

(** Git answers, the remote being reachable and the clone up to date. *)
Definition git_online : GitEnv :=
  mkGitEnv (Ok tt) (Ok tt) (Ok (Dir ex_src)) (Ok "main")
    (Ok "4f2a9c1e77") (Ok tt) "main" (fun _ => Ok "4f2a9c1e77")
    (fun _ => Ok (Dir ex_src)).

(** Git answers with the network down: whatever reaches the remote
    fails; what is local still answers. *)
Definition git_offline : GitEnv :=
  mkGitEnv (Ok tt) (Ok tt)
    (Fail "fatal: unable to access the remote: Could not resolve host")
    (Ok "main") (Ok "4f2a9c1e77")
    (Fail "fatal: unable to access the remote: Could not resolve host")
    "main" (fun _ => Ok "4f2a9c1e77") (fun _ => Ok (Dir ex_src)).

(** Another window holds the lock of the cache. *)
Definition git_locked : GitEnv :=
  mkGitEnv (Fail "Lock file is already being held") (Ok tt)
    (Ok (Dir ex_src)) (Ok "main") (Ok "4f2a9c1e77") (Ok tt) "main"
    (fun _ => Ok "4f2a9c1e77") (fun _ => Ok (Dir ex_src)).

(** A tree where the cache holds no clone yet. *)
Definition ex_tree_no_cache : node :=
  Dir [("home", Dir []);
       ("ws", Dir [("src", Dir [("main.ts", File "code")])])].

Definition ex_world_no_cache (teams : list string) : World :=
  mkWorld ex_tree_no_cache [] [] (ex_settings teams) None false.

Definition env_online : Env := mkEnv no_refusal git_online None.
Definition env_offline : Env := mkEnv no_refusal git_offline None.
Definition env_locked : Env := mkEnv no_refusal git_locked None.
Definition env_disk_full : Env := mkEnv refuse_cp git_online None.

(* ================================================================== *)
(** * Facts about names, entries and paths *)
(* ================================================================== *)

Lemma append_nil_r (s : string) : (s ++ "")%string = s.
Proof. induction s as [|c s IH]; simpl; congruence. Qed.

Lemma append_assoc (a b c : string) :
  ((a ++ b) ++ c)%string = (a ++ (b ++ c))%string.
Proof. induction a as [|x a IH]; simpl; congruence. Qed.

Lemma split_sep_no_sep (s acc : string) :
  has_sep s = false -> split_sep s acc = [(acc ++ s)%string].
Proof.
  revert acc; induction s as [|c s IH]; intros acc H; simpl in *.
  - now rewrite append_nil_r.
  - apply orb_false_iff in H as [Hc Hs]. rewrite Hc.
    rewrite IH by assumption. f_equal.
    now rewrite append_assoc.
Qed.

Lemma path_join_plain (base : path) (name : string) :
  plain_name name = true -> path_join base name = base ++ [name].
Proof.
  unfold plain_name, path_join. intros H.
  repeat (apply andb_true_iff in H as [H ?]).
  rewrite split_sep_no_sep by now apply negb_true_iff.
  simpl. unfold push_component.
  apply negb_true_iff in H. rewrite H.
  match goal with H1 : negb (name =? ".") = true |- _ =>
    apply negb_true_iff in H1; rewrite H1 end.
  match goal with H1 : negb (name =? "..") = true |- _ =>
    apply negb_true_iff in H1; rewrite H1 end.
  reflexivity.
Qed.

Lemma lookup_upsert_same (k : string) (v : node) (es : entries_t) :
  lookup_entry k (upsert k v es) = Some v.
Proof.
  induction es as [|[k' v'] es IH]; simpl.
  - now rewrite String.eqb_refl.
  - destruct (k =? k') eqn:E; simpl; rewrite ?String.eqb_refl, ?E; auto.
Qed.

Lemma lookup_upsert_other (k k' : string) (v : node) (es : entries_t) :
  (k =? k') = false ->
  lookup_entry k (upsert k' v es) = lookup_entry k es.
Proof.
  intros Hk. induction es as [|[k2 v2] es IH]; simpl.
  - now rewrite Hk.
  - destruct (k' =? k2) eqn:E; simpl.
    + apply String.eqb_eq in E; subst k2. now rewrite Hk.
    + now rewrite IH.
Qed.

Lemma lookup_remove_same (k : string) (es : entries_t) :
  lookup_entry k (remove_entry k es) = None.
Proof.
  induction es as [|[k' v'] es IH]; simpl; auto.
  destruct (k =? k') eqn:E; simpl; rewrite ?E; auto.
Qed.

Lemma lookup_remove_other (k k' : string) (es : entries_t) :
  (k =? k') = false ->
  lookup_entry k (remove_entry k' es) = lookup_entry k es.
Proof.
  intros Hk. induction es as [|[k2 v2] es IH]; simpl; auto.
  destruct (k' =? k2) eqn:E; simpl.
  - apply String.eqb_eq in E; subst k2. now rewrite Hk.
  - now rewrite IH.
Qed.

Lemma lookup_set_same (k : string) (o : option node) (es : entries_t) :
  lookup_entry k (set_entry k o es) = o.
Proof.
  destruct o; simpl; [apply lookup_upsert_same | apply lookup_remove_same].
Qed.

Lemma lookup_set_other (k k' : string) (o : option node) (es : entries_t) :
  (k =? k') = false ->
  lookup_entry k (set_entry k' o es) = lookup_entry k es.
Proof.
  intros H. destruct o; simpl;
    [now apply lookup_upsert_other | now apply lookup_remove_other].
Qed.

Lemma remove_absent (k : string) (es : entries_t) :
  lookup_entry k es = None -> remove_entry k es = es.
Proof.
  induction es as [|[k' v'] es IH]; simpl; auto.
  destruct (k =? k') eqn:E; [discriminate|].
  intros H. now rewrite IH.
Qed.

Lemma upsert_present (k : string) (v : node) (es : entries_t) :
  lookup_entry k es = Some v -> upsert k v es = es.
Proof.
  induction es as [|[k' v'] es IH]; simpl; [discriminate|].
  destruct (k =? k') eqn:E.
  - apply String.eqb_eq in E; subst k'. now intros [= ->].
  - intros H. now rewrite IH.
Qed.

Lemma upsert_absent (k : string) (v : node) (es : entries_t) :
  lookup_entry k es = None -> upsert k v es = es ++ [(k, v)].
Proof.
  induction es as [|[k' v'] es IH]; simpl; auto.
  destruct (k =? k') eqn:E; [discriminate|].
  intros H. now rewrite IH.
Qed.

Lemma upsert_last (k : string) (v v' : node) (es : entries_t) :
  lookup_entry k es = None ->
  upsert k v (es ++ [(k, v')]) = es ++ [(k, v)].
Proof.
  induction es as [|[k2 v2] es IH]; simpl.
  - now rewrite String.eqb_refl.
  - destruct (k =? k2) eqn:E; [discriminate|].
    intros H. now rewrite IH.
Qed.

Lemma lookup_app_last (k : string) (v : node) (es : entries_t) :
  lookup_entry k es = None -> lookup_entry k (es ++ [(k, v)]) = Some v.
Proof.
  induction es as [|[k2 v2] es IH]; simpl.
  - now rewrite String.eqb_refl.
  - destruct (k =? k2) eqn:E; [discriminate|]. auto.
Qed.

Lemma lookup_None_notin (k : string) (es : entries_t) :
  lookup_entry k es = None <-> ~ In k (map fst es).
Proof.
  induction es as [|[k' v'] es IH]; simpl.
  - tauto.
  - destruct (k =? k') eqn:E.
    + apply String.eqb_eq in E; subst. split; [discriminate | tauto].
    + apply String.eqb_neq in E. rewrite IH. split; [|tauto].
      intros H [Heq|Hin]; [now apply E | now apply H].
Qed.

Lemma lookup_opt_None (p : path) : lookup_opt p None = None.
Proof. now destruct p. Qed.

Lemma lookup_opt_app (p q : path) (o : option node) :
  lookup_opt (p ++ q) o = lookup_opt q (lookup_opt p o).
Proof.
  revert o; induction p as [|c p IH]; intros o; simpl; auto.
  destruct o as [[|es]|]; auto using lookup_opt_None, eq_sym.
Qed.

Lemma update_opt_app (p q : path) (f : option node -> option node)
  (o : option node) :
  update_opt (p ++ q) f o = update_opt p (update_opt q f) o.
Proof.
  revert o; induction p as [|c p IH]; intros o; simpl; auto.
  destruct o as [[|es]|]; auto. now rewrite IH.
Qed.

(** Updating below [p] is seen at [p] as the update of what was there. *)
Lemma lookup_update_under (p q : path) (f : option node -> option node)
  (o : option node) (n : node) :
  lookup_opt p o = Some n ->
  lookup_opt p (update_opt (p ++ q) f o) = update_opt q f (Some n).
Proof.
  revert o; induction p as [|c p IH]; intros o H; simpl in *.
  - now subst.
  - destruct o as [[|es]|]; try discriminate.
    rewrite lookup_set_same. now apply IH.
Qed.

Lemma lookup_remove_path (p : path) (o : option node) :
  lookup_opt p (update_opt p (fun _ => None) o) = None.
Proof.
  revert o; induction p as [|c p IH]; intros o; simpl; auto.
  destruct o as [[|es]|]; auto.
  rewrite lookup_set_same. apply IH.
Qed.

Lemma is_prefix_app (p q : path) : is_prefix p (p ++ q) = true.
Proof.
  induction p as [|c p IH]; simpl; auto. now rewrite String.eqb_refl.
Qed.

Lemma is_prefix_app_l (p q x : path) :
  is_prefix p q = true -> is_prefix p (q ++ x) = true.
Proof.
  revert q; induction p as [|c p IH]; intros [|d q]; simpl; auto;
    try discriminate.
  intros H. apply andb_true_iff in H as [-> H]. simpl. auto.
Qed.

Lemma disjoint_app (p q x y : path) :
  disjoint p q = true -> disjoint (p ++ x) (q ++ y) = true.
Proof.
  unfold disjoint. revert q; induction p as [|c p IH]; intros [|d q];
    simpl; try discriminate.
  destruct (c =? d) eqn:E; simpl.
  - apply String.eqb_eq in E; subst d. rewrite String.eqb_refl. simpl.
    apply IH.
  - rewrite String.eqb_sym, E. auto.
Qed.

Lemma disjoint_sym (p q : path) : disjoint p q = disjoint q p.
Proof. unfold disjoint. apply andb_comm. Qed.

(** Updating at [p] is not seen from a path that neither contains [p]
    nor lies under it. *)
Lemma lookup_update_disjoint (p q : path) (f : option node -> option node)
  (o : option node) :
  disjoint p q = true ->
  lookup_opt q (update_opt p f o) = lookup_opt q o.
Proof.
  unfold disjoint.
  revert q o; induction p as [|c p IH]; intros [|d q] o; simpl;
    try discriminate.
  destruct o as [[|es]|]; auto. intros H.
  destruct (c =? d) eqn:E; simpl in H.
  - apply String.eqb_eq in E; subst d.
    rewrite String.eqb_refl in H. simpl in H.
    rewrite lookup_set_same. now apply IH.
  - rewrite lookup_set_other; auto. now rewrite String.eqb_sym.
Qed.

Lemma update_opt_cons (c : string) (p : path)
  (f : option node -> option node) (n : node) :
  update_opt (c :: p) f (Some n) = Some (update_path (c :: p) f n).
Proof. unfold update_path. simpl. now destruct n. Qed.

Lemma update_opt_const (p : path) (d n : node) :
  update_opt p (fun _ => Some d) (Some n)
  = Some (update_path p (fun _ => Some d) n).
Proof. destruct p; [reflexivity | apply update_opt_cons]. Qed.

Lemma mkdirp_existing (p : path) (o : option node) :
  is_dir (lookup_opt p o) = true -> mkdirp p o = o.
Proof.
  revert o; induction p as [|c p IH]; intros o H; simpl in *.
  - now destruct o as [[|es]|].
  - destruct o as [[|es]|]; try discriminate.
    rewrite (IH _ H).
    destruct (lookup_entry c es) as [v|] eqn:E.
    + now rewrite upsert_present.
    + now rewrite lookup_opt_None in H.
Qed.

Lemma mkdirp_fresh (p : path) (o : option node) (r : node) :
  lookup_opt p o = None -> mkdirp p o = Some r ->
  lookup_opt p (Some r) = Some (Dir []).
Proof.
  revert o r; induction p as [|c p IH]; intros o r H Hm; simpl in *.
  - subst o. now injection Hm as <-.
  - destruct o as [[|es]|]; try discriminate.
    + destruct (mkdirp p (lookup_entry c es)) as [v|] eqn:E;
        [|discriminate].
      injection Hm as <-. rewrite lookup_upsert_same. eauto.
    + destruct (mkdirp p None) as [v|] eqn:E; [|discriminate].
      injection Hm as <-. simpl. rewrite String.eqb_refl.
      apply (IH None); auto using lookup_opt_None.
Qed.

Lemma mkdirp_is_dir (p : path) (o : option node) (r : node) :
  mkdirp p o = Some r -> is_dir (lookup_opt p (Some r)) = true.
Proof.
  revert o r; induction p as [|c p IH]; intros o r Hm; simpl in *.
  - destruct o as [[|es]|]; try discriminate; now injection Hm as <-.
  - destruct o as [[|es]|]; try discriminate.
    + destruct (mkdirp p (lookup_entry c es)) as [v|] eqn:E;
        [|discriminate].
      injection Hm as <-. rewrite lookup_upsert_same. eauto.
    + destruct (mkdirp p None) as [v|] eqn:E; [|discriminate].
      injection Hm as <-. simpl. rewrite String.eqb_refl. eauto.
Qed.

(** [mkdir -p p] is seen only from [p] and its ancestors. *)
Lemma mkdirp_frame (p q : path) (o : option node) (r : node) :
  mkdirp p o = Some r -> is_prefix q p = false ->
  lookup_opt q (Some r) = lookup_opt q o.
Proof.
  revert q o r; induction p as [|c p IH]; intros [|d q] o r Hm Hq;
    simpl in *; try discriminate.
  - destruct o as [[|es]|]; try discriminate; injection Hm as <-;
      simpl; auto using lookup_opt_None.
  - destruct o as [[|es]|]; try discriminate.
    + destruct (mkdirp p (lookup_entry c es)) as [v|] eqn:E;
        [|discriminate].
      injection Hm as <-.
      destruct (d =? c) eqn:Edc; simpl in Hq.
      * apply String.eqb_eq in Edc; subst d.
        rewrite lookup_upsert_same. eauto.
      * now rewrite lookup_upsert_other.
    + destruct (mkdirp p None) as [v|] eqn:E; [|discriminate].
      injection Hm as <-. simpl.
      destruct (d =? c) eqn:Edc; simpl in Hq.
      * rewrite (IH q None v E Hq). apply lookup_opt_None.
      * apply lookup_opt_None.
Qed.

(** [mkdir -p] below an existing [p] is [mkdir -p] in what [p] holds. *)
Lemma mkdirp_under (p q : path) (o : option node) (n r : node) :
  lookup_opt p o = Some n -> mkdirp (p ++ q) o = Some r ->
  exists n', mkdirp q (Some n) = Some n'
             /\ lookup_opt p (Some r) = Some n'.
Proof.
  revert o r; induction p as [|c p IH]; intros o r H Hm; simpl in *.
  - subst o. eauto.
  - destruct o as [[|es]|]; try discriminate.
    destruct (mkdirp (p ++ q) (lookup_entry c es)) as [v|] eqn:E;
      [|discriminate].
    injection Hm as <-. rewrite lookup_upsert_same. eauto.
Qed.

(** Induction on trees, with the hypothesis for every entry of a
    directory. *)
Lemma node_ind' (P : node -> Prop)
  (HF : forall c, P (File c))
  (HD : forall es, Forall (fun e => P (snd e)) es -> P (Dir es)) :
  forall n, P n.
Proof.
  fix IH 1. intros [c|es].
  - apply HF.
  - apply HD. induction es as [|[k v] es IHes]; constructor; auto.
Qed.

Lemma cp_node_Dir (es : entries_t) (d : option node) :
  cp_node (Dir es) d
  = match d with
    | Some (File _) => None
    | Some (Dir ds) => option_map Dir (cp_entries es ds)
    | None => option_map Dir (cp_entries es [])
    end.
Proof. destruct d as [[|ds]|]; reflexivity. Qed.

Lemma wf_node_Dir (es : entries_t) :
  wf_node (Dir es)
  = nodupb (map fst es) && forallb plain_name (map fst es) && wf_all es.
Proof. reflexivity. Qed.

Lemma existsb_eqb_In (k : string) (l : list string) :
  existsb (String.eqb k) l = true <-> In k l.
Proof.
  rewrite existsb_exists. split.
  - intros [x [Hin Hx]]. apply String.eqb_eq in Hx. now subst.
  - intros H. exists k. split; auto. apply String.eqb_refl.
Qed.

Lemma nodupb_NoDup (l : list string) : nodupb l = true <-> NoDup l.
Proof.
  induction l as [|x l IH]; simpl.
  - split; [constructor | reflexivity].
  - rewrite andb_true_iff, negb_true_iff, IH. split.
    + intros [Hx Hl]. constructor; auto.
      intros Hin. apply existsb_eqb_In in Hin. congruence.
    + intros H. inversion H; subst. split; auto.
      destruct (existsb (String.eqb x) l) eqn:E; auto.
      apply existsb_eqb_In in E. contradiction.
Qed.

Lemma cp_entries_fresh (es ds : entries_t) :
  Forall (fun e => cp_node (snd e) None = Some (snd e)) es ->
  NoDup (map fst es) ->
  (forall k, In k (map fst es) -> lookup_entry k ds = None) ->
  cp_entries es ds = Some (ds ++ es).
Proof.
  revert ds; induction es as [|[k v] es IH]; intros ds Hall Hnd Hfresh;
    simpl.
  - now rewrite app_nil_r.
  - inversion Hall as [|? ? Hv Hall']; subst. simpl in Hv.
    inversion Hnd as [|? ? Hk Hnd']; subst.
    rewrite (Hfresh k) by (simpl; auto). rewrite Hv.
    rewrite upsert_absent by (apply Hfresh; simpl; auto).
    rewrite IH; auto.
    + now rewrite <- app_assoc.
    + intros k' Hin.
      assert (Hne : (k' =? k) = false).
      { apply String.eqb_neq. intros ->. contradiction. }
      rewrite <- (upsert_absent k v ds) by (apply Hfresh; simpl; auto).
      rewrite lookup_upsert_other by assumption.
      apply Hfresh. simpl. auto.
Qed.

Lemma wf_all_Forall (es : entries_t) :
  wf_all es = true <-> Forall (fun e => wf_node (snd e) = true) es.
Proof.
  induction es as [|[k v] es IH]; simpl.
  - split; auto.
  - rewrite andb_true_iff, IH. split.
    + intros [? ?]. constructor; auto.
    + intros H. inversion H; subst. auto.
Qed.

(** Copying a well-formed tree to a place that holds nothing yields the
    tree itself. *)
Lemma cp_node_fresh (s : node) :
  wf_node s = true -> cp_node s None = Some s.
Proof.
  induction s as [c|es IH] using node_ind'; intros Hwf.
  - reflexivity.
  - rewrite cp_node_Dir. rewrite wf_node_Dir in Hwf.
    apply andb_true_iff in Hwf as [Hwf Hall].
    apply andb_true_iff in Hwf as [Hnd _].
    rewrite cp_entries_fresh; auto.
    + apply wf_all_Forall in Hall.
      rewrite Forall_forall in *. intros e He. auto.
    + now apply nodupb_NoDup.
Qed.

Lemma wf_lookup_entry (k : string) (es : entries_t) (v : node) :
  wf_all es = true -> lookup_entry k es = Some v -> wf_node v = true.
Proof.
  induction es as [|[k' v'] es IH]; simpl; [discriminate|].
  intros H. apply andb_true_iff in H as [Hv Hes].
  destruct (k =? k'); auto. now intros [= <-].
Qed.

Lemma In_lookup_entry (k : string) (v : node) (es : entries_t) :
  NoDup (map fst es) -> In (k, v) es -> lookup_entry k es = Some v.
Proof.
  induction es as [|[k' v'] es IH]; simpl; [tauto|].
  intros Hnd [Heq|Hin].
  - injection Heq as -> ->. now rewrite String.eqb_refl.
  - inversion Hnd as [|? ? Hk Hnd']; subst.
    destruct (k =? k') eqn:E; auto.
    apply String.eqb_eq in E; subst k'.
    exfalso. apply Hk. now apply (in_map fst) in Hin.
Qed.

Lemma cp_entries_self (es ds : entries_t) :
  Forall (fun e => lookup_entry (fst e) ds = Some (snd e)
                   /\ cp_node (snd e) (Some (snd e)) = Some (snd e)) es ->
  cp_entries es ds = Some ds.
Proof.
  induction es as [|[k v] es IH]; intros Hall; simpl; auto.
  inversion Hall as [|? ? [Hk Hv] Hall']; subst. simpl in *.
  rewrite Hk, Hv, upsert_present; auto.
Qed.

(** Copying a well-formed tree over itself changes nothing. *)
Lemma cp_node_self (s : node) :
  wf_node s = true -> cp_node s (Some s) = Some s.
Proof.
  induction s as [c|es IH] using node_ind'; intros Hwf.
  - reflexivity.
  - rewrite cp_node_Dir. rewrite wf_node_Dir in Hwf.
    apply andb_true_iff in Hwf as [Hwf Hall].
    apply andb_true_iff in Hwf as [Hnd _].
    apply nodupb_NoDup in Hnd. apply wf_all_Forall in Hall.
    rewrite cp_entries_self; auto.
    rewrite Forall_forall in *. intros [k v] He. simpl. split.
    + now apply In_lookup_entry.
    + apply (IH _ He). apply (Hall _ He).
Qed.

Lemma blocked_mkdirp (p : path) (o : option node) :
  blocked_by_file p o = true -> mkdirp p o = None.
Proof.
  revert o; induction p as [|c p IH]; intros o H; simpl in *;
    [discriminate|].
  destruct o as [[|es]|]; try discriminate; auto.
  now rewrite IH.
Qed.

(* ================================================================== *)
(** * Runs of the monad *)
(* ================================================================== *)

Lemma bind_returned {A B} (c : M A) (k : A -> M B) (w w' : World) (b : B) :
  bind c k w = (Returned b, w') ->
  exists a w1, c w = (Returned a, w1) /\ k a w1 = (Returned b, w').
Proof.
  unfold bind. destruct (c w) as [[a|e] w1]; [eauto | discriminate].
Qed.

Lemma bind_run {A B} (c : M A) (k : A -> M B) (w w1 : World) (a : A) :
  c w = (Returned a, w1) -> bind c k w = k a w1.
Proof. intros H. unfold bind. now rewrite H. Qed.

Lemma log_bind {B} (l : level) (m : string) (k : unit -> M B) (w : World) :
  bind (log l m) k w = k tt (add_log l m w).
Proof. reflexivity. Qed.

Lemma bind_assoc {A B C} (c : M A) (k : A -> M B) (k' : B -> M C)
  (w : World) :
  bind (bind c k) k' w = bind c (fun a => bind (k a) k') w.
Proof. unfold bind. now destruct (c w) as [[a|e] w1]. Qed.

Lemma for_each_cons {A} (x : A) (l : list A) (body : A -> M unit)
  (w w' : World) :
  for_each (x :: l) body w = (Returned tt, w') ->
  exists w1, body x w = (Returned tt, w1)
             /\ for_each l body w1 = (Returned tt, w').
Proof.
  simpl. intros H. apply bind_returned in H as ([] & w1 & H1 & H2). eauto.
Qed.

Lemma for_each_step {A} (x : A) (l : list A) (body : A -> M unit)
  (w w1 : World) (r : Outcome unit * World) :
  body x w = (Returned tt, w1) -> for_each l body w1 = r ->
  for_each (x :: l) body w = r.
Proof. intros H1 H2. simpl. unfold bind. now rewrite H1. Qed.

Lemma fs_mkdir_returned (refuses : Refusals) (p : path) (w w' : World) :
  fs_mkdir refuses p w = (Returned tt, w') ->
  exists r, mkdirp p (Some (w_fs w)) = Some r /\ w' = set_fs r w.
Proof.
  unfold fs_mkdir. destruct (refuses (OpMkdir p)); [discriminate|].
  destruct (mkdirp p (Some (w_fs w))) as [r|]; [|discriminate].
  intros [= <-]. eauto.
Qed.

Lemma fs_cp_returned (refuses : Refusals) (src dest : path)
  (w w' : World) :
  fs_cp refuses src dest w = (Returned tt, w') ->
  exists s r d',
    lookup_path src (w_fs w) = Some s
    /\ mkdirp (path_dirname dest) (Some (w_fs w)) = Some r
    /\ cp_node s (lookup_path dest r) = Some d'
    /\ w' = set_fs (update_path dest (fun _ => Some d') r) w.
Proof.
  unfold fs_cp. destruct (refuses (OpCp src dest)); [discriminate|].
  destruct (lookup_path src (w_fs w)) as [s|]; [|discriminate].
  destruct (is_prefix src dest); [discriminate|].
  destruct (mkdirp (path_dirname dest) (Some (w_fs w))) as [r|];
    [|discriminate].
  destruct (cp_node s (lookup_path dest r)) as [d'|] eqn:Ecp;
    [|discriminate].
  intros [= <-]. exists s, r, d'. repeat split; auto.
Qed.

Lemma lookup_path_app (p q : path) (root : node) :
  lookup_path (p ++ q) root = lookup_opt q (lookup_path p root).
Proof. apply lookup_opt_app. Qed.

Lemma lookup_update_path_const (p q : path) (d root : node) :
  lookup_path q (update_path p (fun _ => Some d) root)
  = lookup_opt q (update_opt p (fun _ => Some d) (Some root)).
Proof. unfold lookup_path. now rewrite update_opt_const. Qed.

(* ================================================================== *)
(** * The copy phase on a destination that was cleared *)
(* ================================================================== *)

Lemma disjoint_app_l (p q x : path) :
  disjoint p q = true -> disjoint (p ++ x) q = true.
Proof.
  intros H. rewrite <- (app_nil_r q). now apply disjoint_app.
Qed.

Lemma disjoint_not_prefix (p q x : path) :
  disjoint p q = true -> is_prefix (q ++ x) (p ++ x) = false.
Proof.
  unfold disjoint. revert q; induction p as [|c p IH]; intros [|d q];
    simpl; try discriminate.
  destruct (c =? d) eqn:E; simpl.
  - apply String.eqb_eq in E; subst d. rewrite String.eqb_refl. simpl.
    apply IH.
  - rewrite String.eqb_sym, E. auto.
Qed.

Lemma consistent_step (es acc : entries_t) (t : string) :
  consistent es acc -> consistent es (team_step es acc t).
Proof.
  intros Hc. unfold team_step.
  destruct (lookup_entry t es) as [[|sub]|] eqn:Et; auto.
  intros k v. destruct (k =? t) eqn:E.
  - apply String.eqb_eq in E; subst k. rewrite lookup_upsert_same.
    intros [= <-]. auto.
  - rewrite lookup_upsert_other by assumption. apply Hc.
Qed.

(** ** The team loop computes the selection of the specification *)

Lemma remove_keys_nil (K : list string) : remove_keys K [] = [].
Proof. induction K as [|k K IH]; simpl; [|rewrite IH]; reflexivity. Qed.

Lemma remove_entry_comm (a b : string) (l : entries_t) :
  remove_entry a (remove_entry b l) = remove_entry b (remove_entry a l).
Proof.
  induction l as [|[k v] l IH]; simpl; auto.
  destruct (b =? k) eqn:Eb; destruct (a =? k) eqn:Ea; simpl;
    rewrite ?Eb, ?Ea; congruence.
Qed.

Lemma remove_entry_idem (a : string) (l : entries_t) :
  remove_entry a (remove_entry a l) = remove_entry a l.
Proof.
  induction l as [|[k v] l IH]; simpl; auto.
  destruct (a =? k) eqn:Ea; simpl; rewrite ?Ea; congruence.
Qed.

Lemma remove_keys_comm (K : list string) (k : string) (l : entries_t) :
  remove_keys K (remove_entry k l) = remove_entry k (remove_keys K l).
Proof.
  induction K as [|k' K IH]; simpl; auto.
  now rewrite IH, remove_entry_comm.
Qed.

Lemma remove_keys_app (K : list string) (t : string) (l : entries_t) :
  remove_keys (K ++ [t]) l = remove_keys K (remove_entry t l).
Proof. induction K as [|k K IH]; simpl; congruence. Qed.

Lemma remove_keys_in (K : list string) (t : string) (l : entries_t) :
  existsb (String.eqb t) K = true ->
  remove_keys K (remove_entry t l) = remove_keys K l.
Proof.
  induction K as [|k K IH]; simpl; [discriminate|].
  destruct (t =? k) eqn:E; simpl.
  - apply String.eqb_eq in E; subst k. intros _.
    now rewrite remove_keys_comm, remove_entry_idem.
  - intros H. now rewrite IH.
Qed.

Lemma remove_keys_cons (K : list string) (t : string) (d : node)
  (l : entries_t) :
  remove_keys K ((t, d) :: l)
  = if existsb (String.eqb t) K then remove_keys K l
    else (t, d) :: remove_keys K l.
Proof.
  induction K as [|k K IH]; simpl; auto.
  rewrite IH. destruct (existsb (String.eqb t) K).
  - now rewrite orb_true_r.
  - rewrite orb_false_r. simpl. now rewrite String.eqb_sym.
Qed.

Lemma existsb_keys (t : string) (acc : entries_t) :
  existsb (String.eqb t) (map fst acc)
  = match lookup_entry t acc with Some _ => true | None => false end.
Proof.
  induction acc as [|[k v] acc IH]; simpl; auto.
  destruct (t =? k); simpl; auto.
Qed.

Lemma fold_team_step_acc (es : entries_t) (ts : list string) :
  forall acc, consistent es acc ->
  fold_left (team_step es) ts acc
  = acc ++ remove_keys (map fst acc) (fold_left (team_step es) ts []).
Proof.
  induction ts as [|t ts IH]; intros acc Hc; simpl.
  - now rewrite remove_keys_nil, app_nil_r.
  - unfold team_step at 2 4.
    destruct (lookup_entry t es) as [[c|sub]|] eqn:Et; auto.
    rewrite (IH (upsert t (Dir sub) acc)).
    2:{ pose proof (consistent_step es acc t Hc) as H.
        unfold team_step in H. now rewrite Et in H. }
    rewrite (IH (upsert t (Dir sub) [])).
    2:{ intros k v. simpl. destruct (k =? t) eqn:E; [|discriminate].
        apply String.eqb_eq in E; subst k. intros [= <-]. auto. }
    simpl. rewrite remove_keys_cons, existsb_keys.
    destruct (lookup_entry t acc) as [v|] eqn:Eacc.
    + destruct (Hc _ _ Eacc) as [Hv _].
      assert (v = Dir sub) by congruence. subst v.
      rewrite upsert_present by assumption.
      rewrite remove_keys_in; auto.
      rewrite existsb_keys. now rewrite Eacc.
    + rewrite upsert_absent by assumption.
      rewrite map_app. simpl. rewrite remove_keys_app.
      now rewrite <- app_assoc.
Qed.

Lemma fold_team_step_select (es : entries_t) (ts : list string) :
  fold_left (team_step es) ts [] = select_teams ts es.
Proof.
  induction ts as [|t ts IH]; simpl; auto.
  unfold team_step at 2.
  destruct (lookup_entry t es) as [[c|sub]|] eqn:Et; auto.
  rewrite fold_team_step_acc.
  - simpl. now rewrite IH.
  - intros k v. simpl. destruct (k =? t) eqn:E; [|discriminate].
    apply String.eqb_eq in E; subst k. intros [= <-]. auto.
Qed.

Lemma lookup_entry_app (k : string) (a b : entries_t) :
  lookup_entry k (a ++ b)
  = match lookup_entry k a with
    | Some v => Some v
    | None => lookup_entry k b
    end.
Proof.
  induction a as [|[k' v'] a IH]; simpl; auto.
  destruct (k =? k'); auto.
Qed.

Lemma lookup_mirror_entry_other (ts : list string) (k k' : string)
  (v : node) :
  (k' =? k) = false -> lookup_entry k' (mirror_entry ts (k, v)) = None.
Proof.
  intros H. unfold mirror_entry. simpl.
  destruct v as [c|es]; auto.
  destruct (hidden k); auto.
  destruct (team_like k); simpl; now rewrite H.
Qed.

Section CopyPhase.
Variable refuses : Refusals.
Variables repo dest : path.
Variable src : entries_t.
Hypothesis Hdisj : disjoint dest repo = true.
Hypothesis Hwf : wf_node (Dir src) = true.

Lemma copyTeam_cleared (T t : string) (es M acc : entries_t)
  (w w' : World) :
  plain_name T = true -> plain_name t = true ->
  lookup_path repo (w_fs w) = Some (Dir src) ->
  lookup_entry T src = Some (Dir es) ->
  lookup_path dest (w_fs w) = Some (Dir (M ++ [(T, Dir acc)])) ->
  lookup_entry T M = None ->
  consistent es acc ->
  copyTeam refuses T (repo ++ [T]) (dest ++ [T]) t w = (Returned tt, w') ->
  lookup_path dest (w_fs w')
  = Some (Dir (M ++ [(T, Dir (team_step es acc t))]))
  /\ lookup_path repo (w_fs w') = Some (Dir src).
Proof.
  intros HT Ht Hrepo HTsrc Hdest HTM Hcons H.
  unfold copyTeam in H. rewrite !path_join_plain in H by assumption.
  apply bind_returned in H as (found & w1 & Hd & H).
  unfold directoryExists, stat_isDirectory in Hd.
  injection Hd as <- <-.
  assert (Hlk : lookup_path ((repo ++ [T]) ++ [t]) (w_fs w)
                = lookup_entry t es).
  { rewrite !lookup_path_app, Hrepo. simpl. now rewrite HTsrc. }
  rewrite Hlk in H. unfold team_step.
  assert (Hsubwf : forall v, lookup_entry t es = Some v -> wf_node v = true).
  { intros v Hv. pose proof Hwf as Hsrc. rewrite wf_node_Dir in Hsrc.
    apply andb_true_iff in Hsrc as [_ Hall].
    assert (Hes : wf_node (Dir es) = true)
      by apply (wf_lookup_entry T src _ Hall HTsrc).
    rewrite wf_node_Dir in Hes. apply andb_true_iff in Hes as [_ Hes].
    apply (wf_lookup_entry t es _ Hes Hv). }
  destruct (lookup_entry t es) as [[c|sub]|] eqn:Et; simpl in H;
    try (injection H as <-; simpl; auto).
  apply bind_returned in H as ([] & w2 & Hcp & H).
  injection H as <-. simpl.
  apply fs_cp_returned in Hcp as (s & r & d' & Hs & Hr & Hcp & ->).
  simpl. rewrite Hlk in Hs. injection Hs as <-.
  assert (HdT : lookup_path (dest ++ [T]) (w_fs w) = Some (Dir acc)).
  { rewrite lookup_path_app, Hdest. simpl. now rewrite lookup_app_last. }
  unfold path_dirname in Hr. rewrite removelast_last in Hr.
  rewrite mkdirp_existing in Hr
    by (fold (lookup_path (dest ++ [T]) (w_fs w)); now rewrite HdT).
  injection Hr as <-.
  assert (Hd' : d' = Dir sub).
  { rewrite lookup_path_app, HdT in Hcp. cbn [lookup_opt] in Hcp.
    destruct (lookup_entry t acc) as [v|] eqn:Eacc.
    - destruct (Hcons _ _ Eacc) as [Hv _].
      assert (v = Dir sub) by congruence. subst v.
      rewrite cp_node_self in Hcp by auto. congruence.
    - rewrite cp_node_fresh in Hcp by auto. congruence. }
  subst d'. rewrite !lookup_update_path_const. split.
  - rewrite <- app_assoc.
    rewrite (lookup_update_under dest _ _ _ _ Hdest). simpl.
    rewrite lookup_app_last by assumption. cbn [set_entry].
    now rewrite upsert_last.
  - rewrite lookup_update_disjoint; auto.
    rewrite <- app_assoc. now apply disjoint_app_l.
Qed.

Lemma copyTeams_cleared (T : string) (es M : entries_t) (ts : list string) :
  plain_name T = true -> forallb plain_name ts = true ->
  lookup_entry T src = Some (Dir es) ->
  lookup_entry T M = None ->
  forall (acc : entries_t) (w w' : World),
  lookup_path repo (w_fs w) = Some (Dir src) ->
  lookup_path dest (w_fs w) = Some (Dir (M ++ [(T, Dir acc)])) ->
  consistent es acc ->
  for_each ts (copyTeam refuses T (repo ++ [T]) (dest ++ [T])) w
  = (Returned tt, w') ->
  lookup_path dest (w_fs w')
  = Some (Dir (M ++ [(T, Dir (fold_left (team_step es) ts acc))]))
  /\ lookup_path repo (w_fs w') = Some (Dir src).
Proof.
  intros HT Hts HTsrc HTM.
  induction ts as [|t ts IH]; intros acc w w' Hrepo Hdest Hcons H.
  - injection H as <-. auto.
  - simpl in Hts. apply andb_true_iff in Hts as [Ht Hts].
    apply for_each_cons in H as (w1 & H1 & H2).
    destruct (copyTeam_cleared T t es M acc w w1
                HT Ht Hrepo HTsrc Hdest HTM Hcons H1) as [Hd1 Hr1].
    simpl. apply (IH Hts _ w1 w'); auto using consistent_step.
Qed.
Lemma repo_not_under_dest (x : path) : is_prefix repo (dest ++ x) = false.
Proof.
  pose proof (disjoint_app_l dest repo x Hdisj) as H.
  unfold disjoint in H. apply andb_true_iff in H as [_ H].
  now apply negb_true_iff in H.
Qed.

Lemma src_not_over_dest (k : string) :
  is_prefix (repo ++ [k]) (dest ++ [k]) = false.
Proof. apply disjoint_not_prefix, Hdisj. Qed.

Lemma copyEntry_cleared (cfg : RulesConfig) (k : string) (v : node)
  (M : entries_t) (w w' : World) :
  rulesFolderPath cfg = dest ->
  forallb plain_name (teamNames cfg) = true ->
  lookup_path repo (w_fs w) = Some (Dir src) ->
  lookup_entry k src = Some v -> plain_name k = true ->
  lookup_path dest (w_fs w) = Some (Dir M) -> lookup_entry k M = None ->
  copyEntry refuses repo cfg (k, is_dir_node v) w = (Returned tt, w') ->
  lookup_path dest (w_fs w')
  = Some (Dir (M ++ mirror_entry (teamNames cfg) (k, v)))
  /\ lookup_path repo (w_fs w') = Some (Dir src).
Proof.
  intros Hcfg Hts Hrepo Hk Hplain Hdest HkM H.
  unfold copyEntry in H. unfold mirror_entry, hidden, team_like. simpl.
  destruct v as [c|es]; simpl in H.
  { rewrite orb_true_r in H. injection H as <-.
    now rewrite app_nil_r. }
  rewrite orb_false_r in H.
  destruct (prefix "." k) eqn:Ehid.
  { injection H as <-. now rewrite app_nil_r. }
  rewrite Hcfg in H. rewrite !path_join_plain in H by assumption.
  destruct (prefix "team" k) eqn:Eteam.
  - apply bind_returned in H as ([] & w1 & Hmk & H).
    apply fs_mkdir_returned in Hmk as (r & Hr & ->).
    destruct (mkdirp_under dest [k] _ _ _ Hdest Hr) as (n' & Hn' & Hd1).
    simpl in Hn'. rewrite HkM in Hn'. injection Hn' as <-.
    rewrite upsert_absent in Hd1 by assumption.
    assert (Hr1 : lookup_path repo r = Some (Dir src)).
    { unfold lookup_path.
      rewrite (mkdirp_frame _ repo _ _ Hr (repo_not_under_dest [k])).
      apply Hrepo. }
    destruct (copyTeams_cleared k es M (teamNames cfg) Hplain Hts Hk HkM
                [] (set_fs r w) w' Hr1 Hd1) as [Hd2 Hr2]; auto.
    { intros ? ?. discriminate. }
    now rewrite fold_team_step_select in Hd2.
  - apply bind_returned in H as ([] & w1 & Hcp & H).
    injection H as <-. simpl.
    apply fs_cp_returned in Hcp as (s & r & d' & Hs & Hr & Hcp & ->).
    simpl.
    rewrite lookup_path_app, Hrepo in Hs. simpl in Hs.
    rewrite Hk in Hs. injection Hs as <-.
    unfold path_dirname in Hr. rewrite removelast_last in Hr.
    rewrite mkdirp_existing in Hr
      by (fold (lookup_path dest (w_fs w)); now rewrite Hdest).
    injection Hr as <-.
    rewrite lookup_path_app, Hdest in Hcp. cbn [lookup_opt] in Hcp.
    rewrite HkM in Hcp.
    rewrite cp_node_fresh in Hcp.
    2:{ pose proof Hwf as Hsrc. rewrite wf_node_Dir in Hsrc.
        apply andb_true_iff in Hsrc as [_ Hall].
        apply (wf_lookup_entry k src _ Hall Hk). }
    injection Hcp as <-.
    rewrite !lookup_update_path_const. split.
    + rewrite (lookup_update_under dest _ _ _ _ Hdest). simpl.
      now rewrite upsert_absent.
    + rewrite lookup_update_disjoint; auto. now apply disjoint_app_l.
Qed.

Lemma copyEntries_cleared (cfg : RulesConfig) (l : entries_t) :
  rulesFolderPath cfg = dest ->
  forallb plain_name (teamNames cfg) = true ->
  NoDup (map fst l) ->
  (forall e, In e l -> lookup_entry (fst e) src = Some (snd e)
                       /\ plain_name (fst e) = true) ->
  forall (M : entries_t) (w w' : World),
  lookup_path repo (w_fs w) = Some (Dir src) ->
  lookup_path dest (w_fs w) = Some (Dir M) ->
  (forall e, In e l -> lookup_entry (fst e) M = None) ->
  for_each (map dirent l) (copyEntry refuses repo cfg) w
  = (Returned tt, w') ->
  lookup_path dest (w_fs w')
  = Some (Dir (M ++ flat_map (mirror_entry (teamNames cfg)) l))
  /\ lookup_path repo (w_fs w') = Some (Dir src).
Proof.
  intros Hcfg Hts. induction l as [|[k v] l IH];
    intros Hnd Hl M w w' Hrepo Hdest HM H.
  - injection H as <-. simpl. now rewrite app_nil_r.
  - simpl map in H. apply for_each_cons in H as (w1 & H1 & H2).
    simpl in Hnd. apply NoDup_cons_iff in Hnd as [Hk Hnd'].
    destruct (Hl (k, v)) as [Hkv Hplain]; [now left|].
    simpl in Hkv, Hplain, H1.
    destruct (copyEntry_cleared cfg k v M w w1 Hcfg Hts Hrepo Hkv Hplain
                Hdest (HM (k, v) (or_introl eq_refl)) H1) as [Hd1 Hr1].
    destruct (IH Hnd' (fun e He => Hl e (or_intror He))
                _ w1 w' Hr1 Hd1) as [Hd2 Hr2]; auto.
    + intros [k' v'] Hin. simpl. rewrite lookup_entry_app.
      pose proof (HM (k', v') (or_intror Hin)) as HM'. simpl in HM'.
      rewrite HM'.
      apply lookup_mirror_entry_other. apply String.eqb_neq.
      intros ->. apply Hk. now apply (in_map fst) in Hin.
    + now rewrite <- app_assoc in Hd2.
Qed.
End CopyPhase.

(* ================================================================== *)
(** * What the mirror logs, and what it leaves alone *)
(* ================================================================== *)

Section CopyLog.
Variable refuses : Refusals.
Variables repo dest : path.
Variable src : entries_t.
Hypothesis Hdisj : disjoint dest repo = true.
Hypothesis Hwf : wf_node (Dir src) = true.

Lemma fs_cp_log (s d : path) (w w' : World) :
  fs_cp refuses s d w = (Returned tt, w') -> w_log w' = w_log w.
Proof.
  intros H. apply fs_cp_returned in H as (? & ? & ? & _ & _ & _ & ->).
  reflexivity.
Qed.

Lemma fs_mkdir_log (p : path) (w w' : World) :
  fs_mkdir refuses p w = (Returned tt, w') -> w_log w' = w_log w.
Proof.
  intros H. apply fs_mkdir_returned in H as (? & _ & ->). reflexivity.
Qed.

Lemma copyTeam_log (T t : string) (es : entries_t) (w w' : World) :
  plain_name T = true -> plain_name t = true ->
  lookup_path repo (w_fs w) = Some (Dir src) ->
  lookup_entry T src = Some (Dir es) ->
  copyTeam refuses T (repo ++ [T]) (dest ++ [T]) t w = (Returned tt, w') ->
  w_log w' = w_log w ++ [team_log T es t].
Proof.
  intros HT Ht Hrepo HTsrc H.
  unfold copyTeam in H. rewrite !path_join_plain in H by assumption.
  apply bind_returned in H as (found & w1 & Hd & H).
  unfold directoryExists, stat_isDirectory in Hd.
  injection Hd as <- <-.
  assert (Hlk : lookup_path ((repo ++ [T]) ++ [t]) (w_fs w)
                = lookup_entry t es).
  { rewrite !lookup_path_app, Hrepo. simpl. now rewrite HTsrc. }
  rewrite Hlk in H. unfold team_log.
  destruct (is_dir (lookup_entry t es)).
  - apply bind_returned in H as ([] & w2 & Hcp & H).
    injection H as <-. simpl. now rewrite (fs_cp_log _ _ _ _ Hcp).
  - injection H as <-. reflexivity.
Qed.

Lemma copyTeams_log (T : string) (es M : entries_t) (ts : list string) :
  plain_name T = true -> forallb plain_name ts = true ->
  lookup_entry T src = Some (Dir es) ->
  lookup_entry T M = None ->
  forall (acc : entries_t) (w w' : World),
  lookup_path repo (w_fs w) = Some (Dir src) ->
  lookup_path dest (w_fs w) = Some (Dir (M ++ [(T, Dir acc)])) ->
  consistent es acc ->
  for_each ts (copyTeam refuses T (repo ++ [T]) (dest ++ [T])) w
  = (Returned tt, w') ->
  w_log w' = w_log w ++ map (team_log T es) ts.
Proof.
  intros HT Hts HTsrc HTM.
  induction ts as [|t ts IH]; intros acc w w' Hrepo Hdest Hcons H.
  - injection H as <-. simpl. now rewrite app_nil_r.
  - simpl in Hts. apply andb_true_iff in Hts as [Ht Hts].
    apply for_each_cons in H as (w1 & H1 & H2).
    destruct (copyTeam_cleared refuses repo dest src Hdisj Hwf T t es M
                acc w w1 HT Ht Hrepo HTsrc Hdest HTM Hcons H1)
      as [Hd1 Hr1].
    rewrite (IH Hts _ w1 w' Hr1 Hd1 (consistent_step es acc t Hcons) H2).
    rewrite (copyTeam_log T t es w w1 HT Ht Hrepo HTsrc H1).
    simpl. now rewrite <- app_assoc.
Qed.

Lemma copyEntry_log (cfg : RulesConfig) (k : string) (v : node)
  (M : entries_t) (w w' : World) :
  rulesFolderPath cfg = dest ->
  forallb plain_name (teamNames cfg) = true ->
  lookup_path repo (w_fs w) = Some (Dir src) ->
  lookup_entry k src = Some v -> plain_name k = true ->
  lookup_path dest (w_fs w) = Some (Dir M) -> lookup_entry k M = None ->
  copyEntry refuses repo cfg (k, is_dir_node v) w = (Returned tt, w') ->
  w_log w' = w_log w ++ entry_log (teamNames cfg) (k, v).
Proof.
  intros Hcfg Hts Hrepo Hk Hplain Hdest HkM H.
  unfold copyEntry in H. unfold entry_log. simpl.
  destruct v as [c|es]; simpl in H.
  { rewrite orb_true_r in H. injection H as <-.
    now rewrite app_nil_r. }
  rewrite orb_false_r in H.
  destruct (prefix "." k) eqn:Ehid.
  { injection H as <-. now rewrite app_nil_r. }
  rewrite Hcfg in H. rewrite !path_join_plain in H by assumption.
  destruct (prefix "team" k) eqn:Eteam.
  - apply bind_returned in H as ([] & w1 & Hmk & H).
    rewrite <- (fs_mkdir_log _ _ _ Hmk).
    apply fs_mkdir_returned in Hmk as (r & Hr & ->).
    destruct (mkdirp_under dest [k] _ _ _ Hdest Hr) as (n' & Hn' & Hd1).
    simpl in Hn'. rewrite HkM in Hn'. injection Hn' as <-.
    rewrite upsert_absent in Hd1 by assumption.
    assert (Hr1 : lookup_path repo r = Some (Dir src)).
    { unfold lookup_path.
      rewrite (mkdirp_frame _ repo _ _ Hr
                 (repo_not_under_dest repo dest Hdisj [k])).
      apply Hrepo. }
    apply (copyTeams_log k es M (teamNames cfg) Hplain Hts Hk HkM
             [] (set_fs r w) w' Hr1 Hd1); auto.
    intros ? ?. discriminate.
  - apply bind_returned in H as ([] & w1 & Hcp & H).
    injection H as <-. simpl. now rewrite (fs_cp_log _ _ _ _ Hcp).
Qed.

Lemma copyEntries_log (cfg : RulesConfig) (l : entries_t) :
  rulesFolderPath cfg = dest ->
  forallb plain_name (teamNames cfg) = true ->
  NoDup (map fst l) ->
  (forall e, In e l -> lookup_entry (fst e) src = Some (snd e)
                       /\ plain_name (fst e) = true) ->
  forall (M : entries_t) (w w' : World),
  lookup_path repo (w_fs w) = Some (Dir src) ->
  lookup_path dest (w_fs w) = Some (Dir M) ->
  (forall e, In e l -> lookup_entry (fst e) M = None) ->
  for_each (map dirent l) (copyEntry refuses repo cfg) w
  = (Returned tt, w') ->
  w_log w' = w_log w ++ flat_map (entry_log (teamNames cfg)) l.
Proof.
  intros Hcfg Hts. induction l as [|[k v] l IH];
    intros Hnd Hl M w w' Hrepo Hdest HM H.
  - injection H as <-. simpl. now rewrite app_nil_r.
  - simpl map in H. apply for_each_cons in H as (w1 & H1 & H2).
    simpl in Hnd. apply NoDup_cons_iff in Hnd as [Hk Hnd'].
    destruct (Hl (k, v)) as [Hkv Hplain]; [now left|].
    simpl in Hkv, Hplain, H1.
    pose proof (HM (k, v) (or_introl eq_refl)) as HkM. simpl in HkM.
    destruct (copyEntry_cleared refuses repo dest src Hdisj Hwf cfg k v M
                w w1 Hcfg Hts Hrepo Hkv Hplain Hdest HkM H1) as [Hd1 Hr1].
    rewrite (IH Hnd' (fun e He => Hl e (or_intror He)) _ w1 w' Hr1 Hd1).
    + rewrite (copyEntry_log cfg k v M w w1 Hcfg Hts Hrepo Hkv Hplain
                 Hdest HkM H1).
      simpl. now rewrite <- app_assoc.
    + intros [k' v'] Hin. simpl. rewrite lookup_entry_app.
      pose proof (HM (k', v') (or_intror Hin)) as HM'. simpl in HM'.
      rewrite HM'.
      apply lookup_mirror_entry_other. apply String.eqb_neq.
      intros ->. apply Hk. now apply (in_map fst) in Hin.
    + assumption.
Qed.
End CopyLog.

(* ================================================================== *)
(** * [removeDestination] and [syncFiles] *)
(* ================================================================== *)

(** [removeDestination] never throws; the tree is the one the deletion
    left. *)
Lemma removeDestination_returns (refuses : Refusals) (p : path) (w : World) :
  exists w1,
    removeDestination refuses p w = (Returned tt, w1)
    /\ w_fs w1 = (if rm_succeeds refuses p w
                  then update_path p (fun _ => None) (w_fs w)
                  else w_fs w)
    /\ same_host w w1
    /\ w_log w1 = w_log w ++ rm_log refuses p w.
Proof.
  unfold removeDestination, rm_succeeds, rm_log, rm_error, bind,
    try_catch, fs_rm, log, same_host.
  simpl. destruct (refuses (OpRm p)) as [e|].
  - destruct (negb (code_is ENOENT (fs_error e "rm" p))); simpl;
      eexists; repeat split; simpl; now rewrite <- app_assoc.
  - destruct (blocked_by_file p (Some (w_fs w))); simpl;
      eexists; repeat split; simpl; now rewrite <- app_assoc.
Qed.

Lemma removeDestination_ok (refuses : Refusals) (p : path) (w : World) :
  rm_succeeds refuses p w = true ->
  removeDestination refuses p w
  = (Returned tt,
     add_log LDebug "Destination directory removed"
       (set_fs (update_path p (fun _ => None) (w_fs w))
          (add_log LDebug "Removing destination directory entirely" w))).
Proof.
  unfold rm_succeeds, removeDestination, bind, try_catch, fs_rm, log.
  simpl. destruct (refuses (OpRm p)); [discriminate|].
  intros H. apply negb_true_iff in H. now rewrite H.
Qed.

Lemma disjoint_nonempty (p q : path) : disjoint p q = true -> p <> [].
Proof. intros H ->. discriminate. Qed.

Lemma lookup_after_rm (p q : path) (root : node) :
  p <> [] ->
  lookup_path q (update_path p (fun _ => None) root)
  = lookup_opt q (update_opt p (fun _ => None) (Some root)).
Proof.
  destruct p as [|c p]; [congruence|]. intros _.
  unfold lookup_path. now rewrite update_opt_cons.
Qed.

(** The mirror, when the deletion went through: the destination holds
    exactly what the specification describes, the source is as it was,
    and the log tells what was copied. *)
Lemma syncFiles_cleared (refuses : Refusals) (repo : path)
  (cfg : RulesConfig) (src : entries_t) (w w' : World) :
  disjoint (rulesFolderPath cfg) repo = true ->
  forallb plain_name (teamNames cfg) = true ->
  lookup_path repo (w_fs w) = Some (Dir src) ->
  wf_node (Dir src) = true ->
  rm_succeeds refuses (rulesFolderPath cfg) w = true ->
  syncFiles refuses repo cfg w = (Returned tt, w') ->
  lookup_path (rulesFolderPath cfg) (w_fs w')
  = Some (Dir (mirror (teamNames cfg) src))
  /\ lookup_path repo (w_fs w') = Some (Dir src)
  /\ w_log w' = w_log w ++ mirror_log repo cfg src.
Proof.
  intros Hdisj Hts Hrepo Hwf Hrm H.
  unfold syncFiles in H. rewrite log_bind in H.
  set (w0 := add_log _ _ w) in H.
  assert (Hfs0 : w_fs w0 = w_fs w) by reflexivity.
  assert (Hrm0 : rm_succeeds refuses (rulesFolderPath cfg) w0 = true)
    by exact Hrm.
  assert (Hlog0 : w_log w0
                  = w_log w
                    ++ [(LInfo, ("Starting file sync from "
                                   ++ show_path repo ++ " to "
                                   ++ show_path (rulesFolderPath cfg))%string)])
    by reflexivity.
  clearbody w0. rewrite <- Hfs0 in Hrepo.
  apply bind_returned in H as ([] & w1 & H1 & H).
  destruct (removeDestination_returns refuses (rulesFolderPath cfg) w0)
    as (w1' & H1' & Hfs1 & _ & Hlog1).
  rewrite H1 in H1'. injection H1' as <-.
  apply bind_returned in H as ([] & w2 & H2 & H).
  apply fs_mkdir_returned in H2 as (r & Hr & ->).
  apply bind_returned in H as ([] & w3 & H3 & H). injection H as <-.
  apply bind_returned in H3 as (ents & w4 & H4 & H3).
  rewrite Hrm0 in Hfs1.
  assert (Hlog1' : w_log w1
                   = w_log w0
                     ++ [(LDebug, "Removing destination directory entirely");
                         (LDebug, "Destination directory removed")]).
  { rewrite Hlog1. unfold rm_log, rm_error.
    unfold rm_succeeds in Hrm0.
    destruct (refuses (OpRm (rulesFolderPath cfg))); [discriminate|].
    apply negb_true_iff in Hrm0. now rewrite Hrm0. }
  pose proof (disjoint_nonempty _ _ Hdisj) as Hne.
  assert (Hd1 : lookup_path (rulesFolderPath cfg) (w_fs w1) = None).
  { rewrite Hfs1, lookup_after_rm by assumption.
    apply lookup_remove_path. }
  assert (Hr1 : lookup_path repo (w_fs w1) = Some (Dir src)).
  { rewrite Hfs1, lookup_after_rm by assumption.
    now rewrite lookup_update_disjoint. }
  assert (Hd2 : lookup_path (rulesFolderPath cfg) r = Some (Dir [])).
  { apply (mkdirp_fresh _ _ _ Hd1 Hr). }
  assert (Hr2 : lookup_path repo r = Some (Dir src)).
  { unfold lookup_path. rewrite (mkdirp_frame _ repo _ _ Hr); auto.
    rewrite <- (app_nil_r (rulesFolderPath cfg)).
    now apply repo_not_under_dest. }
  unfold fs_readdir in H4. simpl in H4. rewrite Hr2 in H4.
  injection H4 as <- <-. simpl.
  assert (Hnd : NoDup (map fst src)).
  { pose proof Hwf as H. rewrite wf_node_Dir in H.
    apply andb_true_iff in H as [H _].
    apply andb_true_iff in H as [Hnd _]. now apply nodupb_NoDup. }
  assert (Hl : forall e, In e src ->
                 lookup_entry (fst e) src = Some (snd e)
                 /\ plain_name (fst e) = true).
  { intros [k v] Hin. simpl. split.
    - now apply In_lookup_entry.
    - pose proof Hwf as H. rewrite wf_node_Dir in H.
      apply andb_true_iff in H as [H _].
      apply andb_true_iff in H as [_ Hpl].
      rewrite forallb_forall in Hpl. apply Hpl.
      now apply (in_map fst) in Hin. }
  destruct (copyEntries_cleared refuses repo (rulesFolderPath cfg) src
              Hdisj Hwf cfg src eq_refl Hts Hnd Hl [] (set_fs r w1) w3
              Hr2 Hd2 (fun _ _ => eq_refl) H3) as [Hd3 Hr3].
  pose proof (copyEntries_log refuses repo (rulesFolderPath cfg) src
                Hdisj Hwf cfg src eq_refl Hts Hnd Hl [] (set_fs r w1) w3
                Hr2 Hd2 (fun _ _ => eq_refl) H3) as Hlog3.
  repeat split; auto.
  rewrite Hlog3. simpl w_log. rewrite Hlog1', Hlog0.
  unfold mirror_log. now rewrite <- !app_assoc.
Qed.

(* ================================================================== *)
(** * The mirror returns when nothing is refused *)
(* ================================================================== *)

Lemma fs_cp_runs (refuses : Refusals) (src dest : path) (w : World)
  (s r d' : node) :
  refuses (OpCp src dest) = None ->
  lookup_path src (w_fs w) = Some s ->
  is_prefix src dest = false ->
  mkdirp (path_dirname dest) (Some (w_fs w)) = Some r ->
  cp_node s (lookup_path dest r) = Some d' ->
  fs_cp refuses src dest w
  = (Returned tt, set_fs (update_path dest (fun _ => Some d') r) w).
Proof.
  intros Hno Hs Hp Hr Hcp. unfold fs_cp.
  now rewrite Hno, Hs, Hp, Hr, Hcp.
Qed.

Section Progress.
Variable refuses : Refusals.
Variables repo dest : path.
Variable src : entries_t.
Hypothesis Hno : forall op, refuses op = None.
Hypothesis Hdisj : disjoint dest repo = true.
Hypothesis Hwf : wf_node (Dir src) = true.

Lemma copyTeam_progress (T t : string) (es M acc : entries_t) (w : World) :
  plain_name T = true -> plain_name t = true ->
  lookup_path repo (w_fs w) = Some (Dir src) ->
  lookup_entry T src = Some (Dir es) ->
  lookup_path dest (w_fs w) = Some (Dir (M ++ [(T, Dir acc)])) ->
  lookup_entry T M = None ->
  consistent es acc ->
  exists w',
    copyTeam refuses T (repo ++ [T]) (dest ++ [T]) t w = (Returned tt, w').
Proof.
  intros HT Ht Hrepo HTsrc Hdest HTM Hcons.
  unfold copyTeam. rewrite !path_join_plain by assumption.
  unfold bind, directoryExists, stat_isDirectory.
  assert (Hlk : lookup_path ((repo ++ [T]) ++ [t]) (w_fs w)
                = lookup_entry t es).
  { rewrite !lookup_path_app, Hrepo. simpl. now rewrite HTsrc. }
  rewrite Hlk.
  destruct (lookup_entry t es) as [[c|sub]|] eqn:Et; simpl;
    try (eexists; reflexivity).
  assert (Hsub : wf_node (Dir sub) = true).
  { pose proof Hwf as Hsrc. rewrite wf_node_Dir in Hsrc.
    apply andb_true_iff in Hsrc as [_ Hall].
    assert (Hes : wf_node (Dir es) = true)
      by apply (wf_lookup_entry T src _ Hall HTsrc).
    rewrite wf_node_Dir in Hes. apply andb_true_iff in Hes as [_ Hes].
    apply (wf_lookup_entry t es _ Hes Et). }
  assert (HdT : lookup_path (dest ++ [T]) (w_fs w) = Some (Dir acc)).
  { rewrite lookup_path_app, Hdest. simpl. now rewrite lookup_app_last. }
  unfold copyRecursive.
  rewrite (fs_cp_runs refuses _ _ w (Dir sub) (w_fs w) (Dir sub)); auto.
  - eexists; reflexivity.
  - rewrite <- !app_assoc. now apply disjoint_not_prefix.
  - unfold path_dirname. rewrite removelast_last.
    apply mkdirp_existing.
    fold (lookup_path (dest ++ [T]) (w_fs w)). now rewrite HdT.
  - rewrite lookup_path_app, HdT. cbn [lookup_opt].
    destruct (lookup_entry t acc) as [v|] eqn:Eacc.
    + destruct (Hcons _ _ Eacc) as [Hv _].
      assert (v = Dir sub) by congruence. subst v.
      now apply cp_node_self.
    + now apply cp_node_fresh.
Qed.

Lemma copyTeams_progress (T : string) (es M : entries_t) (ts : list string) :
  plain_name T = true -> forallb plain_name ts = true ->
  lookup_entry T src = Some (Dir es) ->
  lookup_entry T M = None ->
  forall (acc : entries_t) (w : World),
  lookup_path repo (w_fs w) = Some (Dir src) ->
  lookup_path dest (w_fs w) = Some (Dir (M ++ [(T, Dir acc)])) ->
  consistent es acc ->
  exists w',
    for_each ts (copyTeam refuses T (repo ++ [T]) (dest ++ [T])) w
    = (Returned tt, w').
Proof.
  intros HT Hts HTsrc HTM.
  induction ts as [|t ts IH]; intros acc w Hrepo Hdest Hcons.
  - eexists; reflexivity.
  - simpl in Hts. apply andb_true_iff in Hts as [Ht Hts].
    destruct (copyTeam_progress T t es M acc w HT Ht Hrepo HTsrc Hdest
                HTM Hcons) as (w1 & H1).
    destruct (copyTeam_cleared refuses repo dest src Hdisj Hwf T t es M
                acc w w1 HT Ht Hrepo HTsrc Hdest HTM Hcons H1)
      as [Hd1 Hr1].
    destruct (IH Hts _ w1 Hr1 Hd1 (consistent_step es acc t Hcons))
      as (w' & H').
    exists w'. apply (for_each_step _ _ _ _ w1); assumption.
Qed.

Lemma copyEntry_progress (cfg : RulesConfig) (k : string) (v : node)
  (M : entries_t) (w : World) :
  rulesFolderPath cfg = dest ->
  forallb plain_name (teamNames cfg) = true ->
  lookup_path repo (w_fs w) = Some (Dir src) ->
  lookup_entry k src = Some v -> plain_name k = true ->
  lookup_path dest (w_fs w) = Some (Dir M) -> lookup_entry k M = None ->
  exists w',
    copyEntry refuses repo cfg (k, is_dir_node v) w = (Returned tt, w').
Proof.
  intros Hcfg Hts Hrepo Hk Hplain Hdest HkM.
  unfold copyEntry.
  destruct v as [c|es]; simpl.
  { rewrite orb_true_r. eexists; reflexivity. }
  rewrite orb_false_r.
  destruct (prefix "." k) eqn:Ehid.
  { eexists; reflexivity. }
  rewrite Hcfg. rewrite !path_join_plain by assumption.
  destruct (prefix "team" k) eqn:Eteam.
  - unfold bind at 1. unfold fs_mkdir. rewrite Hno.
    destruct (mkdirp (dest ++ [k]) (Some (w_fs w))) as [r|] eqn:Hr.
    2:{ exfalso. revert Hr. clear - Hdest HkM.
        unfold lookup_path in Hdest. revert Hdest.
        generalize (Some (w_fs w)) as o.
        induction dest as [|c p IH]; intros o Hd Hr; simpl in *.
        - subst o. rewrite HkM in Hr. discriminate.
        - destruct o as [[|es]|]; try discriminate.
          destruct (mkdirp (p ++ [k]) (lookup_entry c es)) eqn:E;
            [discriminate|]. eapply IH; eauto. }
    destruct (mkdirp_under dest [k] _ _ _ Hdest Hr) as (n' & Hn' & Hd1).
    simpl in Hn'. rewrite HkM in Hn'. injection Hn' as <-.
    rewrite upsert_absent in Hd1 by assumption.
    assert (Hr1 : lookup_path repo r = Some (Dir src)).
    { unfold lookup_path.
      rewrite (mkdirp_frame _ repo _ _ Hr
                 (repo_not_under_dest repo dest Hdisj [k])).
      apply Hrepo. }
    apply (copyTeams_progress k es M (teamNames cfg) Hplain Hts Hk HkM
             [] (set_fs r w) Hr1 Hd1).
    intros ? ?. discriminate.
  - unfold bind, copyRecursive.
    rewrite (fs_cp_runs refuses _ _ w (Dir es) (w_fs w) (Dir es)); auto.
    + eexists; reflexivity.
    + rewrite lookup_path_app, Hrepo. simpl. now rewrite Hk.
    + now apply disjoint_not_prefix.
    + unfold path_dirname. rewrite removelast_last.
      apply mkdirp_existing.
      fold (lookup_path dest (w_fs w)). now rewrite Hdest.
    + rewrite lookup_path_app, Hdest. cbn [lookup_opt]. rewrite HkM.
      apply cp_node_fresh.
      pose proof Hwf as Hsrc. rewrite wf_node_Dir in Hsrc.
      apply andb_true_iff in Hsrc as [_ Hall].
      apply (wf_lookup_entry k src _ Hall Hk).
Qed.

Lemma copyEntries_progress (cfg : RulesConfig) (l : entries_t) :
  rulesFolderPath cfg = dest ->
  forallb plain_name (teamNames cfg) = true ->
  NoDup (map fst l) ->
  (forall e, In e l -> lookup_entry (fst e) src = Some (snd e)
                       /\ plain_name (fst e) = true) ->
  forall (M : entries_t) (w : World),
  lookup_path repo (w_fs w) = Some (Dir src) ->
  lookup_path dest (w_fs w) = Some (Dir M) ->
  (forall e, In e l -> lookup_entry (fst e) M = None) ->
  exists w',
    for_each (map dirent l) (copyEntry refuses repo cfg) w
    = (Returned tt, w').
Proof.
  intros Hcfg Hts. induction l as [|[k v] l IH];
    intros Hnd Hl M w Hrepo Hdest HM.
  - eexists; reflexivity.
  - simpl in Hnd. apply NoDup_cons_iff in Hnd as [Hk Hnd'].
    destruct (Hl (k, v)) as [Hkv Hplain]; [now left|].
    simpl in Hkv, Hplain.
    pose proof (HM (k, v) (or_introl eq_refl)) as HkM. simpl in HkM.
    destruct (copyEntry_progress cfg k v M w Hcfg Hts Hrepo Hkv Hplain
                Hdest HkM) as (w1 & H1).
    destruct (copyEntry_cleared refuses repo dest src Hdisj Hwf cfg k v M
                w w1 Hcfg Hts Hrepo Hkv Hplain Hdest HkM H1) as [Hd1 Hr1].
    destruct (IH Hnd' (fun e He => Hl e (or_intror He)) _ w1 Hr1 Hd1)
      as (w' & H').
    + intros [k' v'] Hin. simpl. rewrite lookup_entry_app.
      pose proof (HM (k', v') (or_intror Hin)) as HM'. simpl in HM'.
      rewrite HM'.
      apply lookup_mirror_entry_other. apply String.eqb_neq.
      intros ->. apply Hk. now apply (in_map fst) in Hin.
    + exists w'. apply (for_each_step _ _ _ _ w1); assumption.
Qed.
End Progress.

Lemma blocked_None (p : path) : blocked_by_file p None = false.
Proof. now destruct p. Qed.

Lemma blocked_after_rm (p : path) (o : option node) :
  blocked_by_file p (update_opt p (fun _ => None) o) = blocked_by_file p o.
Proof.
  revert o; induction p as [|c p IH]; intros o; simpl; auto.
  destruct o as [[|es]|]; auto. now rewrite lookup_set_same.
Qed.

Lemma mkdirp_absent (p : path) (o : option node) :
  blocked_by_file p o = false -> lookup_opt p o = None ->
  exists r, mkdirp p o = Some r.
Proof.
  revert o; induction p as [|c p IH]; intros o Hb Hl; simpl in *.
  - subst o. eauto.
  - destruct o as [[|es]|]; try discriminate.
    + destruct (IH _ Hb Hl) as (r & ->). eauto.
    + destruct (IH None (blocked_None p) (lookup_opt_None p)) as (r & ->).
      eauto.
Qed.

(** With nothing refused, a well-formed source apart from the
    destination, plain team names and no file in the way of the
    destination, the mirror returns. *)
Lemma syncFiles_progress (refuses : Refusals) (repo : path)
  (cfg : RulesConfig) (src : entries_t) (w : World) :
  (forall op, refuses op = None) ->
  disjoint (rulesFolderPath cfg) repo = true ->
  forallb plain_name (teamNames cfg) = true ->
  lookup_path repo (w_fs w) = Some (Dir src) ->
  wf_node (Dir src) = true ->
  blocked_by_file (rulesFolderPath cfg) (Some (w_fs w)) = false ->
  exists w', syncFiles refuses repo cfg w = (Returned tt, w').
Proof.
  intros Hno Hdisj Hts Hrepo Hwf Hb.
  unfold syncFiles. rewrite log_bind.
  set (w0 := add_log _ _ w).
  destruct (removeDestination_returns refuses (rulesFolderPath cfg) w0)
    as (w1 & H1 & Hfs1 & _).
  rewrite (bind_run _ _ _ _ _ H1).
  unfold rm_succeeds in Hfs1. rewrite Hno in Hfs1.
  change (w_fs w0) with (w_fs w) in Hfs1. rewrite Hb in Hfs1.
  simpl in Hfs1.
  pose proof (disjoint_nonempty _ _ Hdisj) as Hne.
  assert (Hd1 : lookup_path (rulesFolderPath cfg) (w_fs w1) = None).
  { rewrite Hfs1, lookup_after_rm by assumption.
    apply lookup_remove_path. }
  assert (Hr1 : lookup_path repo (w_fs w1) = Some (Dir src)).
  { rewrite Hfs1, lookup_after_rm by assumption.
    now rewrite lookup_update_disjoint. }
  assert (Hb1 : blocked_by_file (rulesFolderPath cfg) (Some (w_fs w1))
                = false).
  { rewrite Hfs1. destruct (rulesFolderPath cfg) as [|c p] eqn:E;
      [congruence|].
    rewrite <- update_opt_cons. now rewrite blocked_after_rm. }
  destruct (mkdirp_absent _ _ Hb1 Hd1) as (r & Hr).
  assert (Hmk : fs_mkdir refuses (rulesFolderPath cfg) w1
                = (Returned tt, set_fs r w1)).
  { unfold fs_mkdir. now rewrite Hno, Hr. }
  rewrite (bind_run _ _ _ _ _ Hmk).
  assert (Hd2 : lookup_path (rulesFolderPath cfg) r = Some (Dir [])).
  { apply (mkdirp_fresh _ _ _ Hd1 Hr). }
  assert (Hr2 : lookup_path repo r = Some (Dir src)).
  { unfold lookup_path. rewrite (mkdirp_frame _ repo _ _ Hr); auto.
    rewrite <- (app_nil_r (rulesFolderPath cfg)).
    now apply repo_not_under_dest. }
  assert (Hnd : NoDup (map fst src)).
  { pose proof Hwf as H. rewrite wf_node_Dir in H.
    apply andb_true_iff in H as [H _].
    apply andb_true_iff in H as [Hnd _]. now apply nodupb_NoDup. }
  destruct (copyEntries_progress refuses repo (rulesFolderPath cfg) src
              Hno Hdisj Hwf cfg src eq_refl Hts Hnd) with
    (M := @nil (string * node)) (w := set_fs r w1) as (w3 & H3); auto.
  { intros [k v] Hin. simpl. split.
    - now apply In_lookup_entry.
    - pose proof Hwf as H. rewrite wf_node_Dir in H.
      apply andb_true_iff in H as [H _].
      apply andb_true_iff in H as [_ Hpl].
      rewrite forallb_forall in Hpl. apply Hpl.
      now apply (in_map fst) in Hin. }
  assert (Hcopy : copyRulesFromRepo refuses repo cfg (set_fs r w1)
                  = (Returned tt, w3)).
  { unfold copyRulesFromRepo. unfold bind at 1. unfold fs_readdir.
    simpl. now rewrite Hr2. }
  rewrite (bind_run _ _ _ _ _ Hcopy).
  eexists. reflexivity.
Qed.


(* ================================================================== *)
(** * The mirror touches only the tree and the log *)
(* ================================================================== *)

Lemma same_host_refl (w : World) : same_host w w.
Proof. repeat split. Qed.

Lemma same_host_trans (w1 w2 w3 : World) :
  same_host w1 w2 -> same_host w2 w3 -> same_host w1 w3.
Proof.
  unfold same_host. intros (-> & -> & -> & ->) (-> & -> & -> & ->).
  repeat split.
Qed.

Lemma quiet_ret {A} (a : A) : quiet (ret a).
Proof. intros w. apply same_host_refl. Qed.

Lemma quiet_bind {A B} (c : M A) (k : A -> M B) :
  quiet c -> (forall a, quiet (k a)) -> quiet (bind c k).
Proof.
  intros Hc Hk w. unfold bind. specialize (Hc w).
  destruct (c w) as [[a|e] w1]; simpl in *; auto.
  eapply same_host_trans; [exact Hc | apply Hk].
Qed.

Lemma quiet_try_catch {A} (c : M A) (h : Error -> M A) :
  quiet c -> (forall e, quiet (h e)) -> quiet (try_catch c h).
Proof.
  intros Hc Hh w. unfold try_catch. specialize (Hc w).
  destruct (c w) as [[a|e] w1]; simpl in *; auto.
  eapply same_host_trans; [exact Hc | apply Hh].
Qed.

Lemma quiet_for_each {A} (l : list A) (body : A -> M unit) :
  (forall x, quiet (body x)) -> quiet (for_each l body).
Proof.
  intros Hb. induction l as [|x l IH]; simpl.
  - apply quiet_ret.
  - apply quiet_bind; auto.
Qed.

Lemma quiet_log (l : level) (m : string) : quiet (log l m).
Proof. intros w. repeat split. Qed.

Lemma quiet_fs_rm (refuses : Refusals) (p : path) : quiet (fs_rm refuses p).
Proof.
  intros w. unfold fs_rm. destruct (refuses (OpRm p)); [repeat split|].
  destruct (blocked_by_file p (Some (w_fs w))); repeat split.
Qed.

Lemma quiet_fs_mkdir (refuses : Refusals) (p : path) :
  quiet (fs_mkdir refuses p).
Proof.
  intros w. unfold fs_mkdir. destruct (refuses (OpMkdir p)); [repeat split|].
  destruct (mkdirp p (Some (w_fs w))); repeat split.
Qed.

Lemma quiet_fs_cp (refuses : Refusals) (s d : path) :
  quiet (fs_cp refuses s d).
Proof.
  intros w. unfold fs_cp. destruct (refuses (OpCp s d)); [repeat split|].
  destruct (lookup_path s (w_fs w)); [|repeat split].
  destruct (is_prefix s d); [repeat split|].
  destruct (mkdirp (path_dirname d) (Some (w_fs w))); [|repeat split].
  destruct (cp_node n (lookup_path d n0)); repeat split.
Qed.

Lemma quiet_fs_readdir (p : path) : quiet (fs_readdir p).
Proof.
  intros w. unfold fs_readdir.
  destruct (lookup_path p (w_fs w)) as [[|]|]; repeat split.
Qed.

Lemma quiet_stat (p : path) : quiet (stat_isDirectory p).
Proof. intros w. repeat split. Qed.

Lemma quiet_copyTeam (refuses : Refusals) (n : string) (s d : path)
  (t : string) : quiet (copyTeam refuses n s d t).
Proof.
  unfold copyTeam. apply quiet_bind; [apply quiet_stat|].
  intros [|]; [|apply quiet_log].
  apply quiet_bind; [apply quiet_fs_cp | intros; apply quiet_log].
Qed.

Lemma quiet_copyEntry (refuses : Refusals) (repo : path)
  (cfg : RulesConfig) (e : string * bool) :
  quiet (copyEntry refuses repo cfg e).
Proof.
  unfold copyEntry. destruct e as [name isDirectory].
  destruct (prefix "." name || negb isDirectory); [apply quiet_ret|].
  destruct (prefix "team" name).
  - apply quiet_bind; [apply quiet_fs_mkdir|].
    intros _. apply quiet_for_each. intros t. apply quiet_copyTeam.
  - apply quiet_bind; [apply quiet_fs_cp | intros; apply quiet_log].
Qed.

Lemma quiet_removeDestination (refuses : Refusals) (p : path) :
  quiet (removeDestination refuses p).
Proof.
  unfold removeDestination. apply quiet_bind; [apply quiet_log|].
  intros _. apply quiet_try_catch.
  - apply quiet_bind; [apply quiet_fs_rm | intros; apply quiet_log].
  - intros e. destruct (negb (code_is ENOENT e));
      [apply quiet_log | apply quiet_ret].
Qed.

Lemma quiet_syncFiles (refuses : Refusals) (repo : path)
  (cfg : RulesConfig) : quiet (syncFiles refuses repo cfg).
Proof.
  unfold syncFiles. apply quiet_bind; [apply quiet_log|]. intros _.
  apply quiet_bind; [apply quiet_removeDestination|]. intros _.
  apply quiet_bind; [apply quiet_fs_mkdir|]. intros _.
  apply quiet_bind; [|intros; apply quiet_log].
  unfold copyRulesFromRepo. apply quiet_bind; [apply quiet_fs_readdir|].
  intros ents. apply quiet_for_each. intros e. apply quiet_copyEntry.
Qed.

(* ================================================================== *)
(** * What the reference mirror holds, name by name *)
(* ================================================================== *)

Lemma lookup_select_teams (ts : list string) (es : entries_t) (t : string) :
  lookup_entry t (select_teams ts es)
  = if existsb (String.eqb t) ts then only_dir (lookup_entry t es)
    else None.
Proof.
  induction ts as [|t0 ts IH]; simpl; auto.
  destruct (lookup_entry t0 es) as [[c|sub]|] eqn:E0; simpl.
  - rewrite IH. destruct (t =? t0) eqn:Et; simpl; auto.
    apply String.eqb_eq in Et; subst t0. rewrite E0.
    now destruct (existsb (String.eqb t) ts).
  - destruct (t =? t0) eqn:Et; simpl.
    + apply String.eqb_eq in Et; subst t0. now rewrite E0.
    + rewrite lookup_remove_other by assumption. apply IH.
  - rewrite IH. destruct (t =? t0) eqn:Et; simpl; auto.
    apply String.eqb_eq in Et; subst t0. rewrite E0.
    now destruct (existsb (String.eqb t) ts).
Qed.

Lemma lookup_mirror (ts : list string) (src : entries_t) (name : string) :
  NoDup (map fst src) ->
  lookup_entry name (mirror ts src)
  = match lookup_entry name src with
    | Some (Dir es) =>
        if hidden name then None
        else if team_like name then Some (Dir (select_teams ts es))
             else Some (Dir es)
    | _ => None
    end.
Proof.
  unfold mirror. induction src as [|[k v] src IH]; simpl; auto.
  intros Hnd. apply NoDup_cons_iff in Hnd as [Hk Hnd].
  rewrite lookup_entry_app.
  destruct (name =? k) eqn:E.
  - apply String.eqb_eq in E; subst k.
    assert (Hn : lookup_entry name src = None)
      by now apply lookup_None_notin.
    rewrite (IH Hnd), Hn. unfold mirror_entry. simpl.
    destruct v as [c|es]; auto.
    destruct (hidden name); auto.
    destruct (team_like name); simpl; now rewrite String.eqb_refl.
  - rewrite lookup_mirror_entry_other by assumption. now apply IH.
Qed.

Lemma keys_remove_entry (t k : string) (l : entries_t) :
  In k (map fst (remove_entry t l)) -> In k (map fst l) /\ k <> t.
Proof.
  induction l as [|[k' v'] l IH]; simpl; [tauto|].
  destruct (t =? k') eqn:E.
  - intros H. destruct (IH H). auto.
  - simpl. intros [<-|H].
    + split; auto. apply String.eqb_neq in E. congruence.
    + destruct (IH H). auto.
Qed.

Lemma NoDup_remove_entry (t : string) (l : entries_t) :
  NoDup (map fst l) -> NoDup (map fst (remove_entry t l)).
Proof.
  induction l as [|[k v] l IH]; simpl; auto.
  intros H. apply NoDup_cons_iff in H as [Hk Hl].
  destruct (t =? k); auto. simpl. constructor; auto.
  intros Hin. apply keys_remove_entry in Hin. tauto.
Qed.

Lemma NoDup_select_teams (ts : list string) (es : entries_t) :
  NoDup (map fst (select_teams ts es)).
Proof.
  induction ts as [|t ts IH]; simpl; [constructor|].
  destruct (lookup_entry t es) as [[c|sub]|]; auto.
  simpl. constructor.
  - intros Hin. apply keys_remove_entry in Hin. tauto.
  - now apply NoDup_remove_entry.
Qed.

Lemma keys_mirror_entry (ts : list string) (e : string * node) (k : string) :
  In k (map fst (mirror_entry ts e)) -> k = fst e.
Proof.
  unfold mirror_entry. destruct (snd e) as [c|es]; simpl; [tauto|].
  destruct (hidden (fst e)); simpl; [tauto|].
  destruct (team_like (fst e)); simpl; intuition.
Qed.

Lemma keys_mirror (ts : list string) (src : entries_t) (k : string) :
  In k (map fst (mirror ts src)) -> In k (map fst src).
Proof.
  unfold mirror. induction src as [|e src IH]; simpl; auto.
  rewrite map_app, in_app_iff. intros [H|H]; auto.
  left. symmetry. now apply (keys_mirror_entry ts).
Qed.

Lemma NoDup_mirror (ts : list string) (src : entries_t) :
  NoDup (map fst src) -> NoDup (map fst (mirror ts src)).
Proof.
  induction src as [|e src IH]; simpl; [constructor|].
  intros H. apply NoDup_cons_iff in H as [Hk Hl].
  change (mirror ts (e :: src)) with (mirror_entry ts e ++ mirror ts src).
  rewrite map_app.
  assert (He : map fst (mirror_entry ts e) = []
               \/ map fst (mirror_entry ts e) = [fst e]).
  { unfold mirror_entry. destruct (snd e); auto.
    destruct (hidden (fst e)); auto.
    destruct (team_like (fst e)); auto. }
  destruct He as [-> | ->]; simpl; auto.
  constructor; auto. intros Hin. apply keys_mirror in Hin. contradiction.
Qed.

Lemma lookup_entry_In (k : string) (v : node) (es : entries_t) :
  lookup_entry k es = Some v -> In (k, v) es.
Proof.
  induction es as [|[k' v'] es IH]; simpl; [discriminate|].
  destruct (k =? k') eqn:E; auto.
  apply String.eqb_eq in E; subst k'. intros [= ->]. auto.
Qed.

Lemma entry_log_levels (ts : list string) (e : string * node)
  (l : level) (m : string) :
  In (l, m) (entry_log ts e) -> l = LInfo.
Proof.
  unfold entry_log. destruct (snd e) as [c|es]; simpl; [tauto|].
  destruct (prefix "." (fst e)); simpl; [tauto|].
  destruct (prefix "team" (fst e)); simpl.
  - rewrite in_map_iff. intros (t & Ht & _). unfold team_log in Ht.
    destruct (is_dir (lookup_entry t es)); congruence.
  - intros [H|[]]. congruence.
Qed.

Lemma mirror_log_levels (repo : path) (cfg : RulesConfig) (src : entries_t)
  (l : level) (m : string) :
  In (l, m) (mirror_log repo cfg src) -> l = LInfo \/ l = LDebug.
Proof.
  unfold mirror_log. rewrite !in_app_iff. simpl.
  intros [[H|[H|[H|[]]]]|[H|[H|[]]]]; try (injection H as <- _; auto).
  apply in_flat_map in H as (e & _ & He).
  left. eapply entry_log_levels; eauto.
Qed.

Lemma lookup_present_not_blocked (p : path) (o : option node) (n : node) :
  lookup_opt p o = Some n -> blocked_by_file p o = false.
Proof.
  revert o; induction p as [|c p IH]; intros o H; simpl in *; auto.
  destruct o as [[|es]|]; try discriminate. eauto.
Qed.

Lemma blocked_update (p : path) (f : option node -> option node)
  (o : option node) :
  blocked_by_file p (update_opt p f o) = blocked_by_file p o.
Proof.
  revert o; induction p as [|c p IH]; intros o; simpl; auto.
  destruct o as [[|es]|]; auto. now rewrite lookup_set_same.
Qed.

Lemma upsert_upsert (k : string) (a b : node) (es : entries_t) :
  upsert k a (upsert k b es) = upsert k a es.
Proof.
  induction es as [|[k' v'] es IH]; simpl.
  - now rewrite String.eqb_refl.
  - destruct (k =? k') eqn:E; simpl; rewrite ?String.eqb_refl, ?E;
      congruence.
Qed.

Lemma remove_upsert (k : string) (b : node) (es : entries_t) :
  remove_entry k (upsert k b es) = remove_entry k es.
Proof.
  induction es as [|[k' v'] es IH]; simpl.
  - now rewrite String.eqb_refl.
  - destruct (k =? k') eqn:E; simpl; rewrite ?String.eqb_refl, ?E;
      congruence.
Qed.

(** Deleting [p] forgets whatever was done at [p] before. *)
Lemma rm_after_update (p : path) (g : option node -> option node)
  (o : option node) :
  update_opt p (fun _ => None) (update_opt p g o)
  = update_opt p (fun _ => None) o.
Proof.
  revert o; induction p as [|c p IH]; intros o; simpl; auto.
  destruct o as [[|es]|]; auto.
  rewrite lookup_set_same, IH. do 2 f_equal.
  destruct p as [|c' p]; simpl.
  - destruct (g (lookup_entry c es)); simpl;
      auto using remove_upsert, remove_entry_idem.
  - destruct (lookup_entry c es) as [[|es']|] eqn:E; simpl;
      auto using upsert_upsert, remove_entry_idem.
Qed.

Lemma rm_after_update_path (p : path) (g : option node -> option node)
  (root : node) :
  p <> [] ->
  update_path p (fun _ => None) (update_path p g root)
  = update_path p (fun _ => None) root.
Proof.
  destruct p as [|c p]; [congruence|]. intros _.
  assert (H : Some (update_path (c :: p) (fun _ => None)
                      (update_path (c :: p) g root))
              = Some (update_path (c :: p) (fun _ => None) root)).
  { rewrite <- !update_opt_cons. apply rm_after_update. }
  now injection H.
Qed.

(* ================================================================== *)
(** * The mirror engine: what the destination holds after a run *)
(* ================================================================== *)

(** C1 (amended).  For a well-formed source directory apart from the
    destination, and selected team identifiers that are single path
    components, a run of [syncFiles] that returns and whose recursive
    deletion of the old destination went through leaves a destination
    whose entries are exactly those of the reference [mirror]: under
    each name, a non-hidden source directory whose name starts with
    "team" gives a directory holding precisely the selected teams that
    are directories under it, copied in full; any other non-hidden
    source directory gives its full copy; hidden entries and top-level
    files give nothing. *)
Theorem C1_mirror_exact (refuses : Refusals) (repo : path)
  (cfg : RulesConfig) (src : entries_t) (w w' : World) :
  disjoint (rulesFolderPath cfg) repo = true ->
  lookup_path repo (w_fs w) = Some (Dir src) ->
  wf_node (Dir src) = true ->
  forallb plain_name (teamNames cfg) = true ->
  rm_succeeds refuses (rulesFolderPath cfg) w = true ->
  syncFiles refuses repo cfg w = (Returned tt, w') ->
  lookup_path (rulesFolderPath cfg) (w_fs w')
  = Some (Dir (mirror (teamNames cfg) src))
  /\ NoDup (map fst (mirror (teamNames cfg) src))
  /\ (forall name,
        lookup_entry name (mirror (teamNames cfg) src)
        = match lookup_entry name src with
          | Some (Dir es) =>
              if hidden name then None
              else if team_like name
                   then Some (Dir (select_teams (teamNames cfg) es))
                   else Some (Dir es)
          | _ => None
          end)
  /\ (forall es,
        NoDup (map fst (select_teams (teamNames cfg) es))
        /\ forall t,
             lookup_entry t (select_teams (teamNames cfg) es)
             = if existsb (String.eqb t) (teamNames cfg)
               then only_dir (lookup_entry t es)
               else None).
Proof.
  intros Hdisj Hrepo Hwf Hts Hrm H.
  destruct (syncFiles_cleared refuses repo cfg src w w'
              Hdisj Hts Hrepo Hwf Hrm H) as (Hd & _ & _).
  assert (Hnd : NoDup (map fst src)).
  { rewrite wf_node_Dir in Hwf. apply andb_true_iff in Hwf as [Hwf _].
    apply andb_true_iff in Hwf as [Hnd _]. now apply nodupb_NoDup. }
  repeat split.
  - exact Hd.
  - now apply NoDup_mirror.
  - intros name. now apply lookup_mirror.
  - apply NoDup_select_teams.
  - apply lookup_select_teams.
Qed.

Lemma C1_mirror_exact_witness :
  lookup_path ex_dest
    (w_fs (snd (syncFiles no_refusal ex_repoPath (ex_cfg ["cloud-infra"])
                  (ex_world (Some ex_stale) ["cloud-infra"]))))
  = Some (Dir (mirror ["cloud-infra"] ex_src)).
Proof.
  refine (proj1 (C1_mirror_exact no_refusal ex_repoPath
                   (ex_cfg ["cloud-infra"]) ex_src
                   (ex_world (Some ex_stale) ["cloud-infra"])
                   (snd (syncFiles no_refusal ex_repoPath
                           (ex_cfg ["cloud-infra"])
                           (ex_world (Some ex_stale) ["cloud-infra"])))
                   _ _ _ _ _ _)); vm_compute; reflexivity.
Defined.

(** C1 fails as stated: when the operating system refuses the recursive
    deletion of the old destination, [removeDestination] logs a warning
    and the run returns all the same; the destination then keeps an
    entry, [team/blue-team], that is not a selected team, and is not the
    mirror of the source. *)
Lemma C1_counterexample :
  let r := syncFiles refuse_rm ex_repoPath (ex_cfg ["cloud-infra"])
             (ex_world (Some ex_stale) ["cloud-infra"]) in
  fst r = Returned tt
  /\ lookup_path (ex_dest ++ ["team"; "blue-team"]) (w_fs (snd r))
     = Some (Dir [("old.mdc", File "old")])
  /\ lookup_opt ["team"; "blue-team"]
       (Some (Dir (mirror ["cloud-infra"] ex_src))) = None
  /\ lookup_path ex_dest (w_fs (snd r))
     <> Some (Dir (mirror ["cloud-infra"] ex_src)).
Proof.
  cbv zeta. repeat split; try (vm_compute; reflexivity).
  vm_compute. discriminate.
Qed.

(** C2 (amended).  When the recursive deletion of the destination goes
    through, nothing of what the destination held before survives: the
    run is the same, outcome and final tree, whatever the destination
    held ([g] rewrites it arbitrarily); and under the conditions of C1,
    what lives at any path below the destination after the run is what
    the mirror of the current source and selection has there. *)
Theorem C2_preclean (refuses : Refusals) (repo : path) (cfg : RulesConfig)
  (w : World) :
  rm_succeeds refuses (rulesFolderPath cfg) w = true ->
  rulesFolderPath cfg <> [] ->
  (forall g : option node -> option node,
     syncFiles refuses repo cfg
       (set_fs (update_path (rulesFolderPath cfg) g (w_fs w)) w)
     = syncFiles refuses repo cfg w)
  /\ (forall (src : entries_t) (w' : World),
        disjoint (rulesFolderPath cfg) repo = true ->
        lookup_path repo (w_fs w) = Some (Dir src) ->
        wf_node (Dir src) = true ->
        forallb plain_name (teamNames cfg) = true ->
        syncFiles refuses repo cfg w = (Returned tt, w') ->
        forall q : path,
          lookup_path (rulesFolderPath cfg ++ q) (w_fs w')
          = lookup_opt q (Some (Dir (mirror (teamNames cfg) src)))).
Proof.
  intros Hrm Hne. split.
  - intros g. unfold syncFiles. rewrite !log_bind.
    assert (Hrm' : forall l m,
               rm_succeeds refuses (rulesFolderPath cfg)
                 (add_log l m
                    (set_fs (update_path (rulesFolderPath cfg) g (w_fs w))
                       w)) = true).
    { intros l m. unfold rm_succeeds in *. simpl.
      destruct (refuses (OpRm (rulesFolderPath cfg))); [discriminate|].
      destruct (rulesFolderPath cfg) as [|c p]; [congruence|].
      rewrite <- update_opt_cons. now rewrite blocked_update. }
    rewrite (bind_run _ _ _ _ _ (removeDestination_ok _ _ _ (Hrm' _ _))).
    assert (Hrm0 : forall l m,
               rm_succeeds refuses (rulesFolderPath cfg) (add_log l m w)
               = true) by (intros; exact Hrm).
    rewrite (bind_run _ _ _ _ _ (removeDestination_ok _ _ _ (Hrm0 _ _))).
    unfold set_fs, add_log. simpl.
    now rewrite rm_after_update_path.
  - intros src w' Hdisj Hrepo Hwf Hts H q.
    destruct (syncFiles_cleared refuses repo cfg src w w'
                Hdisj Hts Hrepo Hwf Hrm H) as (Hd & _ & _).
    now rewrite lookup_path_app, Hd.
Qed.

Lemma C2_preclean_witness :
  syncFiles no_refusal ex_repoPath (ex_cfg ["cloud-infra"])
    (set_fs (update_path ex_dest (fun _ => Some ex_stale)
               (w_fs (ex_world None ["cloud-infra"])))
       (ex_world None ["cloud-infra"]))
  = syncFiles no_refusal ex_repoPath (ex_cfg ["cloud-infra"])
      (ex_world None ["cloud-infra"]).
Proof.
  refine (proj1 (C2_preclean no_refusal ex_repoPath (ex_cfg ["cloud-infra"])
                   (ex_world None ["cloud-infra"]) _ _) _).
  - vm_compute; reflexivity.
  - discriminate.
Defined.

(** C2 fails as stated: the destination holds the stale file
    [team/blue-team/old.mdc], the operating system refuses the deletion
    (EACCES), [removeDestination] swallows the error, the run returns,
    and the stale file is still there although the mirror of the source
    and selection has nothing at that path. *)
Lemma C2_counterexample :
  let w := ex_world (Some ex_stale) ["cloud-infra"] in
  let r := syncFiles refuse_rm ex_repoPath (ex_cfg ["cloud-infra"]) w in
  lookup_path (ex_dest ++ ["team"; "blue-team"; "old.mdc"]) (w_fs w)
  = Some (File "old")
  /\ fst r = Returned tt
  /\ lookup_path (ex_dest ++ ["team"; "blue-team"; "old.mdc"]) (w_fs (snd r))
     = Some (File "old")
  /\ lookup_opt ["team"; "blue-team"; "old.mdc"]
       (Some (Dir (mirror ["cloud-infra"] ex_src))) = None.
Proof. cbv zeta. repeat split; vm_compute; reflexivity. Qed.

(** C5 (amended).  When the recursive deletion of the destination fails
    for a reason other than ENOENT, [removeDestination] catches the
    error and logs a warning, the tree stays as it was, and [syncFiles]
    goes on with the creation of the destination and the copy phase:
    its outcome is theirs. *)
Theorem C5_rm_failure_swallowed (refuses : Refusals) (repo : path)
  (cfg : RulesConfig) (w : World) (e : Error) :
  rm_error refuses (rulesFolderPath cfg) w = Some e ->
  code_is ENOENT e = false ->
  syncFiles refuses repo cfg w
  = (fs_mkdir refuses (rulesFolderPath cfg) ;;
     copyRulesFromRepo refuses repo cfg ;;
     log LInfo "File sync completed")
      (add_log LWarn
         ("Failed to remove destination directory: " ++ show_error e)
         (add_log LDebug "Removing destination directory entirely"
            (add_log LInfo
               ("Starting file sync from " ++ show_path repo ++ " to "
                  ++ show_path (rulesFolderPath cfg)) w))).
Proof.
  intros He Hc. unfold syncFiles. rewrite log_bind.
  unfold removeDestination. rewrite bind_assoc, log_bind.
  unfold bind at 1. unfold try_catch, bind at 1. unfold fs_rm.
  unfold rm_error in He. simpl.
  destruct (refuses (OpRm (rulesFolderPath cfg))) as [c|].
  - injection He as <-. now rewrite Hc.
  - destruct (blocked_by_file (rulesFolderPath cfg) (Some (w_fs w)));
      [|discriminate].
    injection He as <-. reflexivity.
Qed.

Lemma C5_rm_failure_swallowed_witness :
  syncFiles refuse_rm ex_repoPath (ex_cfg ["cloud-infra"])
    (ex_world (Some ex_stale) ["cloud-infra"])
  = (fs_mkdir refuse_rm ex_dest ;;
     copyRulesFromRepo refuse_rm ex_repoPath (ex_cfg ["cloud-infra"]) ;;
     log LInfo "File sync completed")
      (add_log LWarn
         ("Failed to remove destination directory: "
            ++ show_error (fs_error EACCES "rm" ex_dest))
         (add_log LDebug "Removing destination directory entirely"
            (add_log LInfo
               ("Starting file sync from " ++ show_path ex_repoPath
                  ++ " to " ++ show_path ex_dest)
               (ex_world (Some ex_stale) ["cloud-infra"])))).
Proof.
  exact (C5_rm_failure_swallowed refuse_rm ex_repoPath
           (ex_cfg ["cloud-infra"])
           (ex_world (Some ex_stale) ["cloud-infra"])
           (fs_error EACCES "rm" ex_dest) eq_refl eq_refl).
Defined.

(** C5 fails as stated: the deletion of the destination is refused with
    EACCES, yet [syncFiles] does not throw; it runs the copy phase (the
    destination now holds [general/tone.mdc]) and returns. *)
Lemma C5_counterexample :
  let w := ex_world (Some ex_stale) ["cloud-infra"] in
  let r := syncFiles refuse_rm ex_repoPath (ex_cfg ["cloud-infra"]) w in
  rm_error refuse_rm ex_dest w = Some (fs_error EACCES "rm" ex_dest)
  /\ lookup_path (ex_dest ++ ["general"; "tone.mdc"]) (w_fs w) = None
  /\ fst r = Returned tt
  /\ lookup_path (ex_dest ++ ["general"; "tone.mdc"]) (w_fs (snd r))
     = Some (File "tone").
Proof. cbv zeta. repeat split; vm_compute; reflexivity. Qed.

(** C8.  A selected team that is no directory under a team-like source
    directory does not make the mirror fail: with nothing refused by the
    operating system the run returns, the destination has no entry for
    that team, the absence is logged at the information level, and the
    run logs nothing above that level. *)
Theorem C8_missing_team_non_fatal (refuses : Refusals) (repo : path)
  (cfg : RulesConfig) (src es : entries_t) (w : World) (T t : string) :
  (forall op, refuses op = None) ->
  disjoint (rulesFolderPath cfg) repo = true ->
  lookup_path repo (w_fs w) = Some (Dir src) ->
  wf_node (Dir src) = true ->
  forallb plain_name (teamNames cfg) = true ->
  blocked_by_file (rulesFolderPath cfg) (Some (w_fs w)) = false ->
  lookup_entry T src = Some (Dir es) ->
  hidden T = false -> team_like T = true ->
  In t (teamNames cfg) ->
  is_dir (lookup_entry t es) = false ->
  exists w',
    syncFiles refuses repo cfg w = (Returned tt, w')
    /\ lookup_path (rulesFolderPath cfg ++ [T; t]) (w_fs w') = None
    /\ In (LInfo,
           ("Team folder not found under " ++ T ++ "/: " ++ t
              ++ " (skipping)")%string) (w_log w')
    /\ (forall l m, In (l, m) (w_log w') ->
          In (l, m) (w_log w) \/ l = LInfo \/ l = LDebug).
Proof.
  intros Hno Hdisj Hrepo Hwf Hts Hb HT Hhid Hteam Hin Ht.
  destruct (syncFiles_progress refuses repo cfg src w
              Hno Hdisj Hts Hrepo Hwf Hb) as (w' & H).
  assert (Hrm : rm_succeeds refuses (rulesFolderPath cfg) w = true).
  { unfold rm_succeeds. now rewrite Hno, Hb. }
  destruct (syncFiles_cleared refuses repo cfg src w w'
              Hdisj Hts Hrepo Hwf Hrm H) as (Hd & _ & Hlog).
  assert (Hnd : NoDup (map fst src)).
  { rewrite wf_node_Dir in Hwf. apply andb_true_iff in Hwf as [Hwf _].
    apply andb_true_iff in Hwf as [Hnd _]. now apply nodupb_NoDup. }
  exists w'. repeat split; auto.
  - rewrite lookup_path_app, Hd. simpl.
    rewrite (lookup_mirror _ _ _ Hnd), HT, Hhid, Hteam.
    rewrite lookup_select_teams.
    destruct (existsb (String.eqb t) (teamNames cfg)); auto.
    destruct (lookup_entry t es) as [[|]|]; auto. discriminate.
  - rewrite Hlog. apply in_or_app. right.
    unfold mirror_log. apply in_or_app. right. apply in_or_app. left.
    apply in_flat_map. exists (T, Dir es). split.
    + now apply lookup_entry_In.
    + unfold entry_log. simpl. unfold hidden in Hhid.
      unfold team_like in Hteam. rewrite Hhid, Hteam.
      apply in_map_iff. exists t. split; auto.
      unfold team_log. now rewrite Ht.
  - intros l m Hl. rewrite Hlog in Hl. apply in_app_or in Hl as [Hl|Hl];
      auto.
    right. eapply mirror_log_levels; eauto.
Qed.

Lemma C8_missing_team_non_fatal_witness :
  exists w',
    syncFiles no_refusal ex_repoPath (ex_cfg ["cloud-infra"; "nope"])
      (ex_world None ["cloud-infra"; "nope"]) = (Returned tt, w')
    /\ lookup_path (ex_dest ++ ["team"; "nope"]) (w_fs w') = None
    /\ In (LInfo, "Team folder not found under team/: nope (skipping)")
         (w_log w')
    /\ (forall l m, In (l, m) (w_log w') ->
          In (l, m) (w_log (ex_world None ["cloud-infra"; "nope"]))
          \/ l = LInfo \/ l = LDebug).
Proof.
  refine (C8_missing_team_non_fatal no_refusal ex_repoPath
            (ex_cfg ["cloud-infra"; "nope"]) ex_src
            [("cloud-infra", Dir [("general.mdc", File "cloud")]);
             ("blue-team", Dir [("general.mdc", File "blue")])]
            (ex_world None ["cloud-infra"; "nope"]) "team" "nope"
            (fun _ => eq_refl) _ _ _ _ _ _ _ _ _ _);
    try (vm_compute; reflexivity).
  simpl. auto.
Defined.

(* ================================================================== *)
(** * The copy phase over a destination that was not cleared *)
(* ================================================================== *)

Lemma fs_cp_allowed (refuses : Refusals) (src dest : path) (w w' : World) :
  fs_cp refuses src dest w = (Returned tt, w') ->
  allowed refuses (OpCp src dest) = true.
Proof.
  unfold fs_cp, allowed.
  now destruct (refuses (OpCp src dest)).
Qed.

Lemma fs_mkdir_allowed (refuses : Refusals) (p : path) (w w' : World) :
  fs_mkdir refuses p w = (Returned tt, w') ->
  allowed refuses (OpMkdir p) = true.
Proof.
  unfold fs_mkdir, allowed.
  now destruct (refuses (OpMkdir p)).
Qed.

Lemma allowed_None (refuses : Refusals) (op : fsop) :
  allowed refuses op = true -> refuses op = None.
Proof. unfold allowed. now destruct (refuses op). Qed.

(** [mkdir -p] below an existing [p] goes through when it does in what
    [p] holds. *)
Lemma mkdirp_under_runs (p q : path) (o : option node) (n n' : node) :
  lookup_opt p o = Some n -> mkdirp q (Some n) = Some n' ->
  exists r, mkdirp (p ++ q) o = Some r.
Proof.
  revert o; induction p as [|c p IH]; intros o H Hm; simpl in *.
  - subst o. eauto.
  - destruct o as [[|es]|]; try discriminate.
    destruct (IH _ H Hm) as (r & ->). eauto.
Qed.

Section MergePhase.
Variable refuses : Refusals.
Variables repo dest : path.
Variable src : entries_t.
Hypothesis Hdisj : disjoint dest repo = true.

Lemma repo_framed (x : path) : is_prefix repo (dest ++ x) = false.
Proof.
  pose proof (disjoint_app_l dest repo x Hdisj) as H.
  unfold disjoint in H. apply andb_true_iff in H as [_ H].
  now apply negb_true_iff in H.
Qed.

Lemma copyTeam_merges (T t : string) (es E ET : entries_t)
  (w w' : World) :
  plain_name T = true -> plain_name t = true ->
  lookup_path repo (w_fs w) = Some (Dir src) ->
  lookup_entry T src = Some (Dir es) ->
  lookup_path dest (w_fs w) = Some (Dir (upsert T (Dir ET) E)) ->
  copyTeam refuses T (repo ++ [T]) (dest ++ [T]) t w = (Returned tt, w') ->
  exists ET',
    keyed_step (fun t => t) (team_copy es) ET t = Some ET'
    /\ lookup_path dest (w_fs w') = Some (Dir (upsert T (Dir ET') E))
    /\ lookup_path repo (w_fs w') = Some (Dir src)
    /\ team_allowed refuses repo dest T es t = true.
Proof.
  intros HT Ht Hrepo HTsrc Hdest H.
  unfold copyTeam in H. rewrite !path_join_plain in H by assumption.
  apply bind_returned in H as (found & w1 & Hd & H).
  unfold directoryExists, stat_isDirectory in Hd.
  injection Hd as <- <-.
  assert (Hlk : lookup_path ((repo ++ [T]) ++ [t]) (w_fs w)
                = lookup_entry t es).
  { rewrite !lookup_path_app, Hrepo. simpl. now rewrite HTsrc. }
  rewrite Hlk in H. unfold keyed_step, team_copy, team_allowed.
  destruct (lookup_entry t es) as [[c|sub]|] eqn:Et; simpl in H;
    try (injection H as <-; exists ET; simpl; auto).
  apply bind_returned in H as ([] & w2 & Hcp & H).
  injection H as <-.
  pose proof (fs_cp_allowed _ _ _ _ _ Hcp) as Hal.
  apply fs_cp_returned in Hcp as (s & r & d' & Hs & Hr & Hcp & ->).
  unfold add_log, set_fs. cbn [w_fs]. rewrite Hlk in Hs.
  injection Hs as <-.
  assert (HdT : lookup_path (dest ++ [T]) (w_fs w) = Some (Dir ET)).
  { rewrite lookup_path_app, Hdest. simpl. now rewrite lookup_upsert_same. }
  unfold path_dirname in Hr. rewrite removelast_last in Hr.
  rewrite mkdirp_existing in Hr
    by (fold (lookup_path (dest ++ [T]) (w_fs w)); now rewrite HdT).
  injection Hr as <-.
  rewrite lookup_path_app, HdT in Hcp. cbn [lookup_opt] in Hcp.
  exists (upsert t d' ET). rewrite Hcp. split; [reflexivity|].
  rewrite !lookup_update_path_const. repeat split; auto.
  - rewrite <- app_assoc.
    rewrite (lookup_update_under dest _ _ _ _ Hdest). simpl.
    rewrite lookup_upsert_same. cbn [set_entry].
    now rewrite upsert_upsert.
  - rewrite lookup_update_disjoint; auto.
    rewrite <- app_assoc. now apply disjoint_app_l.
Qed.

Lemma copyTeam_runs (T t : string) (es E ET ET' : entries_t) (w : World) :
  plain_name T = true -> plain_name t = true ->
  lookup_path repo (w_fs w) = Some (Dir src) ->
  lookup_entry T src = Some (Dir es) ->
  lookup_path dest (w_fs w) = Some (Dir (upsert T (Dir ET) E)) ->
  team_allowed refuses repo dest T es t = true ->
  keyed_step (fun t => t) (team_copy es) ET t = Some ET' ->
  exists w',
    copyTeam refuses T (repo ++ [T]) (dest ++ [T]) t w = (Returned tt, w').
Proof.
  intros HT Ht Hrepo HTsrc Hdest Hal Hstep.
  unfold copyTeam. rewrite !path_join_plain by assumption.
  unfold bind, directoryExists, stat_isDirectory.
  assert (Hlk : lookup_path ((repo ++ [T]) ++ [t]) (w_fs w)
                = lookup_entry t es).
  { rewrite !lookup_path_app, Hrepo. simpl. now rewrite HTsrc. }
  rewrite Hlk. unfold keyed_step, team_copy in Hstep.
  unfold team_allowed in Hal.
  destruct (lookup_entry t es) as [[c|sub]|] eqn:Et; simpl;
    try (eexists; reflexivity).
  destruct (cp_node (Dir sub) (lookup_entry t ET)) as [d'|] eqn:Ecp;
    [|discriminate].
  assert (HdT : lookup_path (dest ++ [T]) (w_fs w) = Some (Dir ET)).
  { rewrite lookup_path_app, Hdest. simpl. now rewrite lookup_upsert_same. }
  unfold copyRecursive.
  rewrite (fs_cp_runs refuses _ _ w (Dir sub) (w_fs w) d').
  - eexists; reflexivity.
  - now apply allowed_None.
  - congruence.
  - rewrite <- !app_assoc. now apply disjoint_not_prefix.
  - unfold path_dirname. rewrite removelast_last.
    apply mkdirp_existing.
    fold (lookup_path (dest ++ [T]) (w_fs w)). now rewrite HdT.
  - rewrite lookup_path_app, HdT. cbn [lookup_opt]. exact Ecp.
Qed.

Lemma copyTeams_merges (T : string) (es E : entries_t) (ts : list string) :
  plain_name T = true -> forallb plain_name ts = true ->
  lookup_entry T src = Some (Dir es) ->
  forall (ET : entries_t) (w w' : World),
  lookup_path repo (w_fs w) = Some (Dir src) ->
  lookup_path dest (w_fs w) = Some (Dir (upsert T (Dir ET) E)) ->
  for_each ts (copyTeam refuses T (repo ++ [T]) (dest ++ [T])) w
  = (Returned tt, w') ->
  exists ET',
    merge_team es ts ET = Some ET'
    /\ lookup_path dest (w_fs w') = Some (Dir (upsert T (Dir ET') E))
    /\ lookup_path repo (w_fs w') = Some (Dir src)
    /\ forallb (team_allowed refuses repo dest T es) ts = true.
Proof.
  intros HT Hts HTsrc.
  induction ts as [|t ts IH]; intros ET w w' Hrepo Hdest H.
  - injection H as <-. exists ET. auto.
  - simpl in Hts. apply andb_true_iff in Hts as [Ht Hts].
    apply for_each_cons in H as (w1 & H1 & H2).
    destruct (copyTeam_merges T t es E ET w w1
                HT Ht Hrepo HTsrc Hdest H1) as (ET1 & Hm & Hd1 & Hr1 & Ha).
    destruct (IH Hts ET1 w1 w' Hr1 Hd1 H2)
      as (ET' & Hm' & Hd' & Hr' & Ha').
    exists ET'. unfold merge_team. cbn [fold_opt forallb].
    rewrite Hm, Ha, Ha'. auto.
Qed.

Lemma copyTeams_runs (T : string) (es E : entries_t) (ts : list string) :
  plain_name T = true -> forallb plain_name ts = true ->
  lookup_entry T src = Some (Dir es) ->
  forallb (team_allowed refuses repo dest T es) ts = true ->
  forall (ET ET' : entries_t) (w : World),
  lookup_path repo (w_fs w) = Some (Dir src) ->
  lookup_path dest (w_fs w) = Some (Dir (upsert T (Dir ET) E)) ->
  merge_team es ts ET = Some ET' ->
  exists w',
    for_each ts (copyTeam refuses T (repo ++ [T]) (dest ++ [T])) w
    = (Returned tt, w').
Proof.
  intros HT Hts HTsrc.
  induction ts as [|t ts IH]; intros Hal ET ET' w Hrepo Hdest Hm.
  - eexists; reflexivity.
  - simpl in Hts. apply andb_true_iff in Hts as [Ht Hts].
    simpl in Hal. apply andb_true_iff in Hal as [Ha Hal].
    unfold merge_team in Hm. cbn [fold_opt] in Hm.
    destruct (keyed_step (fun t => t) (team_copy es) ET t) as [ET1|] eqn:E1;
      [|discriminate].
    destruct (copyTeam_runs T t es E ET ET1 w HT Ht Hrepo HTsrc Hdest
                Ha E1) as (w1 & H1).
    destruct (copyTeam_merges T t es E ET w w1
                HT Ht Hrepo HTsrc Hdest H1) as (ET1' & Hm1 & Hd1 & Hr1 & _).
    rewrite E1 in Hm1. injection Hm1 as <-.
    destruct (IH Hts Hal ET1 ET' w1 Hr1 Hd1 Hm) as (w' & H').
    exists w'. apply (for_each_step _ _ _ _ w1); assumption.
Qed.

Lemma copyEntry_merges (cfg : RulesConfig) (k : string) (v : node)
  (E : entries_t) (w w' : World) :
  rulesFolderPath cfg = dest ->
  forallb plain_name (teamNames cfg) = true ->
  lookup_path repo (w_fs w) = Some (Dir src) ->
  lookup_entry k src = Some v -> plain_name k = true ->
  lookup_path dest (w_fs w) = Some (Dir E) ->
  copyEntry refuses repo cfg (k, is_dir_node v) w = (Returned tt, w') ->
  exists E',
    keyed_step fst (entry_copy (teamNames cfg)) E (k, v) = Some E'
    /\ lookup_path dest (w_fs w') = Some (Dir E')
    /\ lookup_path repo (w_fs w') = Some (Dir src)
    /\ entry_allowed refuses repo dest (teamNames cfg) (k, v) = true.
Proof.
  intros Hcfg Hts Hrepo Hk Hplain Hdest H.
  unfold copyEntry in H. unfold keyed_step, entry_copy, entry_allowed.
  destruct v as [c|es]; simpl in H; cbn [fst snd].
  { rewrite orb_true_r in H. injection H as <-. exists E. auto. }
  rewrite orb_false_r in H.
  destruct (prefix "." k) eqn:Ehid.
  { injection H as <-. exists E. auto. }
  rewrite Hcfg in H. rewrite !path_join_plain in H by assumption.
  destruct (prefix "team" k) eqn:Eteam.
  - apply bind_returned in H as ([] & w1 & Hmk & H).
    pose proof (fs_mkdir_allowed _ _ _ _ Hmk) as Hal.
    apply fs_mkdir_returned in Hmk as (r & Hr & ->).
    destruct (mkdirp_under dest [k] _ _ _ Hdest Hr) as (n' & Hn' & Hd1).
    cbn [mkdirp] in Hn'.
    assert (Hr1 : lookup_path repo r = Some (Dir src)).
    { unfold lookup_path.
      rewrite (mkdirp_frame _ repo _ _ Hr (repo_framed [k])).
      apply Hrepo. }
    destruct (lookup_entry k E) as [[c|ET]|] eqn:EkE; try discriminate;
      injection Hn' as <-; cbn [mkdirp].
    + destruct (copyTeams_merges k es E (teamNames cfg) Hplain Hts Hk
                  ET (set_fs r w) w' Hr1 Hd1 H)
        as (ET' & Hm & Hd2 & Hr2 & Ha).
      exists (upsert k (Dir ET') E). rewrite Hm, Hal, Ha. auto.
    + destruct (copyTeams_merges k es E (teamNames cfg) Hplain Hts Hk
                  [] (set_fs r w) w' Hr1 Hd1 H)
        as (ET' & Hm & Hd2 & Hr2 & Ha).
      exists (upsert k (Dir ET') E). rewrite Hm, Hal, Ha. auto.
  - apply bind_returned in H as ([] & w1 & Hcp & H).
    injection H as <-.
    pose proof (fs_cp_allowed _ _ _ _ _ Hcp) as Hal.
    apply fs_cp_returned in Hcp as (s & r & d' & Hs & Hr & Hcp & ->).
    unfold add_log, set_fs. cbn [w_fs].
    rewrite lookup_path_app, Hrepo in Hs. simpl in Hs.
    rewrite Hk in Hs. injection Hs as <-.
    unfold path_dirname in Hr. rewrite removelast_last in Hr.
    rewrite mkdirp_existing in Hr
      by (fold (lookup_path dest (w_fs w)); now rewrite Hdest).
    injection Hr as <-.
    rewrite lookup_path_app, Hdest in Hcp. cbn [lookup_opt] in Hcp.
    rewrite Hcp. exists (upsert k d' E). split; [reflexivity|].
    rewrite !lookup_update_path_const. repeat split; auto.
    + now rewrite (lookup_update_under dest _ _ _ _ Hdest).
    + rewrite lookup_update_disjoint; auto. now apply disjoint_app_l.
Qed.

Lemma copyEntry_runs (cfg : RulesConfig) (k : string) (v : node)
  (E E' : entries_t) (w : World) :
  rulesFolderPath cfg = dest ->
  forallb plain_name (teamNames cfg) = true ->
  lookup_path repo (w_fs w) = Some (Dir src) ->
  lookup_entry k src = Some v -> plain_name k = true ->
  lookup_path dest (w_fs w) = Some (Dir E) ->
  entry_allowed refuses repo dest (teamNames cfg) (k, v) = true ->
  keyed_step fst (entry_copy (teamNames cfg)) E (k, v) = Some E' ->
  exists w',
    copyEntry refuses repo cfg (k, is_dir_node v) w = (Returned tt, w').
Proof.
  intros Hcfg Hts Hrepo Hk Hplain Hdest Hal Hstep.
  unfold copyEntry.
  unfold keyed_step, entry_copy in Hstep. unfold entry_allowed in Hal.
  destruct v as [c|es]; simpl; cbn [fst snd] in Hstep, Hal.
  { rewrite orb_true_r. eexists; reflexivity. }
  rewrite orb_false_r.
  destruct (prefix "." k) eqn:Ehid.
  { eexists; reflexivity. }
  rewrite Hcfg. rewrite !path_join_plain by assumption.
  destruct (prefix "team" k) eqn:Eteam.
  - apply andb_true_iff in Hal as [Hmk Hal].
    destruct (mkdirp [] (lookup_entry k E)) as [[c|ET]|] eqn:Em;
      try discriminate.
    destruct (merge_team es (teamNames cfg) ET) as [ET'|] eqn:Emt;
      [|discriminate].
    assert (Hm1 : mkdirp [k] (Some (Dir E))
                  = Some (Dir (upsert k (Dir ET) E))).
    { cbn [mkdirp] in *. now rewrite Em. }
    destruct (mkdirp_under_runs dest [k] _ _ _ Hdest Hm1) as (r & Hr).
    unfold bind at 1. unfold fs_mkdir.
    rewrite (allowed_None _ _ Hmk), Hr.
    destruct (mkdirp_under dest [k] _ _ _ Hdest Hr) as (n' & Hn' & Hd1).
    rewrite Hm1 in Hn'. injection Hn' as <-.
    assert (Hr1 : lookup_path repo r = Some (Dir src)).
    { unfold lookup_path.
      rewrite (mkdirp_frame _ repo _ _ Hr (repo_framed [k])).
      apply Hrepo. }
    apply (copyTeams_runs k es E (teamNames cfg) Hplain Hts Hk Hal
             ET ET' (set_fs r w) Hr1 Hd1 Emt).
  - destruct (cp_node (Dir es) (lookup_entry k E)) as [d'|] eqn:Ecp;
      [|discriminate].
    unfold bind, copyRecursive.
    rewrite (fs_cp_runs refuses _ _ w (Dir es) (w_fs w) d').
    + eexists; reflexivity.
    + now apply allowed_None.
    + rewrite lookup_path_app, Hrepo. simpl. now rewrite Hk.
    + now apply disjoint_not_prefix.
    + unfold path_dirname. rewrite removelast_last.
      apply mkdirp_existing.
      fold (lookup_path dest (w_fs w)). now rewrite Hdest.
    + rewrite lookup_path_app, Hdest. cbn [lookup_opt]. exact Ecp.
Qed.

Lemma copyEntries_merges (cfg : RulesConfig) (l : entries_t) :
  rulesFolderPath cfg = dest ->
  forallb plain_name (teamNames cfg) = true ->
  (forall e, In e l -> lookup_entry (fst e) src = Some (snd e)
                       /\ plain_name (fst e) = true) ->
  forall (E : entries_t) (w w' : World),
  lookup_path repo (w_fs w) = Some (Dir src) ->
  lookup_path dest (w_fs w) = Some (Dir E) ->
  for_each (map dirent l) (copyEntry refuses repo cfg) w
  = (Returned tt, w') ->
  exists E',
    merge_all (teamNames cfg) l E = Some E'
    /\ lookup_path dest (w_fs w') = Some (Dir E')
    /\ lookup_path repo (w_fs w') = Some (Dir src)
    /\ forallb (entry_allowed refuses repo dest (teamNames cfg)) l = true.
Proof.
  intros Hcfg Hts. induction l as [|[k v] l IH];
    intros Hl E w w' Hrepo Hdest H.
  - injection H as <-. exists E. auto.
  - simpl map in H. apply for_each_cons in H as (w1 & H1 & H2).
    destruct (Hl (k, v)) as [Hkv Hplain]; [now left|].
    simpl in Hkv, Hplain, H1.
    destruct (copyEntry_merges cfg k v E w w1 Hcfg Hts Hrepo Hkv Hplain
                Hdest H1) as (E1 & Hm & Hd1 & Hr1 & Ha).
    destruct (IH (fun e He => Hl e (or_intror He)) E1 w1 w' Hr1 Hd1 H2)
      as (E' & Hm' & Hd' & Hr' & Ha').
    exists E'. unfold merge_all. cbn [fold_opt forallb].
    rewrite Hm, Ha, Ha'. auto.
Qed.

Lemma copyEntries_runs (cfg : RulesConfig) (l : entries_t) :
  rulesFolderPath cfg = dest ->
  forallb plain_name (teamNames cfg) = true ->
  (forall e, In e l -> lookup_entry (fst e) src = Some (snd e)
                       /\ plain_name (fst e) = true) ->
  forallb (entry_allowed refuses repo dest (teamNames cfg)) l = true ->
  forall (E E' : entries_t) (w : World),
  lookup_path repo (w_fs w) = Some (Dir src) ->
  lookup_path dest (w_fs w) = Some (Dir E) ->
  merge_all (teamNames cfg) l E = Some E' ->
  exists w',
    for_each (map dirent l) (copyEntry refuses repo cfg) w
    = (Returned tt, w').
Proof.
  intros Hcfg Hts. induction l as [|[k v] l IH];
    intros Hl Hal E E' w Hrepo Hdest Hm.
  - eexists; reflexivity.
  - destruct (Hl (k, v)) as [Hkv Hplain]; [now left|].
    simpl in Hkv, Hplain.
    cbn [forallb] in Hal. apply andb_true_iff in Hal as [Ha Hal].
    unfold merge_all in Hm. cbn [fold_opt] in Hm.
    destruct (keyed_step fst (entry_copy (teamNames cfg)) E (k, v))
      as [E1|] eqn:E1eq; [|discriminate].
    destruct (copyEntry_runs cfg k v E E1 w Hcfg Hts Hrepo Hkv Hplain
                Hdest Ha E1eq) as (w1 & H1).
    destruct (copyEntry_merges cfg k v E w w1 Hcfg Hts Hrepo Hkv Hplain
                Hdest H1) as (E1' & Hm1 & Hd1 & Hr1 & _).
    rewrite E1eq in Hm1. injection Hm1 as <-.
    destruct (IH (fun e He => Hl e (or_intror He)) Hal E1 E' w1 Hr1 Hd1 Hm)
      as (w' & H').
    exists w'. simpl map. apply (for_each_step _ _ _ _ w1); assumption.
Qed.
End MergePhase.

(* ================================================================== *)
(** * Merging twice is merging once *)
(* ================================================================== *)

Section KeyedMerge.
Variable X : Type.
Variable key : X -> string.
Variable g : X -> option (option node -> option node).
Variable l : list X.
Hypothesis Hidem : forall x f o v,
  In x l -> g x = Some f -> f o = Some v -> f (Some v) = Some v.
Hypothesis Hkeys : forall x y,
  In x l -> In y l -> key x = key y -> g x = g y.

Lemma upsert_fixed (k : string) (v : node) (E : entries_t) :
  upsert k v E = E -> lookup_entry k E = Some v.
Proof. intros H. rewrite <- H. apply lookup_upsert_same. Qed.

(** A round leaves a state on which it changes nothing. *)
Lemma keyed_step_settles (x : X) (E E' : entries_t) :
  In x l -> keyed_step key g E x = Some E' ->
  keyed_step key g E' x = Some E'.
Proof.
  intros Hx. unfold keyed_step.
  destruct (g x) as [f|] eqn:Eg; [|intros _; reflexivity].
  destruct (f (lookup_entry (key x) E)) as [v|] eqn:Ef; [|discriminate].
  intros [= <-]. rewrite lookup_upsert_same.
  rewrite (Hidem x f _ v Hx Eg Ef). simpl. now rewrite upsert_upsert.
Qed.

(** A state on which the round of [x] changes nothing stays so through
    the round of [y]. *)
Lemma keyed_step_keeps (x y : X) (E E' : entries_t) :
  In x l -> In y l ->
  keyed_step key g E x = Some E -> keyed_step key g E y = Some E' ->
  keyed_step key g E' x = Some E'.
Proof.
  intros Hx Hy Hsx Hsy.
  destruct (key x =? key y) eqn:Ek.
  - apply String.eqb_eq in Ek.
    assert (Heq : keyed_step key g E y = keyed_step key g E x).
    { unfold keyed_step. now rewrite (Hkeys x y Hx Hy Ek), Ek. }
    rewrite Heq, Hsx in Hsy. now injection Hsy as <-.
  - unfold keyed_step in *.
    destruct (g x) as [f|] eqn:Egx; [|reflexivity].
    destruct (g y) as [f'|] eqn:Egy; [|now injection Hsy as <-].
    destruct (f' (lookup_entry (key y) E)) as [v'|]; [|discriminate].
    injection Hsy as <-.
    rewrite lookup_upsert_other by assumption.
    destruct (f (lookup_entry (key x) E)) as [v|]; [|discriminate].
    injection Hsx as Hsx. apply upsert_fixed in Hsx. simpl. f_equal.
    apply upsert_present. now rewrite lookup_upsert_other.
Qed.

Lemma fold_settles (l' : list X) :
  incl l' l ->
  forall E E', fold_opt (keyed_step key g) l' E = Some E' ->
  (forall x, In x l -> keyed_step key g E x = Some E ->
             keyed_step key g E' x = Some E')
  /\ (forall x, In x l' -> keyed_step key g E' x = Some E').
Proof.
  induction l' as [|y l' IH]; intros Hincl E E' H.
  - injection H as <-. split; auto. intros x [].
  - simpl in H.
    destruct (keyed_step key g E y) as [E1|] eqn:Ey; [|discriminate].
    assert (Hy : In y l) by (apply Hincl; now left).
    destruct (IH (fun x Hx => Hincl x (or_intror Hx)) E1 E' H) as [Hk Hs].
    split.
    + intros x Hx Hset. apply Hk; auto.
      apply (keyed_step_keeps x y E E1); auto.
    + intros x [<-|Hx]; auto. apply Hk; auto.
      apply (keyed_step_settles y E E1); auto.
Qed.

Lemma fold_settled (l' : list X) (E : entries_t) :
  (forall x, In x l' -> keyed_step key g E x = Some E) ->
  fold_opt (keyed_step key g) l' E = Some E.
Proof.
  induction l' as [|y l' IH]; intros H; simpl; auto.
  rewrite (H y) by now left. apply IH. intros x Hx. apply H. now right.
Qed.

(** The loop, run on what it produced, produces it again. *)
Lemma fold_idem (E E' : entries_t) :
  fold_opt (keyed_step key g) l E = Some E' ->
  fold_opt (keyed_step key g) l E' = Some E'.
Proof.
  intros H. apply fold_settled.
  apply (fold_settles l (fun x Hx => Hx) E E' H).
Qed.
End KeyedMerge.

Lemma cp_entries_fold (es ds : entries_t) :
  cp_entries es ds = fold_opt (keyed_step fst entry_cp) es ds.
Proof.
  revert ds; induction es as [|[k v] es IH]; intros ds; simpl; auto.
  unfold keyed_step at 1. simpl.
  destruct (cp_node v (lookup_entry k ds)); simpl; auto.
Qed.

Lemma NoDup_same_entry (es : entries_t) (x y : string * node) :
  NoDup (map fst es) -> In x es -> In y es -> fst x = fst y -> x = y.
Proof.
  intros Hnd Hx Hy Hk. destruct x as [k v], y as [k' v'].
  simpl in Hk. subst k'.
  pose proof (In_lookup_entry k v es Hnd Hx) as H1.
  pose proof (In_lookup_entry k v' es Hnd Hy) as H2.
  congruence.
Qed.

(** [fs.cp] of a well-formed tree over its own result changes
    nothing. *)
Lemma cp_idem (s : node) :
  wf_node s = true ->
  forall o d, cp_node s o = Some d -> cp_node s (Some d) = Some d.
Proof.
  induction s as [c|es IH] using node_ind'; intros Hwf o d H.
  - destruct o as [[|]|]; simpl in H; try discriminate;
      injection H as <-; reflexivity.
  - rewrite wf_node_Dir in Hwf.
    apply andb_true_iff in Hwf as [Hwf Hall].
    apply andb_true_iff in Hwf as [Hnd _].
    apply nodupb_NoDup in Hnd. apply wf_all_Forall in Hall.
    rewrite Forall_forall in IH, Hall.
    assert (Hfix : forall ds0 ds, cp_entries es ds0 = Some ds ->
                                  cp_entries es ds = Some ds).
    { intros ds0 ds. rewrite !cp_entries_fold.
      apply fold_idem.
      - intros x f o' v Hx [= <-]. apply IH; auto.
      - intros x y Hx Hy Hk.
        now rewrite (NoDup_same_entry es x y Hnd Hx Hy Hk). }
    rewrite cp_node_Dir in *.
    destruct o as [[|ds0]|]; try discriminate.
    + destruct (cp_entries es ds0) as [ds|] eqn:E; [|discriminate].
      injection H as <-. now rewrite (Hfix _ _ E).
    + destruct (cp_entries es []) as [ds|] eqn:E; [|discriminate].
      injection H as <-. now rewrite (Hfix _ _ E).
Qed.

Lemma merge_team_idem (es : entries_t) (ts : list string)
  (ET ET' : entries_t) :
  wf_all es = true ->
  merge_team es ts ET = Some ET' -> merge_team es ts ET' = Some ET'.
Proof.
  intros Hwf. apply fold_idem.
  - intros t f o v _. unfold team_copy.
    destruct (lookup_entry t es) as [[|sub]|] eqn:Et; try discriminate.
    intros Hf Hv. injection Hf as <-.
    exact (cp_idem (Dir sub) (wf_lookup_entry t es _ Hwf Et) o v Hv).
  - now intros x y _ _ ->.
Qed.

Lemma merge_all_idem (teams : list string) (src E E' : entries_t) :
  wf_node (Dir src) = true ->
  merge_all teams src E = Some E' -> merge_all teams src E' = Some E'.
Proof.
  intros Hwf. rewrite wf_node_Dir in Hwf.
  apply andb_true_iff in Hwf as [Hwf Hall].
  apply andb_true_iff in Hwf as [Hnd _].
  apply nodupb_NoDup in Hnd. apply wf_all_Forall in Hall.
  rewrite Forall_forall in Hall.
  apply fold_idem.
  - intros [k v] f o d Hx. unfold entry_copy. simpl.
    pose proof (Hall _ Hx) as Hv. simpl in Hv.
    destruct v as [c|es]; [discriminate|].
    destruct (prefix "." k); [discriminate|].
    destruct (prefix "team" k); intros Hf Hd; injection Hf as <-.
    + rewrite wf_node_Dir in Hv. apply andb_true_iff in Hv as [_ Hes].
      destruct o as [[c|ET]|]; try discriminate.
      * destruct (merge_team es teams ET) as [ET'|] eqn:Em;
          [|discriminate].
        injection Hd as <-. cbn [option_map].
        now rewrite (merge_team_idem es teams ET ET' Hes Em).
      * destruct (merge_team es teams []) as [ET'|] eqn:Em;
          [|discriminate].
        injection Hd as <-. cbn [option_map].
        now rewrite (merge_team_idem es teams [] ET' Hes Em).
    + exact (cp_idem (Dir es) Hv o d Hd).
  - intros x y Hx Hy Hk.
    now rewrite (NoDup_same_entry src x y Hnd Hx Hy Hk).
Qed.

Lemma wf_entries (src : entries_t) :
  wf_node (Dir src) = true ->
  forall e, In e src ->
    lookup_entry (fst e) src = Some (snd e) /\ plain_name (fst e) = true.
Proof.
  intros Hwf [k v] Hin. rewrite wf_node_Dir in Hwf.
  apply andb_true_iff in Hwf as [Hwf _].
  apply andb_true_iff in Hwf as [Hnd Hpl]. simpl. split.
  - apply In_lookup_entry; auto. now apply nodupb_NoDup.
  - rewrite forallb_forall in Hpl. apply Hpl.
    now apply (in_map fst) in Hin.
Qed.

(** A mirror that returned, whatever became of the deletion: the
    destination holds the merge of the source over the entries the copy
    phase started from, and every operation was let through. *)
Lemma syncFiles_merges (refuses : Refusals) (repo : path)
  (cfg : RulesConfig) (src : entries_t) (w w' : World) :
  disjoint (rulesFolderPath cfg) repo = true ->
  forallb plain_name (teamNames cfg) = true ->
  lookup_path repo (w_fs w) = Some (Dir src) ->
  wf_node (Dir src) = true ->
  syncFiles refuses repo cfg w = (Returned tt, w') ->
  exists E',
    merge_all (teamNames cfg) src
      (start_entries refuses (rulesFolderPath cfg) w) = Some E'
    /\ lookup_path (rulesFolderPath cfg) (w_fs w') = Some (Dir E')
    /\ lookup_path repo (w_fs w') = Some (Dir src)
    /\ allowed refuses (OpMkdir (rulesFolderPath cfg)) = true
    /\ forallb (entry_allowed refuses repo (rulesFolderPath cfg)
                  (teamNames cfg)) src = true
    /\ blocked_by_file (rulesFolderPath cfg) (Some (w_fs w)) = false.
Proof.
  intros Hdisj Hts Hrepo Hwf H.
  unfold syncFiles in H. rewrite log_bind in H.
  set (w0 := add_log _ _ w) in H.
  assert (Hfs0 : w_fs w0 = w_fs w) by reflexivity.
  assert (Hrm0 : rm_succeeds refuses (rulesFolderPath cfg) w0
                 = rm_succeeds refuses (rulesFolderPath cfg) w)
    by reflexivity.
  clearbody w0.
  apply bind_returned in H as ([] & w1 & H1 & H).
  destruct (removeDestination_returns refuses (rulesFolderPath cfg) w0)
    as (w1' & H1' & Hfs1 & _).
  rewrite H1 in H1'. injection H1' as <-.
  apply bind_returned in H as ([] & w2 & H2 & H).
  pose proof (fs_mkdir_allowed _ _ _ _ H2) as Hal.
  apply fs_mkdir_returned in H2 as (r & Hr & ->).
  apply bind_returned in H as ([] & w3 & H3 & H). injection H as <-.
  apply bind_returned in H3 as (ents & w4 & H4 & H3).
  rewrite Hrm0, Hfs0 in Hfs1.
  pose proof (disjoint_nonempty _ _ Hdisj) as Hne.
  assert (Hb : blocked_by_file (rulesFolderPath cfg) (Some (w_fs w))
               = false).
  { destruct (blocked_by_file (rulesFolderPath cfg) (Some (w_fs w)))
      eqn:Eb; auto.
    assert (Hrmf : rm_succeeds refuses (rulesFolderPath cfg) w = false).
    { unfold rm_succeeds. rewrite Eb.
      now destruct (refuses (OpRm (rulesFolderPath cfg))). }
    rewrite Hrmf in Hfs1. rewrite Hfs1 in Hr.
    rewrite (blocked_mkdirp _ _ Eb) in Hr. discriminate. }
  assert (Hr1 : lookup_path repo (w_fs w1) = Some (Dir src)).
  { rewrite Hfs1.
    destruct (rm_succeeds refuses (rulesFolderPath cfg) w); auto.
    rewrite lookup_after_rm by assumption.
    now rewrite lookup_update_disjoint. }
  assert (Hd2 : lookup_path (rulesFolderPath cfg) r
                = Some (Dir (start_entries refuses (rulesFolderPath cfg) w))).
  { unfold start_entries.
    destruct (rm_succeeds refuses (rulesFolderPath cfg) w) eqn:Erm.
    - assert (Hd1 : lookup_path (rulesFolderPath cfg) (w_fs w1) = None).
      { rewrite Hfs1, lookup_after_rm by assumption.
        apply lookup_remove_path. }
      apply (mkdirp_fresh _ _ _ Hd1 Hr).
    - rewrite Hfs1 in Hr.
      destruct (lookup_path (rulesFolderPath cfg) (w_fs w))
        as [n|] eqn:El.
      + rewrite <- (app_nil_r (rulesFolderPath cfg)) in Hr.
        destruct (mkdirp_under _ [] _ _ _ El Hr) as (n' & Hn' & Hl').
        destruct n as [c|E]; [discriminate|].
        injection Hn' as <-. exact Hl'.
      + apply (mkdirp_fresh _ _ _ El Hr). }
  assert (Hr2 : lookup_path repo r = Some (Dir src)).
  { unfold lookup_path. rewrite (mkdirp_frame _ repo _ _ Hr); auto.
    rewrite <- (app_nil_r (rulesFolderPath cfg)).
    now apply repo_framed. }
  unfold fs_readdir in H4. simpl in H4. rewrite Hr2 in H4.
  injection H4 as <- <-.
  destruct (copyEntries_merges refuses repo (rulesFolderPath cfg) src
              Hdisj cfg src eq_refl Hts (wf_entries src Hwf)
              _ (set_fs r w1) w3 Hr2 Hd2 H3)
    as (E' & Hm & Hd3 & Hr3 & Ha).
  exists E'. repeat split; auto.
Qed.

(** The mirror returns when the merge is defined and every operation
    is let through. *)
Lemma syncFiles_runs (refuses : Refusals) (repo : path)
  (cfg : RulesConfig) (src E' : entries_t) (w : World) :
  disjoint (rulesFolderPath cfg) repo = true ->
  forallb plain_name (teamNames cfg) = true ->
  lookup_path repo (w_fs w) = Some (Dir src) ->
  wf_node (Dir src) = true ->
  blocked_by_file (rulesFolderPath cfg) (Some (w_fs w)) = false ->
  allowed refuses (OpMkdir (rulesFolderPath cfg)) = true ->
  forallb (entry_allowed refuses repo (rulesFolderPath cfg)
             (teamNames cfg)) src = true ->
  merge_all (teamNames cfg) src
    (start_entries refuses (rulesFolderPath cfg) w) = Some E' ->
  (rm_succeeds refuses (rulesFolderPath cfg) w = false ->
   lookup_path (rulesFolderPath cfg) (w_fs w) <> None ->
   is_dir (lookup_path (rulesFolderPath cfg) (w_fs w)) = true) ->
  exists w', syncFiles refuses repo cfg w = (Returned tt, w').
Proof.
  intros Hdisj Hts Hrepo Hwf Hb Hal Hall Hm Hdir.
  unfold syncFiles. rewrite log_bind.
  set (w0 := add_log _ _ w).
  destruct (removeDestination_returns refuses (rulesFolderPath cfg) w0)
    as (w1 & H1 & Hfs1 & _).
  rewrite (bind_run _ _ _ _ _ H1).
  change (rm_succeeds refuses (rulesFolderPath cfg) w0)
    with (rm_succeeds refuses (rulesFolderPath cfg) w) in Hfs1.
  change (w_fs w0) with (w_fs w) in Hfs1.
  pose proof (disjoint_nonempty _ _ Hdisj) as Hne.
  assert (Hr1 : lookup_path repo (w_fs w1) = Some (Dir src)).
  { rewrite Hfs1.
    destruct (rm_succeeds refuses (rulesFolderPath cfg) w); auto.
    rewrite lookup_after_rm by assumption.
    now rewrite lookup_update_disjoint. }
  assert (Hmk : exists r,
             mkdirp (rulesFolderPath cfg) (Some (w_fs w1)) = Some r
             /\ lookup_path (rulesFolderPath cfg) r
                = Some (Dir (start_entries refuses (rulesFolderPath cfg) w))).
  { unfold start_entries. rewrite Hfs1.
    destruct (rm_succeeds refuses (rulesFolderPath cfg) w) eqn:Erm.
    - assert (Hd1 : lookup_opt (rulesFolderPath cfg)
                      (Some (update_path (rulesFolderPath cfg)
                               (fun _ => None) (w_fs w))) = None).
      { fold (lookup_path (rulesFolderPath cfg)
                (update_path (rulesFolderPath cfg) (fun _ => None)
                   (w_fs w))).
        rewrite lookup_after_rm by assumption.
        apply lookup_remove_path. }
      assert (Hb1 : blocked_by_file (rulesFolderPath cfg)
                      (Some (update_path (rulesFolderPath cfg)
                               (fun _ => None) (w_fs w))) = false).
      { destruct (rulesFolderPath cfg) as [|c p] eqn:Ep; [congruence|].
        rewrite <- update_opt_cons. now rewrite blocked_after_rm. }
      destruct (mkdirp_absent _ _ Hb1 Hd1) as (r & Hr).
      exists r. split; auto. apply (mkdirp_fresh _ _ _ Hd1 Hr).
    - destruct (lookup_path (rulesFolderPath cfg) (w_fs w))
        as [n|] eqn:El.
      + assert (Hn : is_dir (Some n) = true)
          by (apply Hdir; [reflexivity | discriminate]).
        destruct n as [c|E]; [discriminate|].
        exists (w_fs w). split; auto.
        apply mkdirp_existing. unfold lookup_path in El. now rewrite El.
      + destruct (mkdirp_absent _ _ Hb El) as (r & Hr).
        exists r. split; auto. apply (mkdirp_fresh _ _ _ El Hr). }
  destruct Hmk as (r & Hr & Hd2).
  assert (Hmkdir : fs_mkdir refuses (rulesFolderPath cfg) w1
                   = (Returned tt, set_fs r w1)).
  { unfold fs_mkdir. now rewrite (allowed_None _ _ Hal), Hr. }
  rewrite (bind_run _ _ _ _ _ Hmkdir).
  assert (Hr2 : lookup_path repo r = Some (Dir src)).
  { unfold lookup_path. rewrite (mkdirp_frame _ repo _ _ Hr); auto.
    rewrite <- (app_nil_r (rulesFolderPath cfg)).
    now apply repo_framed. }
  destruct (copyEntries_runs refuses repo (rulesFolderPath cfg) src
              Hdisj cfg src eq_refl Hts (wf_entries src Hwf) Hall
              _ E' (set_fs r w1) Hr2 Hd2 Hm) as (w3 & H3).
  assert (Hcopy : copyRulesFromRepo refuses repo cfg (set_fs r w1)
                  = (Returned tt, w3)).
  { unfold copyRulesFromRepo. unfold bind at 1. unfold fs_readdir.
    simpl. now rewrite Hr2. }
  rewrite (bind_run _ _ _ _ _ Hcopy).
  eexists. reflexivity.
Qed.

(* ================================================================== *)
(** * The mirror run twice *)
(* ================================================================== *)

(** C9 (amended).  Let the source be a well-formed directory apart from
    the destination and the team names be plain names, and let a run of
    [syncFiles] return.  A second run right after it in the same
    environment (the operating system refuses the same operations), the
    source unchanged, returns as well and leaves at the destination the
    very tree the first run left there, entry for entry and byte for
    byte; the source is still as it was.  In any environment, a second
    run that returns leaves that same tree, unless the recursive
    deletion was refused in the first run and went through in the
    second. *)
Theorem C9_mirror_idempotent (refuses : Refusals) (repo : path)
  (cfg : RulesConfig) (src : entries_t) (w w1 : World) :
  disjoint (rulesFolderPath cfg) repo = true ->
  forallb plain_name (teamNames cfg) = true ->
  lookup_path repo (w_fs w) = Some (Dir src) ->
  wf_node (Dir src) = true ->
  syncFiles refuses repo cfg w = (Returned tt, w1) ->
  (exists w2,
     syncFiles refuses repo cfg w1 = (Returned tt, w2)
     /\ lookup_path (rulesFolderPath cfg) (w_fs w2)
        = lookup_path (rulesFolderPath cfg) (w_fs w1)
     /\ is_dir (lookup_path (rulesFolderPath cfg) (w_fs w1)) = true
     /\ lookup_path repo (w_fs w2) = Some (Dir src))
  /\ (forall (refuses' : Refusals) (w2 : World),
        syncFiles refuses' repo cfg w1 = (Returned tt, w2) ->
        rm_succeeds refuses (rulesFolderPath cfg) w = true
        \/ rm_succeeds refuses' (rulesFolderPath cfg) w1 = false ->
        lookup_path (rulesFolderPath cfg) (w_fs w2)
        = lookup_path (rulesFolderPath cfg) (w_fs w1)).
Proof.
  intros Hdisj Hts Hrepo Hwf H1.
  destruct (syncFiles_merges refuses repo cfg src w w1 Hdisj Hts Hrepo
              Hwf H1) as (E1 & Hm1 & Hd1 & Hr1 & Hal & Hall & Hb).
  split.
  - assert (Hb1 : blocked_by_file (rulesFolderPath cfg) (Some (w_fs w1))
                  = false)
      by apply (lookup_present_not_blocked _ _ _ Hd1).
    assert (Hrm : rm_succeeds refuses (rulesFolderPath cfg) w1
                  = rm_succeeds refuses (rulesFolderPath cfg) w).
    { unfold rm_succeeds. now rewrite Hb, Hb1. }
    assert (Hstart : merge_all (teamNames cfg) src
                       (start_entries refuses (rulesFolderPath cfg) w1)
                     = Some E1).
    { unfold start_entries in *. rewrite Hrm, Hd1.
      destruct (rm_succeeds refuses (rulesFolderPath cfg) w); auto.
      apply (merge_all_idem _ _ _ _ Hwf Hm1). }
    destruct (syncFiles_runs refuses repo cfg src E1 w1 Hdisj Hts Hr1 Hwf
                Hb1 Hal Hall Hstart) as (w2 & H2).
    { intros _ _. now rewrite Hd1. }
    exists w2. split; auto.
    destruct (syncFiles_merges refuses repo cfg src w1 w2 Hdisj Hts Hr1
                Hwf H2) as (E2 & Hm2 & Hd2 & Hr2 & _).
    rewrite Hstart in Hm2. injection Hm2 as <-.
    rewrite Hd1, Hd2. auto.
  - intros refuses' w2 H2 Hrm.
    destruct (syncFiles_merges refuses' repo cfg src w1 w2 Hdisj Hts Hr1
                Hwf H2) as (E2 & Hm2 & Hd2 & _).
    rewrite Hd1, Hd2. f_equal. f_equal.
    unfold start_entries in Hm1, Hm2. rewrite Hd1 in Hm2.
    destruct (rm_succeeds refuses' (rulesFolderPath cfg) w1) eqn:E2rm.
    + destruct Hrm as [Hrm|Hrm]; [|discriminate].
      rewrite Hrm in Hm1. congruence.
    + pose proof (merge_all_idem _ _ _ _ Hwf Hm1) as Hidem. congruence.
Qed.

(** C9 at work where the deletion is refused: the first run merges the
    repository over what an earlier sync left, and the second run finds
    nothing to change. *)
Lemma C9_mirror_idempotent_witness :
  exists w2,
    syncFiles refuse_rm ex_repoPath (ex_cfg ["cloud-infra"])
      (snd (syncFiles refuse_rm ex_repoPath (ex_cfg ["cloud-infra"])
              (ex_world (Some ex_stale) ["cloud-infra"])))
    = (Returned tt, w2)
    /\ lookup_path ex_dest (w_fs w2)
       = lookup_path ex_dest
           (w_fs (snd (syncFiles refuse_rm ex_repoPath
                         (ex_cfg ["cloud-infra"])
                         (ex_world (Some ex_stale) ["cloud-infra"]))))
    /\ is_dir (lookup_path ex_dest
                 (w_fs (snd (syncFiles refuse_rm ex_repoPath
                               (ex_cfg ["cloud-infra"])
                               (ex_world (Some ex_stale) ["cloud-infra"])))))
       = true
    /\ lookup_path ex_repoPath (w_fs w2) = Some (Dir ex_src).
Proof.
  refine (proj1 (C9_mirror_idempotent refuse_rm ex_repoPath
                   (ex_cfg ["cloud-infra"]) ex_src
                   (ex_world (Some ex_stale) ["cloud-infra"])
                   (snd (syncFiles refuse_rm ex_repoPath
                           (ex_cfg ["cloud-infra"])
                           (ex_world (Some ex_stale) ["cloud-infra"])))
                   _ _ _ _ _));
    vm_compute; reflexivity.
Defined.

(** C9 fails as stated: the destination holds the stale file
    [team/blue-team/old.mdc]; the operating system refuses the deletion
    during the first run and lets it through during the second, the
    source being the same.  Both runs return; the stale file is there
    after the first and gone after the second, so the two destination
    trees differ. *)
Lemma C9_counterexample :
  let w := ex_world (Some ex_stale) ["cloud-infra"] in
  let r1 := syncFiles refuse_rm ex_repoPath (ex_cfg ["cloud-infra"]) w in
  let r2 := syncFiles no_refusal ex_repoPath (ex_cfg ["cloud-infra"])
              (snd r1) in
  fst r1 = Returned tt /\ fst r2 = Returned tt
  /\ lookup_path ex_repoPath (w_fs (snd r1)) = Some (Dir ex_src)
  /\ lookup_path ex_repoPath (w_fs (snd r2)) = Some (Dir ex_src)
  /\ lookup_path (ex_dest ++ ["team"; "blue-team"; "old.mdc"])
       (w_fs (snd r1)) = Some (File "old")
  /\ lookup_path (ex_dest ++ ["team"; "blue-team"; "old.mdc"])
       (w_fs (snd r2)) = None
  /\ lookup_path ex_dest (w_fs (snd r1))
     <> lookup_path ex_dest (w_fs (snd r2)).
Proof.
  cbv zeta. repeat split; try (vm_compute; reflexivity).
  vm_compute. discriminate.
Qed.

(* ================================================================== *)
(** * Repository access: what it touches *)
(* ================================================================== *)

Lemma quiet_throw {A} (e : Error) : quiet (@throw A e).
Proof. intros w. apply same_host_refl. Qed.

Lemma quiet_try_finally {A} (c : M A) (f : M unit) :
  quiet c -> quiet f -> quiet (try_finally c f).
Proof.
  intros Hc Hf w. unfold try_finally. specialize (Hc w).
  destruct (c w) as [r w1]. simpl in *.
  eapply same_host_trans; [exact Hc | apply Hf].
Qed.

Lemma quiet_await {A} (r : Reply A) : quiet (await r).
Proof. destruct r; [apply quiet_ret | apply quiet_throw]. Qed.

Lemma quiet_write_tree (p : path) (n : node) : quiet (write_tree p n).
Proof. intros w. repeat split. Qed.

Lemma quiet_ensureRepository (refuses : Refusals) (git : GitEnv)
  (slug : string -> string) (cfg : RulesConfig) :
  quiet (ensureRepository refuses git slug cfg).
Proof.
  unfold ensureRepository, acquireLock, releaseLock, repositoryExists,
    cloneRepository, fetchRepository, repositoryExists.
  repeat first
    [ apply quiet_bind | apply quiet_try_catch | apply quiet_try_finally
    | apply quiet_fs_mkdir | apply quiet_await | apply quiet_log
    | apply quiet_stat | apply quiet_ret | apply quiet_throw
    | apply quiet_write_tree
    | match goal with |- quiet (if ?b then _ else _) => destruct b end
    | match goal with |- forall _, _ => intro end ].
Qed.

Lemma keeps_ret {A} (q : path) (a : A) : keeps q (ret a).
Proof. intros w. reflexivity. Qed.

Lemma keeps_throw {A} (q : path) (e : Error) : keeps q (@throw A e).
Proof. intros w. reflexivity. Qed.

Lemma keeps_log (q : path) (l : level) (m : string) : keeps q (log l m).
Proof. intros w. reflexivity. Qed.

Lemma keeps_stat (q p : path) : keeps q (stat_isDirectory p).
Proof. intros w. reflexivity. Qed.

Lemma keeps_await {A} (q : path) (r : Reply A) : keeps q (await r).
Proof. destruct r; intros w; reflexivity. Qed.

Lemma keeps_bind {A B} (q : path) (c : M A) (k : A -> M B) :
  keeps q c -> (forall a, keeps q (k a)) -> keeps q (bind c k).
Proof.
  intros Hc Hk w. unfold bind. specialize (Hc w).
  destruct (c w) as [[a|e] w1]; simpl in *; auto.
  now rewrite Hk.
Qed.

Lemma keeps_try_catch {A} (q : path) (c : M A) (h : Error -> M A) :
  keeps q c -> (forall e, keeps q (h e)) -> keeps q (try_catch c h).
Proof.
  intros Hc Hh w. unfold try_catch. specialize (Hc w).
  destruct (c w) as [[a|e] w1]; simpl in *; auto.
  now rewrite Hh.
Qed.

Lemma keeps_try_finally {A} (q : path) (c : M A) (f : M unit) :
  keeps q c -> keeps q f -> keeps q (try_finally c f).
Proof.
  intros Hc Hf w. unfold try_finally. specialize (Hc w).
  destruct (c w) as [r w1]. simpl in *. now rewrite Hf.
Qed.

Lemma keeps_fs_mkdir (refuses : Refusals) (q p : path) :
  is_prefix q p = false -> keeps q (fs_mkdir refuses p).
Proof.
  intros Hq w. unfold fs_mkdir. destruct (refuses (OpMkdir p)); auto.
  destruct (mkdirp p (Some (w_fs w))) as [r|] eqn:E; auto.
  simpl. unfold lookup_path. now apply (mkdirp_frame p q _ _ E).
Qed.

Lemma keeps_write_tree (q p : path) (n : node) :
  disjoint p q = true -> keeps q (write_tree p n).
Proof.
  intros Hd w. unfold write_tree. simpl.
  rewrite lookup_update_path_const. now apply lookup_update_disjoint.
Qed.

Lemma is_prefix_removelast (q p : path) :
  is_prefix q (removelast p) = true -> is_prefix q p = true.
Proof.
  destruct p as [|c p] using rev_ind; auto.
  rewrite removelast_last. apply is_prefix_app_l.
Qed.

(** Repository access leaves alone whatever lies apart from the cached
    repository. *)
Lemma keeps_ensureRepository (refuses : Refusals) (git : GitEnv)
  (slug : string -> string) (cfg : RulesConfig) (q : path) :
  disjoint q (getRepositoryPath slug cfg) = true ->
  keeps q (ensureRepository refuses git slug cfg).
Proof.
  intros Hd.
  assert (Hq : is_prefix q (path_dirname (getRepositoryPath slug cfg))
               = false).
  { destruct (is_prefix q (path_dirname (getRepositoryPath slug cfg)))
      eqn:E; auto.
    apply is_prefix_removelast in E. unfold disjoint in Hd.
    now rewrite E in Hd. }
  rewrite disjoint_sym in Hd.
  unfold ensureRepository, acquireLock, releaseLock, repositoryExists,
    cloneRepository, fetchRepository, repositoryExists.
  repeat first
    [ apply keeps_bind | apply keeps_try_catch | apply keeps_try_finally
    | apply keeps_fs_mkdir; assumption | apply keeps_await
    | apply keeps_log | apply keeps_stat | apply keeps_ret
    | apply keeps_throw | apply keeps_write_tree; assumption
    | match goal with |- keeps _ (if ?b then _ else _) => destruct b end
    | match goal with |- forall _, _ => intro end ].
Qed.

(* ================================================================== *)
(** * What the orchestrator shows *)
(* ================================================================== *)

Lemma calm_of_quiet {A} (c : M A) : quiet c -> calm c.
Proof.
  intros Hq w. destruct (Hq w) as (Hui & _). exists [].
  now rewrite app_nil_r.
Qed.

Lemma calm_ret {A} (a : A) : calm (ret a).
Proof. apply calm_of_quiet, quiet_ret. Qed.

Lemma calm_throw {A} (e : Error) : calm (@throw A e).
Proof. apply calm_of_quiet, quiet_throw. Qed.

Lemma calm_log (l : level) (m : string) : calm (log l m).
Proof. apply calm_of_quiet, quiet_log. Qed.

Lemma calm_show (e : UiEvent) : is_modal e = false -> calm (show e).
Proof. intros He w. exists [e]. simpl. now rewrite He. Qed.

Lemma calm_bind {A B} (c : M A) (k : A -> M B) :
  calm c -> (forall a, calm (k a)) -> calm (bind c k).
Proof.
  intros Hc Hk w. unfold bind. destruct (Hc w) as (evs & Hui & Hev).
  destruct (c w) as [[a|e] w1]; simpl in *; eauto.
  destruct (Hk a w1) as (evs' & Hui' & Hev').
  exists (evs ++ evs'). rewrite Hui', Hui, app_assoc. split; auto.
  rewrite forallb_app. now rewrite Hev, Hev'.
Qed.

Lemma calm_try_catch {A} (c : M A) (h : Error -> M A) :
  calm c -> (forall e, calm (h e)) -> calm (try_catch c h).
Proof.
  intros Hc Hh w. unfold try_catch. destruct (Hc w) as (evs & Hui & Hev).
  destruct (c w) as [[a|e] w1]; simpl in *; eauto.
  destruct (Hh e w1) as (evs' & Hui' & Hev').
  exists (evs ++ evs'). rewrite Hui', Hui, app_assoc. split; auto.
  rewrite forallb_app. now rewrite Hev, Hev'.
Qed.

Lemma calm_modals {A} (c : M A) (w : World) :
  calm c ->
  filter is_modal (w_ui (snd (c w))) = filter is_modal (w_ui w).
Proof.
  intros Hc. destruct (Hc w) as (evs & -> & Hev).
  rewrite filter_app.
  assert (H : filter is_modal evs = []).
  { induction evs as [|e evs IH]; simpl in *; auto.
    apply andb_true_iff in Hev as [He Hev].
    apply negb_true_iff in He. rewrite He. auto. }
  now rewrite H, app_nil_r.
Qed.

Lemma calm_grows {A} (c : M A) : calm c -> grows c.
Proof. intros Hc w. destruct (Hc w) as (evs & H & _). eauto. Qed.

Lemma grows_bind {A B} (c : M A) (k : A -> M B) :
  grows c -> (forall a, grows (k a)) -> grows (bind c k).
Proof.
  intros Hc Hk w. unfold bind. destruct (Hc w) as (evs & Hui).
  destruct (c w) as [[a|e] w1]; simpl in *; eauto.
  destruct (Hk a w1) as (evs' & Hui').
  exists (evs ++ evs'). now rewrite Hui', Hui, app_assoc.
Qed.

Lemma grows_try_catch {A} (c : M A) (h : Error -> M A) :
  grows c -> (forall e, grows (h e)) -> grows (try_catch c h).
Proof.
  intros Hc Hh w. unfold try_catch. destruct (Hc w) as (evs & Hui).
  destruct (c w) as [[a|e] w1]; simpl in *; eauto.
  destruct (Hh e w1) as (evs' & Hui').
  exists (evs ++ evs'). now rewrite Hui', Hui, app_assoc.
Qed.

Lemma grows_show (e : UiEvent) : grows (show e).
Proof. intros w. exists [e]. reflexivity. Qed.

Lemma calm_setBranchDefault (b : string) : calm (setBranchDefault b).
Proof.
  intros w. exists []. rewrite app_nil_r.
  unfold setBranchDefault, bind, get_settings, log, ret. simpl.
  destruct (negb (truthy (trim match s_branchUser (w_settings w) with
                                | Some b0 => b0
                                | None => ""
                                end)) && truthy b); simpl; auto.
  destruct (truthy (trim match s_branchWorkspace (w_settings w) with
                         | Some b0 => b0
                         | None => ""
                         end)); simpl; auto.
Qed.

Lemma calm_executeCommand (cmd arg : string) : calm (executeCommand cmd arg).
Proof. now apply calm_show. Qed.

Lemma calm_promptToConfigure (env : Env) : calm (promptToConfigure env).
Proof.
  unfold promptToConfigure. apply calm_bind; [now apply calm_show|].
  intros _. destruct (prompt env) as [action|]; [|apply calm_ret].
  destruct (action =? "Open Settings");
    [apply calm_executeCommand | apply calm_ret].
Qed.

Section Calm.
Variable slug : string -> string.

Lemma calm_syncRules (env : Env) : calm (syncRules slug env).
Proof.
  intros w. unfold syncRules.
  destruct (w_disposed w); [apply calm_ret|].
  destruct (negb (isConfigured (w_settings w)));
    [apply calm_promptToConfigure|].
  destruct (negb (Nat.eqb (List.length
              (validateConfig (w_settings w) (getConfig (w_settings w)))) 0)).
  - apply calm_bind; [apply calm_log|]. intros _. now apply calm_show.
  - apply calm_try_catch.
    + apply calm_bind; [apply calm_log|]. intros _.
      apply calm_bind;
        [apply calm_of_quiet, quiet_ensureRepository|]. intros r.
      apply calm_bind.
      { destruct (snd r) as [b|]; [|apply calm_ret].
        destruct (truthy b); [apply calm_setBranchDefault | apply calm_ret]. }
      intros _. apply calm_bind;
        [apply calm_of_quiet, quiet_syncFiles | intros; apply calm_log].
    + intros e. apply calm_bind; [apply calm_log | intros; apply calm_throw].
Qed.

Lemma calm_setupPeriodicSync : calm (setupPeriodicSync).
Proof.
  intros w. exists []. rewrite app_nil_r. split; [|reflexivity].
  unfold setupPeriodicSync.
  destruct (negb (Nat.eqb (List.length _) 0)); simpl; auto.
  destruct (0 <? _)%Z; reflexivity.
Qed.

Lemma calm_useLocalCopy (refuses : Refusals) (onUse onNone onFail : M unit) :
  calm onUse -> calm onNone -> calm onFail ->
  calm (useLocalCopy slug refuses onUse onNone onFail).
Proof.
  intros H1 H2 H3. unfold useLocalCopy. apply calm_try_catch.
  - apply calm_bind; [apply calm_of_quiet; intros w; repeat split|].
    intros s. apply calm_bind; [apply calm_of_quiet, quiet_stat|].
    intros [|]; auto.
    apply calm_bind; [apply calm_of_quiet, quiet_syncFiles|]. intros _.
    apply calm_bind; [apply calm_log | auto].
  - intros e. apply calm_bind; [apply calm_log | auto].
Qed.

Lemma calm_handleSyncError_later (e : Error) (reply : ModalReply) :
  calm (handleSyncError slug e false reply).
Proof. destruct reply; now apply calm_show. Qed.

Lemma calm_offerReconfiguration (env : Env) (msg : string) :
  calm (offerReconfiguration slug env msg).
Proof.
  unfold offerReconfiguration. apply calm_bind; [now apply calm_show|].
  intros _. destruct (prompt env) as [action|]; [|apply calm_ret].
  destruct (action =? "Open Settings"); [apply calm_executeCommand|].
  destruct (action =? "Work with Local Copy"); [|apply calm_ret].
  apply calm_useLocalCopy; now apply calm_show.
Qed.

Lemma calm_timerTick (env : Env) : calm (timerTick slug env).
Proof.
  unfold timerTick. apply calm_try_catch; [apply calm_syncRules|].
  intros e. apply calm_handleSyncError_later.
Qed.

Lemma calm_onConfigChanged (affects : string -> bool) (env : Env) :
  calm (onConfigChanged slug affects env).
Proof.
  unfold onConfigChanged. destruct (affects "aiRulesSyncer");
    [|apply calm_ret].
  apply calm_bind; [apply calm_log|]. intros _.
  apply calm_bind; [apply calm_log|]. intros _.
  apply calm_bind; [apply calm_setupPeriodicSync|]. intros _.
  destruct (existsb _ _); [|apply calm_ret].
  apply calm_bind; [apply calm_log|]. intros _.
  apply calm_try_catch; [apply calm_syncRules|].
  intros e. apply calm_handleSyncError_later.
Qed.

Lemma calm_refreshCommand (env : Env) : calm (refreshCommand slug env).
Proof.
  unfold refreshCommand. apply calm_try_catch.
  - apply calm_bind; [apply calm_syncRules | intros; now apply calm_show].
  - intros e. now apply calm_show.
Qed.

Lemma grows_initialSyncBody (env : Env) : grows (initialSyncBody slug env).
Proof.
  apply calm_grows. unfold initialSyncBody.
  apply calm_bind; [apply calm_log|]. intros _.
  apply calm_bind; [apply calm_syncRules|]. intros _.
  apply calm_setupPeriodicSync.
Qed.

(** The initial-sync chain only adds to what the user was shown. *)
Lemma grows_performInitialSync :
  forall script, grows (performInitialSync slug script).
Proof.
  fix IH 1. intros [env reply]. simpl.
  apply grows_try_catch; [apply grows_initialSyncBody|].
  intros e. apply grows_bind; [apply calm_grows, calm_log|]. intros _.
  destruct reply as [|next|refuses]; simpl;
    (apply grows_bind; [apply grows_show|]; intros _).
  - apply calm_grows, calm_ret.
  - apply IH.
  - apply calm_grows, calm_useLocalCopy;
      [apply calm_ret | now apply calm_show | now apply calm_show].
Qed.

(** The first thing [handleSyncError] shows for a first-time failure is
    the modal dialog. *)
Lemma handleSyncError_first_modal (e : Error) (reply : ModalReply)
  (w : World) :
  exists rest,
    w_ui (snd (handleSyncError slug e true reply w))
    = w_ui w ++ syncErrorModal e :: rest.
Proof.
  assert (Hk : forall k : M unit, grows k ->
            exists rest,
              w_ui (snd ((show (syncErrorModal e) ;; k) w))
              = w_ui w ++ syncErrorModal e :: rest).
  { intros k Hk. unfold bind, show. simpl.
    destruct (Hk (add_ui (syncErrorModal e) w)) as (evs & ->).
    exists evs. simpl. now rewrite <- app_assoc. }
  destruct reply as [|next|refuses].
  - apply (Hk (ret tt)). apply calm_grows, calm_ret.
  - apply (Hk (performInitialSync slug next)).
    apply grows_performInitialSync.
  - apply (Hk (useLocalCopy slug refuses (ret tt)
                 (show (ShowWarning
                          "No rules available; working without rules" []))
                 (show (ShowWarning
                          "No rules available; working without rules" [])))).
    apply calm_grows, calm_useLocalCopy;
      [apply calm_ret | now apply calm_show | now apply calm_show].
Qed.

(** The first thing [offerReconfiguration] shows is a notice, and it
    shows nothing modal. *)
Lemma offerReconfiguration_first_notice (env : Env) (msg : string)
  (w : World) :
  exists rest,
    w_ui (snd (offerReconfiguration slug env msg w))
    = w_ui w
      ++ ShowWarning ("Failed to access AI rules repository: " ++ msg)
           ["Open Settings"; "Work with Local Copy"] :: rest.
Proof.
  unfold offerReconfiguration. unfold bind at 1. unfold show at 1.
  set (w2 := add_ui _ w).
  match goal with
  | |- context [snd (?k w2)] =>
      assert (Hg : grows k)
  end.
  { apply calm_grows. destruct (prompt env) as [action|];
      [|apply calm_ret].
    destruct (action =? "Open Settings"); [apply calm_executeCommand|].
    destruct (action =? "Work with Local Copy"); [|apply calm_ret].
    apply calm_useLocalCopy; now apply calm_show. }
  destruct (Hg w2) as (evs & ->). exists evs.
  unfold w2. simpl. now rewrite <- app_assoc.
Qed.
End Calm.

(* ================================================================== *)
(** * Repository access with the network down *)
(* ================================================================== *)



Lemma set_fs_same (w : World) : set_fs (w_fs w) w = w.
Proof. now destruct w. Qed.

Lemma fs_mkdir_existing (refuses : Refusals) (p : path) (w : World) :
  refuses (OpMkdir p) = None ->
  is_dir (lookup_path p (w_fs w)) = true ->
  fs_mkdir refuses p w = (Returned tt, w).
Proof.
  intros Hno Hd. unfold fs_mkdir. rewrite Hno.
  rewrite mkdirp_existing by exact Hd. now rewrite set_fs_same.
Qed.



(* ================================================================== *)
(** * The orchestrator: failures and their treatment *)
(* ================================================================== *)

(** What [syncRules] does once it has passed its guards. *)
Lemma syncRules_guarded (slug : string -> string) (env : Env) (w : World)
  (cfg : RulesConfig) :
  w_disposed w = false ->
  isConfigured (w_settings w) = true ->
  getConfig (w_settings w) = cfg ->
  validateConfig (w_settings w) cfg = [] ->
  syncRules slug env w
  = try_catch
      (r <- ensureRepository (refusals env) (git_env env) slug cfg ;;
       (match snd r with
        | Some actualBranch =>
            if truthy actualBranch then setBranchDefault actualBranch
            else ret tt
        | None => ret tt
        end) ;;
       syncFiles (refusals env) (fst r) cfg ;;
       log LInfo "Rules sync completed successfully")
      (fun error => log LError "Sync failed" ;; throw error)
      (add_log LInfo ("Syncing rules from " ++ repoUrl cfg) w).
Proof.
  intros Hd Hc Hcfg Hv. unfold syncRules.
  rewrite Hd, Hc, Hcfg, Hv. reflexivity.
Qed.



(** C3 (amended).  When a sync attempt fails in repository access, that
    is before the mirror starts, what the destination holds is what it
    held before the attempt; and when the attempt was started by the
    timer, the failure is shown as one notice that does not block and
    the callback returns.  (A failure inside the mirror is another
    matter: the destination has been deleted by then.) *)
Theorem C3_failure_before_mirror (slug : string -> string) (env : Env)
  (w : World) (cfg : RulesConfig) (e : Error) :
  w_disposed w = false ->
  isConfigured (w_settings w) = true ->
  getConfig (w_settings w) = cfg ->
  validateConfig (w_settings w) cfg = [] ->
  disjoint (rulesFolderPath cfg) (getRepositoryPath slug cfg) = true ->
  fst (ensureRepository (refusals env) (git_env env) slug cfg
         (add_log LInfo ("Syncing rules from " ++ repoUrl cfg) w))
  = Thrown e ->
  fst (syncRules slug env w) = Thrown e
  /\ lookup_path (rulesFolderPath cfg) (w_fs (snd (syncRules slug env w)))
     = lookup_path (rulesFolderPath cfg) (w_fs w)
  /\ exists w',
       timerTick slug env w = (Returned tt, w')
       /\ lookup_path (rulesFolderPath cfg) (w_fs w')
          = lookup_path (rulesFolderPath cfg) (w_fs w)
       /\ w_ui w' = w_ui w ++ [syncErrorNotice e].
Proof.
  intros Hd Hc Hcfg Hv Hdisj He.
  set (w0 := add_log LInfo ("Syncing rules from " ++ repoUrl cfg) w) in *.
  pose proof (keeps_ensureRepository (refusals env) (git_env env) slug cfg
                (rulesFolderPath cfg) Hdisj w0) as Hkeep.
  destruct (quiet_ensureRepository (refusals env) (git_env env) slug cfg w0)
    as (Hui & _).
  destruct (ensureRepository (refusals env) (git_env env) slug cfg w0)
    as [[r|e'] w1] eqn:Hens; [discriminate|].
  simpl in He, Hkeep, Hui. injection He as ->.
  assert (Hsync : syncRules slug env w
                  = (Thrown e, add_log LError "Sync failed" w1)).
  { rewrite (syncRules_guarded slug env w cfg Hd Hc Hcfg Hv).
    fold w0. unfold try_catch, bind at 1. now rewrite Hens. }
  rewrite Hsync. simpl. repeat split; auto.
  exists (add_ui (syncErrorNotice e) (add_log LError "Sync failed" w1)).
  repeat split.
  - unfold timerTick, try_catch. now rewrite Hsync.
  - exact Hkeep.
  - simpl. now rewrite Hui.
Qed.

Lemma C3_failure_before_mirror_witness :
  exists w',
    timerTick ex_slug env_locked (ex_world (Some ex_stale) ["cloud-infra"])
    = (Returned tt, w')
    /\ lookup_path ex_dest (w_fs w') = Some ex_stale
    /\ w_ui w'
       = [ShowWarning
            "Failed to sync rules: Failed to acquire lock: Lock file is already being held"
            []].
Proof.
  destruct (C3_failure_before_mirror ex_slug env_locked
              (ex_world (Some ex_stale) ["cloud-infra"])
              (ex_cfg ["cloud-infra"])
              (new_Error
                 "Failed to acquire lock: Lock file is already being held"))
    as (_ & _ & w' & H1 & H2 & H3);
    try (vm_compute; reflexivity).
  exists w'. auto.
Defined.

(** C3 fails as stated: after a sync that succeeded, the next attempt
    reaches the mirror, which deletes the destination and then hits a
    full disk; [syncRules] throws, and the destination, which held the
    mirror, is now an empty directory. *)
Lemma C3_counterexample :
  let w1 := snd (timerTick ex_slug env_online
                   (ex_world None ["cloud-infra"])) in
  let r := syncRules ex_slug env_disk_full w1 in
  fst (syncRules ex_slug env_online (ex_world None ["cloud-infra"]))
  = Returned tt
  /\ lookup_path ex_dest (w_fs w1)
     = Some (Dir (mirror ["cloud-infra"] ex_src))
  /\ fst r
     = Thrown (fs_error ENOSPC "cp" (ex_dest ++ ["general"]))
  /\ lookup_path ex_dest (w_fs (snd r)) = Some (Dir [])
  /\ w_ui (snd (timerTick ex_slug env_disk_full w1))
     = [syncErrorNotice (fs_error ENOSPC "cp" (ex_dest ++ ["general"]))].
Proof. cbv zeta. repeat split; vm_compute; reflexivity. Qed.

(** C4 (amended).  Blocking treatment goes with the path an attempt was
    started from, not with its rank in the session.  Attempts started by
    the timer, by a configuration change or by the refresh command never
    add a modal dialog.  The attempt of the activation
    ([performInitialSetup]), when it fails, is shown the modal dialog
    unless the message of the error marks a repository access error, in
    which case no modal dialog is added.  An attempt started by
    [performInitialSync], which is what "Retry" starts, is shown the
    modal dialog whenever it fails, whatever came before; and choosing
    "Retry" starts such an attempt again. *)
Theorem C4_blocking_by_entry_point (slug : string -> string) :
  (forall env w,
     filter is_modal (w_ui (snd (timerTick slug env w)))
     = filter is_modal (w_ui w))
  /\ (forall affects env w,
        filter is_modal (w_ui (snd (onConfigChanged slug affects env w)))
        = filter is_modal (w_ui w))
  /\ (forall env w,
        filter is_modal (w_ui (snd (refreshCommand slug env w)))
        = filter is_modal (w_ui w))
  /\ (forall env reply w e w1,
        initialSetupBody slug env w = (Thrown e, w1) ->
        (isRepositoryAccessError (e_message e) = false ->
         exists rest,
           w_ui (snd (performInitialSetup slug (Attempt env reply) w))
           = w_ui w1 ++ syncErrorModal e :: rest)
        /\ (isRepositoryAccessError (e_message e) = true ->
            filter is_modal
              (w_ui (snd (performInitialSetup slug (Attempt env reply) w)))
            = filter is_modal (w_ui w1)))
  /\ (forall env reply w e w1,
        initialSyncBody slug env w = (Thrown e, w1) ->
        exists rest,
          w_ui (snd (performInitialSync slug (Attempt env reply) w))
          = w_ui w1 ++ syncErrorModal e :: rest)
  /\ (forall e next w,
        handleSyncError slug e true (ClickRetry next) w
        = performInitialSync slug next (add_ui (syncErrorModal e) w)).
Proof.
  split; [|split; [|split; [|split; [|split]]]].
  - intros env w. apply calm_modals, calm_timerTick.
  - intros affects env w. apply calm_modals, calm_onConfigChanged.
  - intros env w. apply calm_modals, calm_refreshCommand.
  - intros env reply w e w1 H.
    assert (Heq : performInitialSetup slug (Attempt env reply) w
                  = (if isRepositoryAccessError (e_message e)
                     then log LWarn
                            "Repository access failed, offering reconfiguration" ;;
                          offerReconfiguration slug env (e_message e)
                     else handleSyncError slug e true reply)
                      (add_log LError "Initial setup failed" w1)).
    { unfold performInitialSetup, try_catch. rewrite H.
      rewrite log_bind. reflexivity. }
    rewrite Heq. split; intros Ha; rewrite Ha.
    + apply (handleSyncError_first_modal slug e reply
               (add_log LError "Initial setup failed" w1)).
    + apply (calm_modals
               (log LWarn
                  "Repository access failed, offering reconfiguration" ;;
                offerReconfiguration slug env (e_message e))
               (add_log LError "Initial setup failed" w1)).
      apply calm_bind; [apply calm_log|].
      intros _. apply calm_offerReconfiguration.
  - intros env reply w e w1 H. simpl. unfold try_catch. rewrite H.
    rewrite log_bind.
    apply (handleSyncError_first_modal slug e reply
             (add_log LError "Initial sync failed" w1)).
  - intros e next w. reflexivity.
Qed.

(** C4 on the example, the lock being held: on the timer no modal dialog
    is added; the attempt of the activation and an attempt of
    [performInitialSync] are both shown the modal dialog. *)
Lemma C4_blocking_by_entry_point_witness :
  let w := ex_world_no_cache ["cloud-infra"] in
  let e := new_Error
             "Failed to acquire lock: Lock file is already being held" in
  filter is_modal (w_ui (snd (timerTick ex_slug env_locked w))) = []
  /\ (exists rest,
        w_ui (snd (performInitialSetup ex_slug
                     (Attempt env_locked Dismissed) w))
        = syncErrorModal e :: rest)
  /\ (exists rest,
        w_ui (snd (performInitialSync ex_slug
                     (Attempt env_locked Dismissed) w))
        = syncErrorModal e :: rest).
Proof.
  intros w e.
  destruct (C4_blocking_by_entry_point ex_slug)
    as (Htimer & _ & _ & Hsetup & Hsync & _).
  split; [exact (Htimer env_locked w)|]. split.
  - destruct (Hsetup env_locked Dismissed w e
                (snd (initialSetupBody ex_slug env_locked w)))
      as [Hmodal _]; [vm_compute; reflexivity|].
    destruct (Hmodal eq_refl) as [rest Hrest].
    exists rest. exact Hrest.
  - destruct (Hsync env_locked Dismissed w e
                (snd (initialSyncBody ex_slug env_locked w)))
      as [rest Hrest]; [vm_compute; reflexivity|].
    exists rest. exact Hrest.
Defined.

(** C4 fails as stated: the first attempt of the session fails (the lock
    is held), the user chooses "Retry", the second attempt fails too,
    and the modal dialog is shown a second time. *)
Lemma C4_counterexample :
  let r := performInitialSetup ex_slug
             (Attempt env_locked (ClickRetry (Attempt env_locked Dismissed)))
             (ex_world_no_cache ["cloud-infra"]) in
  filter is_modal (w_ui (snd r))
  = [syncErrorModal
       (new_Error "Failed to acquire lock: Lock file is already being held");
     syncErrorModal
       (new_Error "Failed to acquire lock: Lock file is already being held")].
Proof. vm_compute. reflexivity. Qed.

(** C6 (amended).  On activation the treatment of a failed first attempt
    does depend on the error: when its message contains one of the four
    repository-access markers, [performInitialSetup] offers the
    reconfiguration in a notice that does not block and shows no modal
    dialog; any other failure is shown the blocking modal dialog.  In
    the initial-sync chain, on the timer and on configuration changes
    the treatment is the same for every error (C4). *)
Theorem C6_treatment_depends_on_message (slug : string -> string)
  (env : Env) (reply : ModalReply) (w w1 : World) (e : Error) :
  initialSetupBody slug env w = (Thrown e, w1) ->
  performInitialSetup slug (Attempt env reply) w
  = (if isRepositoryAccessError (e_message e)
     then log LWarn "Repository access failed, offering reconfiguration" ;;
          offerReconfiguration slug env (e_message e)
     else handleSyncError slug e true reply)
      (add_log LError "Initial setup failed" w1)
  /\ (isRepositoryAccessError (e_message e) = true ->
      filter is_modal
        (w_ui (snd (performInitialSetup slug (Attempt env reply) w)))
      = filter is_modal (w_ui w1)
      /\ exists rest,
           w_ui (snd (performInitialSetup slug (Attempt env reply) w))
           = w_ui w1
             ++ ShowWarning
                  ("Failed to access AI rules repository: " ++ e_message e)
                  ["Open Settings"; "Work with Local Copy"] :: rest)
  /\ (isRepositoryAccessError (e_message e) = false ->
      exists rest,
        w_ui (snd (performInitialSetup slug (Attempt env reply) w))
        = w_ui w1 ++ syncErrorModal e :: rest).
Proof.
  intros H.
  assert (Heq : performInitialSetup slug (Attempt env reply) w
                = (if isRepositoryAccessError (e_message e)
                   then log LWarn
                          "Repository access failed, offering reconfiguration" ;;
                        offerReconfiguration slug env (e_message e)
                   else handleSyncError slug e true reply)
                    (add_log LError "Initial setup failed" w1)).
  { unfold performInitialSetup, try_catch. rewrite H.
    rewrite log_bind. reflexivity. }
  split; [exact Heq|]. rewrite Heq. split; intros Ha; rewrite Ha.
  - split.
    + apply (calm_modals
               (log LWarn
                  "Repository access failed, offering reconfiguration" ;;
                offerReconfiguration slug env (e_message e))
               (add_log LError "Initial setup failed" w1)).
      apply calm_bind; [apply calm_log|].
      intros _. apply calm_offerReconfiguration.
    + rewrite log_bind.
      apply (offerReconfiguration_first_notice slug env (e_message e)
               (add_log LWarn
                  "Repository access failed, offering reconfiguration"
                  (add_log LError "Initial setup failed" w1))).
  - apply (handleSyncError_first_modal slug e reply
             (add_log LError "Initial setup failed" w1)).
Qed.

Lemma C6_treatment_depends_on_message_witness :
  filter is_modal
    (w_ui (snd (performInitialSetup ex_slug (Attempt env_offline Dismissed)
                  (ex_world_no_cache ["cloud-infra"]))))
  = [].
Proof.
  refine (proj1
            (proj1 (proj2
               (C6_treatment_depends_on_message ex_slug env_offline
                  Dismissed (ex_world_no_cache ["cloud-infra"])
                  (snd (initialSetupBody ex_slug env_offline
                          (ex_world_no_cache ["cloud-infra"])))
                  (new_Error
                     "Git clone failed: fatal: unable to access the remote: Could not resolve host")
                  _)) _));
    vm_compute; reflexivity.
Defined.

(** C6 fails as stated: two sessions whose first attempt fails, one on
    lock contention and one on an unreachable remote.  The first is
    shown the blocking modal dialog; the second is shown a notice that
    does not block, because its message carries "Git clone failed". *)
Lemma C6_counterexample :
  let w := ex_world_no_cache ["cloud-infra"] in
  fst (syncRules ex_slug env_locked w)
  = Thrown (new_Error
              "Failed to acquire lock: Lock file is already being held")
  /\ fst (syncRules ex_slug env_offline w)
     = Thrown (new_Error
                 "Git clone failed: fatal: unable to access the remote: Could not resolve host")
  /\ w_ui (snd (performInitialSetup ex_slug (Attempt env_locked Dismissed) w))
     = [ShowError true
          "Failed to sync AI rules: Failed to acquire lock: Lock file is already being held"
          ["Retry"; "Work with local copy"]]
  /\ w_ui (snd (performInitialSetup ex_slug (Attempt env_offline Dismissed) w))
     = [ShowWarning
          "Failed to access AI rules repository: Git clone failed: fatal: unable to access the remote: Could not resolve host"
          ["Open Settings"; "Work with Local Copy"]].
Proof. cbv zeta. repeat split; vm_compute; reflexivity. Qed.

(** C7.  When the user answers the first-failure dialog with "Work with
    local copy": if the cached repository is a directory, the mirror is
    run on it directly, with no call to git, and the tree that results
    is the tree of that very mirror; if it is not, no mirror runs, the
    tree is as it was, and the user is shown the notice "No rules
    available; working without rules".  In neither case is an error
    thrown. *)
Theorem C7_work_with_local_copy (slug : string -> string) (e : Error)
  (refuses : Refusals) (w : World) (cfg : RulesConfig) :
  getConfig (w_settings w) = cfg ->
  handleSyncError slug e true (ClickLocalCopy refuses) w
  = (if is_dir (lookup_path (getRepositoryPath slug cfg) (w_fs w))
     then
       match syncFiles refuses (getRepositoryPath slug cfg) cfg
               (add_ui (syncErrorModal e) w) with
       | (Returned _, w1) =>
           (Returned tt, add_log LInfo "Using existing cached rules" w1)
       | (Thrown _, w1) =>
           (Returned tt,
            add_ui (ShowWarning "No rules available; working without rules" [])
              (add_log LError "Fallback to cached rules failed" w1))
       end
     else
       (Returned tt,
        add_ui (ShowWarning "No rules available; working without rules" [])
          (add_ui (syncErrorModal e) w)))
  /\ fst (handleSyncError slug e true (ClickLocalCopy refuses) w)
     = Returned tt
  /\ (is_dir (lookup_path (getRepositoryPath slug cfg) (w_fs w)) = true ->
      w_fs (snd (handleSyncError slug e true (ClickLocalCopy refuses) w))
      = w_fs (snd (syncFiles refuses (getRepositoryPath slug cfg) cfg
                     (add_ui (syncErrorModal e) w))))
  /\ (is_dir (lookup_path (getRepositoryPath slug cfg) (w_fs w)) = false ->
      w_fs (snd (handleSyncError slug e true (ClickLocalCopy refuses) w))
      = w_fs w
      /\ w_ui (snd (handleSyncError slug e true (ClickLocalCopy refuses) w))
         = w_ui w
           ++ [syncErrorModal e;
               ShowWarning "No rules available; working without rules" []]).
Proof.
  intros Hcfg.
  assert (Heq : handleSyncError slug e true (ClickLocalCopy refuses) w
    = (if is_dir (lookup_path (getRepositoryPath slug cfg) (w_fs w))
       then
         match syncFiles refuses (getRepositoryPath slug cfg) cfg
                 (add_ui (syncErrorModal e) w) with
         | (Returned _, w1) =>
             (Returned tt, add_log LInfo "Using existing cached rules" w1)
         | (Thrown _, w1) =>
             (Returned tt,
              add_ui
                (ShowWarning "No rules available; working without rules" [])
                (add_log LError "Fallback to cached rules failed" w1))
         end
       else
         (Returned tt,
          add_ui (ShowWarning "No rules available; working without rules" [])
            (add_ui (syncErrorModal e) w)))).
  { simpl. unfold useLocalCopy, bind, try_catch, get_settings,
      hasExistingContent, stat_isDirectory, show, log, ret.
    simpl. rewrite Hcfg.
    destruct (is_dir (lookup_path (getRepositoryPath slug cfg) (w_fs w)));
      [|reflexivity].
    unfold syncErrorModal.
    destruct (syncFiles refuses (getRepositoryPath slug cfg) cfg _)
      as [[[]|e'] w1]; reflexivity. }
  split; [exact Heq|]. rewrite Heq.
  destruct (is_dir (lookup_path (getRepositoryPath slug cfg) (w_fs w))).
  - destruct (syncFiles refuses (getRepositoryPath slug cfg) cfg
                (add_ui (syncErrorModal e) w)) as [[[]|e'] w1];
      repeat split; try discriminate.
  - repeat split; try discriminate. simpl. now rewrite <- app_assoc.
Qed.

Lemma C7_work_with_local_copy_witness :
  lookup_path ex_dest
    (w_fs (snd (handleSyncError ex_slug
                  (new_Error "Failed to acquire lock")
                  true (ClickLocalCopy no_refusal)
                  (ex_world (Some ex_stale) ["cloud-infra"]))))
  = Some (Dir (mirror ["cloud-infra"] ex_src)).
Proof.
  rewrite (proj1 (proj2 (proj2
             (C7_work_with_local_copy ex_slug
                (new_Error "Failed to acquire lock") no_refusal
                (ex_world (Some ex_stale) ["cloud-infra"])
                (ex_cfg ["cloud-infra"]) eq_refl))) eq_refl).
  vm_compute. reflexivity.
Defined.

(* ================================================================== *)
(** * The mirror and the rest of the tree *)
(* ================================================================== *)

Lemma keeps_fs_rm (refuses : Refusals) (q p : path) :
  disjoint p q = true -> keeps q (fs_rm refuses p).
Proof.
  intros Hd w. unfold fs_rm. destruct (refuses (OpRm p)); auto.
  destruct (blocked_by_file p (Some (w_fs w))); auto.
  simpl. rewrite lookup_after_rm by apply (disjoint_nonempty _ _ Hd).
  now apply lookup_update_disjoint.
Qed.

Lemma keeps_fs_cp (refuses : Refusals) (q s d : path) :
  disjoint d q = true -> keeps q (fs_cp refuses s d).
Proof.
  intros Hd w. unfold fs_cp. destruct (refuses (OpCp s d)); auto.
  destruct (lookup_path s (w_fs w)); auto.
  destruct (is_prefix s d); auto.
  destruct (mkdirp (path_dirname d) (Some (w_fs w))) as [r|] eqn:Er; auto.
  destruct (cp_node n (lookup_path d r)) as [d'|]; auto.
  simpl. rewrite lookup_update_path_const.
  rewrite lookup_update_disjoint by assumption.
  apply (mkdirp_frame _ q _ _ Er).
  destruct (is_prefix q (path_dirname d)) eqn:E; auto.
  apply is_prefix_removelast in E. unfold disjoint in Hd.
  rewrite E in Hd. now rewrite andb_false_r in Hd.
Qed.

Lemma keeps_for_each {A} (q : path) (l : list A) (body : A -> M unit) :
  (forall x, In x l -> keeps q (body x)) -> keeps q (for_each l body).
Proof.
  induction l as [|x l IH]; intros H.
  - apply keeps_ret.
  - simpl. apply keeps_bind.
    + apply H. now left.
    + intros _. apply IH. intros y Hy. apply H. now right.
Qed.

Lemma disjoint_under (p q x : path) :
  disjoint q p = true -> disjoint (p ++ x) q = true.
Proof. intros H. apply disjoint_app_l. now rewrite disjoint_sym. Qed.

Lemma not_prefix_under (p q x : path) :
  disjoint q p = true -> is_prefix q (p ++ x) = false.
Proof.
  intros H. pose proof (disjoint_under p q x H) as Hd.
  unfold disjoint in Hd. apply andb_true_iff in Hd as [_ Hd].
  now apply negb_true_iff in Hd.
Qed.

Lemma keeps_copyTeam (refuses : Refusals) (q repo dest : path)
  (T t : string) :
  disjoint q dest = true -> plain_name t = true ->
  keeps q (copyTeam refuses T (repo ++ [T]) (dest ++ [T]) t).
Proof.
  intros Hd Ht. unfold copyTeam. rewrite !path_join_plain by assumption.
  apply keeps_bind; [apply keeps_stat|]. intros found.
  destruct found; [|apply keeps_log].
  apply keeps_bind; [|intros _; apply keeps_log].
  unfold copyRecursive. apply keeps_fs_cp.
  rewrite <- app_assoc. now apply disjoint_under.
Qed.

Lemma keeps_copyEntry (refuses : Refusals) (q repo : path)
  (cfg : RulesConfig) (k : string) (b : bool) :
  disjoint q (rulesFolderPath cfg) = true ->
  forallb plain_name (teamNames cfg) = true ->
  plain_name k = true ->
  keeps q (copyEntry refuses repo cfg (k, b)).
Proof.
  intros Hd Hts Hk. unfold copyEntry.
  destruct (prefix "." k || negb b); [apply keeps_ret|].
  rewrite !path_join_plain by assumption.
  destruct (prefix "team" k).
  - apply keeps_bind.
    + apply keeps_fs_mkdir. now apply not_prefix_under.
    + intros _. apply keeps_for_each. intros t Ht.
      apply keeps_copyTeam; auto.
      rewrite forallb_forall in Hts. now apply Hts.
  - apply keeps_bind; [|intros _; apply keeps_log].
    unfold copyRecursive. apply keeps_fs_cp. now apply disjoint_under.
Qed.

(** X1.  [syncFiles] changes nothing outside the rules folder.  Let the
    team names be single path components and the names in the repository
    directory be ones a directory listing can return.  Then whatever the
    operating system refuses, and whether the run returns or throws,
    every path that is neither the rules folder, nor under it, nor one
    of its ancestors resolves after the run to what it resolved to
    before. *)
Theorem X1_syncFiles_frame (refuses : Refusals) (repo : path)
  (cfg : RulesConfig) (w : World) (q : path) :
  forallb plain_name (teamNames cfg) = true ->
  disjoint repo (rulesFolderPath cfg) = true ->
  (forall src, lookup_path repo (w_fs w) = Some (Dir src) ->
               forallb plain_name (map fst src) = true) ->
  disjoint q (rulesFolderPath cfg) = true ->
  lookup_path q (w_fs (snd (syncFiles refuses repo cfg w)))
  = lookup_path q (w_fs w).
Proof.
  intros Hts Hrepo Hsrc Hq.
  assert (Hpre : forall w0 : World,
             keeps q (removeDestination refuses (rulesFolderPath cfg) ;;
                      fs_mkdir refuses (rulesFolderPath cfg))).
  { intros _. apply keeps_bind.
    - unfold removeDestination.
      apply keeps_bind; [apply keeps_log|]. intros _.
      apply keeps_try_catch.
      + apply keeps_bind; [|intros _; apply keeps_log].
        apply keeps_fs_rm. now rewrite disjoint_sym.
      + intros e. destruct (negb (code_is ENOENT e));
          [apply keeps_log | apply keeps_ret].
    - intros _. apply keeps_fs_mkdir.
      rewrite <- (app_nil_r (rulesFolderPath cfg)).
      now apply not_prefix_under. }
  unfold syncFiles. rewrite log_bind.
  set (w0 := add_log _ _ w).
  change (lookup_path q (w_fs w)) with (lookup_path q (w_fs w0)).
  assert (Hsrc0 : forall src, lookup_path repo (w_fs w0) = Some (Dir src) ->
                              forallb plain_name (map fst src) = true)
    by exact Hsrc.
  clearbody w0. clear Hsrc.
  rewrite <- bind_assoc.
  pose proof (Hpre w0 w0) as Hk1.
  assert (Hk2 : lookup_path repo
                  (w_fs (snd ((removeDestination refuses (rulesFolderPath cfg) ;;
                               fs_mkdir refuses (rulesFolderPath cfg)) w0)))
                = lookup_path repo (w_fs w0)).
  { assert (Hr : keeps repo
                   (removeDestination refuses (rulesFolderPath cfg) ;;
                    fs_mkdir refuses (rulesFolderPath cfg))).
    { apply keeps_bind.
      - unfold removeDestination.
        apply keeps_bind; [apply keeps_log|]. intros _.
        apply keeps_try_catch.
        + apply keeps_bind; [|intros _; apply keeps_log].
          apply keeps_fs_rm. now rewrite disjoint_sym.
        + intros e. destruct (negb (code_is ENOENT e));
            [apply keeps_log | apply keeps_ret].
      - intros _. apply keeps_fs_mkdir.
        rewrite <- (app_nil_r (rulesFolderPath cfg)).
        now apply not_prefix_under. }
    apply Hr. }
  unfold bind at 1.
  destruct ((removeDestination refuses (rulesFolderPath cfg) ;;
             fs_mkdir refuses (rulesFolderPath cfg)) w0)
    as [[[]|e] w1]; simpl in Hk1, Hk2; [|exact Hk1].
  rewrite <- Hk1. unfold bind at 1.
  unfold copyRulesFromRepo, bind at 1, fs_readdir.
  destruct (lookup_path repo (w_fs w1)) as [[c|src]|] eqn:El;
    try reflexivity.
  assert (Hloop : keeps q (for_each (map dirent src)
                             (copyEntry refuses repo cfg))).
  { apply keeps_for_each. intros [k b] Hin.
    apply keeps_copyEntry; auto.
    apply in_map_iff in Hin as ([k' v] & Heq & Hin).
    injection Heq as -> _.
    assert (Hpl : forallb plain_name (map fst src) = true)
      by (apply Hsrc0; congruence).
    rewrite forallb_forall in Hpl. apply Hpl.
    now apply (in_map fst) in Hin. }
  specialize (Hloop w1).
  destruct (for_each (map dirent src) (copyEntry refuses repo cfg) w1)
    as [[[]|e] w2]; simpl in *; exact Hloop.
Qed.

(** X1 on the example: with every copy refused the run throws, and the
    sources of the workspace are as they were. *)
Lemma X1_syncFiles_frame_witness :
  lookup_path ["ws"; "src"]
    (w_fs (snd (syncFiles refuse_cp ex_repoPath (ex_cfg ["cloud-infra"])
                  (ex_world (Some ex_stale) ["cloud-infra"]))))
  = Some (Dir [("main.ts", File "code")]).
Proof.
  rewrite (X1_syncFiles_frame refuse_cp ex_repoPath (ex_cfg ["cloud-infra"])
             (ex_world (Some ex_stale) ["cloud-infra"]) ["ws"; "src"]).
  - reflexivity.
  - reflexivity.
  - reflexivity.
  - intros src H. vm_compute in H. injection H as <-. reflexivity.
  - reflexivity.
Defined.

(** X2.  [syncFiles] empties the rules folder before it looks at the
    repository.  When the repository path is no directory (nothing is
    there, or a file), the deletion and the creation of the rules folder
    go through, and only then does the listing of the repository throw
    (ENOENT for a missing path, ENOTDIR for a file): the run fails and
    the rules folder is left an empty directory. *)
Theorem X2_syncFiles_no_source (refuses : Refusals) (repo : path)
  (cfg : RulesConfig) (w : World) :
  rm_succeeds refuses (rulesFolderPath cfg) w = true ->
  allowed refuses (OpMkdir (rulesFolderPath cfg)) = true ->
  disjoint (rulesFolderPath cfg) repo = true ->
  is_dir (lookup_path repo (w_fs w)) = false ->
  fst (syncFiles refuses repo cfg w)
  = Thrown (fs_error
              (match lookup_path repo (w_fs w) with
               | None => ENOENT
               | Some _ => ENOTDIR
               end) "scandir" repo)
  /\ lookup_path (rulesFolderPath cfg)
       (w_fs (snd (syncFiles refuses repo cfg w))) = Some (Dir []).
Proof.
  intros Hrm Hal Hdisj Hsrc.
  unfold syncFiles. rewrite log_bind.
  set (w0 := add_log _ _ w).
  assert (Hrm0 : rm_succeeds refuses (rulesFolderPath cfg) w0 = true)
    by exact Hrm.
  rewrite (bind_run _ _ _ _ _ (removeDestination_ok _ _ _ Hrm0)).
  set (w1 := add_log LDebug "Destination directory removed" _).
  pose proof (disjoint_nonempty _ _ Hdisj) as Hne.
  assert (Hfs1 : w_fs w1
                 = update_path (rulesFolderPath cfg) (fun _ => None) (w_fs w))
    by reflexivity.
  assert (Hd1 : lookup_path (rulesFolderPath cfg) (w_fs w1) = None).
  { rewrite Hfs1, lookup_after_rm by assumption.
    apply lookup_remove_path. }
  assert (Hr1 : lookup_path repo (w_fs w1) = lookup_path repo (w_fs w)).
  { rewrite Hfs1, lookup_after_rm by assumption.
    now rewrite lookup_update_disjoint. }
  assert (Hb1 : blocked_by_file (rulesFolderPath cfg) (Some (w_fs w1))
                = false).
  { rewrite Hfs1. unfold rm_succeeds in Hrm.
    destruct (refuses (OpRm (rulesFolderPath cfg))); [discriminate|].
    apply negb_true_iff in Hrm.
    destruct (rulesFolderPath cfg) as [|c p] eqn:E; [congruence|].
    rewrite <- update_opt_cons. now rewrite blocked_after_rm. }
  clearbody w1.
  destruct (mkdirp_absent _ _ Hb1 Hd1) as (r & Hr).
  assert (Hmk : fs_mkdir refuses (rulesFolderPath cfg) w1
                = (Returned tt, set_fs r w1)).
  { unfold fs_mkdir. now rewrite (allowed_None _ _ Hal), Hr. }
  rewrite (bind_run _ _ _ _ _ Hmk).
  assert (Hd2 : lookup_path (rulesFolderPath cfg) r = Some (Dir []))
    by apply (mkdirp_fresh _ _ _ Hd1 Hr).
  assert (Hr2 : lookup_path repo r = lookup_path repo (w_fs w)).
  { rewrite <- Hr1. unfold lookup_path.
    apply (mkdirp_frame _ repo _ _ Hr).
    rewrite <- (app_nil_r (rulesFolderPath cfg)).
    apply not_prefix_under. now rewrite disjoint_sym. }
  assert (Hrun : (copyRulesFromRepo refuses repo cfg ;;
                  log LInfo "File sync completed") (set_fs r w1)
                 = (Thrown (fs_error
                              (match lookup_path repo (w_fs w) with
                               | None => ENOENT
                               | Some _ => ENOTDIR
                               end) "scandir" repo), set_fs r w1)).
  { unfold bind at 1, copyRulesFromRepo, bind at 1, fs_readdir.
    simpl w_fs. rewrite Hr2.
    destruct (lookup_path repo (w_fs w)) as [[c|src]|];
      try discriminate; reflexivity. }
  rewrite Hrun. split; [reflexivity | exact Hd2].
Qed.

Lemma X2_syncFiles_no_source_witness :
  fst (syncFiles no_refusal ["nowhere"] (ex_cfg ["cloud-infra"])
         (ex_world (Some ex_stale) ["cloud-infra"]))
  = Thrown (fs_error ENOENT "scandir" ["nowhere"])
  /\ lookup_path ex_dest
       (w_fs (snd (syncFiles no_refusal ["nowhere"] (ex_cfg ["cloud-infra"])
                     (ex_world (Some ex_stale) ["cloud-infra"]))))
     = Some (Dir []).
Proof.
  apply (X2_syncFiles_no_source no_refusal ["nowhere"]
           (ex_cfg ["cloud-infra"])
           (ex_world (Some ex_stale) ["cloud-infra"]));
    reflexivity.
Defined.

(* ================================================================== *)
(** * The selection of teams *)
(* ================================================================== *)

Lemma existsb_same_members (t : string) (ts ts' : list string) :
  (forall x, In x ts <-> In x ts') ->
  existsb (String.eqb t) ts = existsb (String.eqb t) ts'.
Proof.
  intros H.
  destruct (existsb (String.eqb t) ts) eqn:E1;
    destruct (existsb (String.eqb t) ts') eqn:E2; auto.
  - apply existsb_eqb_In in E1. apply H in E1.
    apply existsb_eqb_In in E1. congruence.
  - apply existsb_eqb_In in E2. apply H in E2.
    apply existsb_eqb_In in E2. congruence.
Qed.

(** X3.  Neither the order of the selected teams nor a repetition among
    them changes what is mirrored.  For two configurations that differ
    only in the list of teams, the lists having the same members, two
    mirrors of the same repository that return (the deletion going
    through) leave rules folders in which every path two or more levels
    down resolves to the same thing, and in which the same first-level
    names are directories. *)
Theorem X3_team_order_irrelevant (refuses : Refusals) (repo : path)
  (cfg cfg' : RulesConfig) (src : entries_t) (w w1 w2 : World) :
  rulesFolderPath cfg' = rulesFolderPath cfg ->
  (forall t, In t (teamNames cfg) <-> In t (teamNames cfg')) ->
  forallb plain_name (teamNames cfg) = true ->
  forallb plain_name (teamNames cfg') = true ->
  disjoint (rulesFolderPath cfg) repo = true ->
  lookup_path repo (w_fs w) = Some (Dir src) ->
  wf_node (Dir src) = true ->
  rm_succeeds refuses (rulesFolderPath cfg) w = true ->
  syncFiles refuses repo cfg w = (Returned tt, w1) ->
  syncFiles refuses repo cfg' w = (Returned tt, w2) ->
  (forall k t q,
     lookup_path (rulesFolderPath cfg ++ k :: t :: q) (w_fs w1)
     = lookup_path (rulesFolderPath cfg ++ k :: t :: q) (w_fs w2))
  /\ (forall k,
        is_dir (lookup_path (rulesFolderPath cfg ++ [k]) (w_fs w1))
        = is_dir (lookup_path (rulesFolderPath cfg ++ [k]) (w_fs w2))).
Proof.
  intros Hdest Hmem Hts Hts' Hdisj Hrepo Hwf Hrm H1 H2.
  destruct (syncFiles_cleared refuses repo cfg src w w1
              Hdisj Hts Hrepo Hwf Hrm H1) as (Hd1 & _ & _).
  rewrite <- Hdest in Hdisj, Hrm.
  destruct (syncFiles_cleared refuses repo cfg' src w w2
              Hdisj Hts' Hrepo Hwf Hrm H2) as (Hd2 & _ & _).
  rewrite Hdest in Hd2.
  assert (Hnd : NoDup (map fst src)).
  { rewrite wf_node_Dir in Hwf. apply andb_true_iff in Hwf as [Hwf _].
    apply andb_true_iff in Hwf as [Hnd _]. now apply nodupb_NoDup. }
  split.
  - intros k t q. rewrite !lookup_path_app, Hd1, Hd2.
    cbn [lookup_opt]. rewrite !(lookup_mirror _ _ _ Hnd).
    destruct (lookup_entry k src) as [[c|es]|]; auto.
    destruct (hidden k); auto. destruct (team_like k); auto.
    cbn [lookup_opt]. rewrite !lookup_select_teams.
    now rewrite (existsb_same_members t _ _ Hmem).
  - intros k. rewrite !lookup_path_app, Hd1, Hd2.
    cbn [lookup_opt]. rewrite !(lookup_mirror _ _ _ Hnd).
    destruct (lookup_entry k src) as [[c|es]|]; auto.
    destruct (hidden k); auto. destruct (team_like k); auto.
Qed.

Lemma X3_team_order_irrelevant_witness :
  lookup_path (ex_dest ++ ["team"; "blue-team"; "general.mdc"])
    (w_fs (snd (syncFiles no_refusal ex_repoPath
                  (ex_cfg ["cloud-infra"; "blue-team"])
                  (ex_world None []))))
  = lookup_path (ex_dest ++ ["team"; "blue-team"; "general.mdc"])
      (w_fs (snd (syncFiles no_refusal ex_repoPath
                    (ex_cfg ["blue-team"; "cloud-infra"; "blue-team"])
                    (ex_world None [])))).
Proof.
  refine (proj1 (X3_team_order_irrelevant no_refusal ex_repoPath
                   (ex_cfg ["cloud-infra"; "blue-team"])
                   (ex_cfg ["blue-team"; "cloud-infra"; "blue-team"])
                   ex_src (ex_world None []) _ _
                   eq_refl _ eq_refl eq_refl eq_refl eq_refl eq_refl
                   eq_refl _ _) "team" "blue-team" ["general.mdc"]).
  - intros t. simpl. tauto.
  - vm_compute. reflexivity.
  - vm_compute. reflexivity.
Defined.

(* ================================================================== *)
(** * What a mirror that returned always holds *)
(* ================================================================== *)

(** The rounds of a loop that ended where it started each changed
    nothing. *)
Lemma fold_fixed_steps {X : Type} (key : X -> string)
  (g : X -> option (option node -> option node)) (l : list X)
  (E E' : entries_t) :
  (forall x f o v,
     In x l -> g x = Some f -> f o = Some v -> f (Some v) = Some v) ->
  (forall x y, In x l -> In y l -> key x = key y -> g x = g y) ->
  fold_opt (keyed_step key g) l E = Some E' ->
  forall x, In x l -> keyed_step key g E' x = Some E'.
Proof.
  intros Hidem Hkeys H.
  apply (fold_settles X key g l Hidem Hkeys l (fun x Hx => Hx) E E' H).
Qed.

(** A round that changed nothing found its result in place. *)
Lemma keyed_step_fixed {X : Type} (key : X -> string)
  (g : X -> option (option node -> option node)) (E : entries_t) (x : X)
  (f : option node -> option node) :
  g x = Some f -> keyed_step key g E x = Some E ->
  exists v, lookup_entry (key x) E = Some v /\ f (Some v) = Some v.
Proof.
  unfold keyed_step. intros -> H.
  destruct (f (lookup_entry (key x) E)) as [v|] eqn:Ef; [|discriminate].
  injection H as H. apply upsert_fixed in H.
  exists v. split; auto. now rewrite H in Ef.
Qed.

Lemma cp_entries_settled (es ds0 ds : entries_t) :
  wf_node (Dir es) = true -> cp_entries es ds0 = Some ds ->
  forall k v, In (k, v) es ->
    exists d, lookup_entry k ds = Some d /\ cp_node v (Some d) = Some d.
Proof.
  intros Hwf H k v Hin. rewrite wf_node_Dir in Hwf.
  apply andb_true_iff in Hwf as [Hwf Hall].
  apply andb_true_iff in Hwf as [Hnd _].
  apply nodupb_NoDup in Hnd. apply wf_all_Forall in Hall.
  rewrite Forall_forall in Hall. rewrite cp_entries_fold in H.
  assert (Hstep : keyed_step fst entry_cp ds (k, v) = Some ds).
  { apply (fold_fixed_steps fst entry_cp es ds0 ds); auto.
    - intros x f o d Hx Hf Hd. injection Hf as <-.
      apply (cp_idem (snd x) (Hall _ Hx) o d Hd).
    - intros x y Hx Hy Hk.
      now rewrite (NoDup_same_entry es x y Hnd Hx Hy Hk). }
  apply (keyed_step_fixed fst entry_cp ds (k, v) (cp_node v) eq_refl Hstep).
Qed.

(** What [fs.cp] leaves holds every node of what it copied. *)
Lemma cp_holds (s : node) :
  wf_node s = true ->
  forall d, cp_node s (Some d) = Some d ->
  forall q n, lookup_opt q (Some s) = Some n ->
              holds_as n (lookup_opt q (Some d)).
Proof.
  induction s as [c|es IH] using node_ind'; intros Hwf d Hcp q n Hq.
  - destruct d as [c'|ds]; simpl in Hcp; [|discriminate].
    injection Hcp as <-. destruct q; simpl in Hq; [|discriminate].
    injection Hq as <-. reflexivity.
  - rewrite cp_node_Dir in Hcp. destruct d as [c'|ds]; [discriminate|].
    destruct (cp_entries es ds) as [ds'|] eqn:E; [|discriminate].
    injection Hcp as ->.
    destruct q as [|k q]; simpl in Hq.
    { injection Hq as <-. reflexivity. }
    destruct (lookup_entry k es) as [v|] eqn:Ek.
    2:{ now rewrite lookup_opt_None in Hq. }
    apply lookup_entry_In in Ek.
    destruct (cp_entries_settled es ds ds Hwf E k v Ek) as (dk & Hdk & Hfix).
    cbn [lookup_opt]. rewrite Hdk.
    rewrite Forall_forall in IH. apply (IH (k, v) Ek); auto.
    rewrite wf_node_Dir in Hwf. apply andb_true_iff in Hwf as [_ Hall].
    apply wf_all_Forall in Hall. rewrite Forall_forall in Hall.
    apply (Hall (k, v) Ek).
Qed.

Lemma merge_team_settled (es : entries_t) (ts : list string)
  (ET ET' : entries_t) (t : string) (sub : entries_t) :
  wf_all es = true -> merge_team es ts ET = Some ET' ->
  In t ts -> lookup_entry t es = Some (Dir sub) ->
  exists d, lookup_entry t ET' = Some d
            /\ cp_node (Dir sub) (Some d) = Some d.
Proof.
  intros Hwf H Hin Ht.
  assert (Hstep : keyed_step (fun t => t) (team_copy es) ET' t = Some ET').
  { apply (fold_fixed_steps (fun t => t) (team_copy es) ts ET ET'); auto.
    - intros x f o v _. unfold team_copy.
      destruct (lookup_entry x es) as [[|sub']|] eqn:Ex; try discriminate.
      intros Hf Hv. injection Hf as <-.
      exact (cp_idem (Dir sub') (wf_lookup_entry x es _ Hwf Ex) o v Hv).
    - now intros x y _ _ ->. }
  apply (keyed_step_fixed (fun t => t) (team_copy es) ET' t
           (cp_node (Dir sub))); auto.
  unfold team_copy. now rewrite Ht.
Qed.

Lemma merge_all_settled (teams : list string) (src E E' : entries_t)
  (k : string) (v : node) :
  wf_node (Dir src) = true -> merge_all teams src E = Some E' ->
  In (k, v) src ->
  keyed_step fst (entry_copy teams) E' (k, v) = Some E'.
Proof.
  intros Hwf H Hin. pose proof Hwf as Hwf'. rewrite wf_node_Dir in Hwf.
  apply andb_true_iff in Hwf as [Hwf Hall].
  apply andb_true_iff in Hwf as [Hnd _].
  apply nodupb_NoDup in Hnd. apply wf_all_Forall in Hall.
  rewrite Forall_forall in Hall.
  apply (fold_fixed_steps fst (entry_copy teams) src E E'); auto.
  - intros [k0 v0] f o d Hx. unfold entry_copy. simpl.
    pose proof (Hall _ Hx) as Hv. simpl in Hv.
    destruct v0 as [c|es]; [discriminate|].
    destruct (prefix "." k0); [discriminate|].
    destruct (prefix "team" k0); intros Hf Hd; injection Hf as <-.
    + rewrite wf_node_Dir in Hv. apply andb_true_iff in Hv as [_ Hes].
      destruct o as [[c|ET]|]; try discriminate.
      * destruct (merge_team es teams ET) as [ET'|] eqn:Em;
          [|discriminate].
        injection Hd as <-. cbn [option_map].
        now rewrite (merge_team_idem es teams ET ET' Hes Em).
      * destruct (merge_team es teams []) as [ET'|] eqn:Em;
          [|discriminate].
        injection Hd as <-. cbn [option_map].
        now rewrite (merge_team_idem es teams [] ET' Hes Em).
    + exact (cp_idem (Dir es) Hv o d Hd).
  - intros x y Hx Hy Hk.
    now rewrite (NoDup_same_entry src x y Hnd Hx Hy Hk).
Qed.

(** X4.  A mirror that returned holds the whole selection, whether or
    not the old rules folder could be deleted.  For a well-formed
    repository apart from the rules folder and plain team names, after
    any run of [syncFiles] that returns, every file of the reference
    mirror is in the rules folder at the same relative path with the
    same content, and every directory of the reference mirror is a
    directory there.  (When the deletion was refused the folder may hold
    more: C2.) *)
Theorem X4_mirror_always_present (refuses : Refusals) (repo : path)
  (cfg : RulesConfig) (src : entries_t) (w w' : World) :
  disjoint (rulesFolderPath cfg) repo = true ->
  forallb plain_name (teamNames cfg) = true ->
  lookup_path repo (w_fs w) = Some (Dir src) ->
  wf_node (Dir src) = true ->
  syncFiles refuses repo cfg w = (Returned tt, w') ->
  forall q n,
    lookup_opt q (Some (Dir (mirror (teamNames cfg) src))) = Some n ->
    holds_as n (lookup_path (rulesFolderPath cfg ++ q) (w_fs w')).
Proof.
  intros Hdisj Hts Hrepo Hwf H q n Hq.
  destruct (syncFiles_merges refuses repo cfg src w w' Hdisj Hts Hrepo
              Hwf H) as (E' & Hm & Hd & _).
  rewrite lookup_path_app, Hd.
  assert (Hnd : NoDup (map fst src)).
  { pose proof Hwf as Hw. rewrite wf_node_Dir in Hw.
    apply andb_true_iff in Hw as [Hw _].
    apply andb_true_iff in Hw as [Hnd _]. now apply nodupb_NoDup. }
  destruct q as [|k q1]; simpl in Hq.
  { injection Hq as <-. reflexivity. }
  rewrite (lookup_mirror _ _ _ Hnd) in Hq.
  destruct (lookup_entry k src) as [[c|es]|] eqn:Ek;
    try (now rewrite lookup_opt_None in Hq).
  destruct (hidden k) eqn:Ehid; [now rewrite lookup_opt_None in Hq|].
  pose proof (lookup_entry_In _ _ _ Ek) as Hin.
  pose proof (merge_all_settled _ _ _ _ _ _ Hwf Hm Hin) as Hstep.
  assert (Hes : wf_node (Dir es) = true).
  { pose proof Hwf as Hw. rewrite wf_node_Dir in Hw.
    apply andb_true_iff in Hw as [_ Hall].
    apply (wf_lookup_entry k src _ Hall Ek). }
  unfold hidden in Ehid. cbn [lookup_opt].
  destruct (team_like k) eqn:Eteam; unfold team_like in Eteam.
  - destruct (keyed_step_fixed fst (entry_copy (teamNames cfg)) E'
                (k, Dir es)
                (fun o => match mkdirp [] o with
                          | Some (Dir ET) =>
                              option_map Dir
                                (merge_team es (teamNames cfg) ET)
                          | _ => None
                          end))
      as (v & Hv & Hfix); auto.
    { unfold entry_copy. simpl. now rewrite Ehid, Eteam. }
    simpl in Hv. rewrite Hv.
    destruct v as [c|ET]; [discriminate|]. cbn [mkdirp] in Hfix.
    destruct (merge_team es (teamNames cfg) ET) as [ET'|] eqn:Emt;
      [|discriminate].
    injection Hfix as ->.
    destruct q1 as [|t q2]; simpl in Hq.
    { injection Hq as <-. reflexivity. }
    rewrite lookup_select_teams in Hq.
    destruct (existsb (String.eqb t) (teamNames cfg)) eqn:Et;
      [|now rewrite lookup_opt_None in Hq].
    apply existsb_eqb_In in Et.
    destruct (lookup_entry t es) as [[c|sub]|] eqn:Ets; simpl in Hq;
      try (now rewrite lookup_opt_None in Hq).
    rewrite wf_node_Dir in Hes. apply andb_true_iff in Hes as [_ Hall].
    destruct (merge_team_settled es (teamNames cfg) ET ET t sub Hall Emt
                Et Ets) as (d & Hd' & Hfix).
    cbn [lookup_opt]. rewrite Hd'.
    apply (cp_holds (Dir sub) (wf_lookup_entry t es _ Hall Ets) d Hfix
             q2 n Hq).
  - destruct (keyed_step_fixed fst (entry_copy (teamNames cfg)) E'
                (k, Dir es) (cp_node (Dir es)))
      as (v & Hv & Hfix); auto.
    { unfold entry_copy. simpl. now rewrite Ehid, Eteam. }
    simpl in Hv. rewrite Hv.
    apply (cp_holds (Dir es) Hes v Hfix q1 n Hq).
Qed.

(** X4 where the deletion is refused: the rule of the selected team is
    in place after the run. *)
Lemma X4_mirror_always_present_witness :
  lookup_path (ex_dest ++ ["team"; "cloud-infra"; "general.mdc"])
    (w_fs (snd (syncFiles refuse_rm ex_repoPath (ex_cfg ["cloud-infra"])
                  (ex_world (Some ex_stale) ["cloud-infra"]))))
  = Some (File "cloud").
Proof.
  apply (X4_mirror_always_present refuse_rm ex_repoPath
           (ex_cfg ["cloud-infra"]) ex_src
           (ex_world (Some ex_stale) ["cloud-infra"])
           (snd (syncFiles refuse_rm ex_repoPath (ex_cfg ["cloud-infra"])
                   (ex_world (Some ex_stale) ["cloud-infra"])))
           eq_refl eq_refl eq_refl eq_refl
           ltac:(vm_compute; reflexivity)
           ["team"; "cloud-infra"; "general.mdc"] (File "cloud")
           ltac:(vm_compute; reflexivity)).
Defined.

(* ================================================================== *)
(** * Repository access: fetch, lock and clone *)
(* ================================================================== *)

(** X5.  Once a clone is in the cache, [fetchRepository] cannot fail.
    Whatever git answers to [rev-parse HEAD], to the fetch, to the
    [rev-parse] of the remote branch and to the hard reset, the method
    returns; the tree is as it was, unless the reset answered with a new
    working tree, which is then what the repository path holds.  The
    error "Git fetch failed" is out of reach there. *)
Theorem X5_fetch_cannot_fail (git : GitEnv) (cfg : RulesConfig)
  (repoPath : path) (w : World) :
  is_dir (lookup_path (path_join repoPath ".git") (w_fs w)) = true ->
  exists w',
    fetchRepository git cfg repoPath w = (Returned tt, w')
    /\ (w_fs w' = w_fs w
        \/ exists b tree,
             g_reset git b = Ok tree
             /\ w_fs w' = update_path repoPath (fun _ => Some tree) (w_fs w))
    /\ same_host w w'.
Proof.
  intros Hgit.
  unfold fetchRepository, repositoryExists, stat_isDirectory, try_catch,
    bind, await, ret, throw, log, write_tree.
  destruct (g_head git) as [cur|m]; simpl.
  2:{ rewrite Hgit. eexists. repeat split. now left. }
  destruct (g_fetch git) as [[]|m]; simpl.
  2:{ rewrite Hgit. eexists. repeat split. now left. }
  destruct (g_remote_commit git
              (if truthy (branch cfg) then branch cfg
               else g_default_branch git)) as [rem|m]; simpl.
  2:{ rewrite Hgit. eexists. repeat split. now left. }
  destruct (cur =? rem); simpl.
  { eexists. repeat split. now left. }
  destruct (g_reset git
              (if truthy (branch cfg) then branch cfg
               else g_default_branch git)) as [tree|m] eqn:Er; simpl.
  - eexists. repeat split. right. eauto.
  - rewrite Hgit. eexists. repeat split. now left.
Qed.

Lemma X5_fetch_cannot_fail_witness :
  exists w',
    fetchRepository git_offline (ex_cfg []) ex_repoPath (ex_world None [])
    = (Returned tt, w')
    /\ (w_fs w' = w_fs (ex_world None [])
        \/ exists b tree,
             g_reset git_offline b = Ok tree
             /\ w_fs w' = update_path ex_repoPath (fun _ => Some tree)
                            (w_fs (ex_world None [])))
    /\ same_host (ex_world None []) w'.
Proof.
  apply (X5_fetch_cannot_fail git_offline (ex_cfg []) ex_repoPath
           (ex_world None []) eq_refl).
Defined.




Lemma fs_mkdir_runs (refuses : Refusals) (p : path) (w : World) (r : node) :
  refuses (OpMkdir p) = None -> mkdirp p (Some (w_fs w)) = Some r ->
  fs_mkdir refuses p w = (Returned tt, set_fs r w)
  /\ fs_mkdir refuses p (set_fs r w) = (Returned tt, set_fs r w).
Proof.
  intros Hno Hr. split.
  - unfold fs_mkdir. now rewrite Hno, Hr.
  - apply fs_mkdir_existing; auto. apply (mkdirp_is_dir _ _ _ Hr).
Qed.

(** X7.  Nothing is done to the repository without the lock.  When the
    lock is refused, [ensureRepository] throws "Failed to acquire lock:"
    followed by the message of the lock library; all it has done by then
    is to create the cache directory: no clone, no fetch, no log line,
    and no release of a lock that was never held. *)
Theorem X7_lock_refused (refuses : Refusals) (git : GitEnv)
  (slug : string -> string) (cfg : RulesConfig) (w : World)
  (msg : string) (r : node) :
  g_lock git = Fail msg ->
  refuses (OpMkdir (path_dirname (getRepositoryPath slug cfg))) = None ->
  mkdirp (path_dirname (getRepositoryPath slug cfg)) (Some (w_fs w))
  = Some r ->
  ensureRepository refuses git slug cfg w
  = (Thrown (new_Error ("Failed to acquire lock: " ++ msg)), set_fs r w).
Proof.
  intros Hlock Hno Hr.
  destruct (fs_mkdir_runs refuses _ w r Hno Hr) as [H1 H2].
  unfold ensureRepository, acquireLock.
  rewrite (bind_run _ _ _ _ _ H1). rewrite bind_assoc.
  rewrite (bind_run _ _ _ _ _ H2). rewrite Hlock. reflexivity.
Qed.

Lemma X7_lock_refused_witness :
  ensureRepository no_refusal git_locked ex_slug (ex_cfg [])
    (ex_world None [])
  = (Thrown (new_Error
               "Failed to acquire lock: Lock file is already being held"),
     ex_world None []).
Proof.
  apply (X7_lock_refused no_refusal git_locked ex_slug (ex_cfg [])
           (ex_world None []) "Lock file is already being held"
           (w_fs (ex_world None []))); reflexivity.
Defined.

Lemma prefix_app (a b : string) : prefix a (a ++ b) = true.
Proof.
  induction a as [|c a IH]; simpl.
  - now destruct b.
  - destruct (Ascii.ascii_dec c c); [exact IH | congruence].
Qed.

Lemma includes_of_prefix (hay needle : string) :
  prefix needle hay = true -> includes hay needle = true.
Proof. destruct hay; simpl; intros ->; reflexivity. Qed.

Lemma includes_prefix (a b : string) : includes (a ++ b) a = true.
Proof. apply includes_of_prefix, prefix_app. Qed.

Lemma is_prefix_length (p q : path) :
  is_prefix p q = true -> List.length p <= List.length q.
Proof.
  revert q; induction p as [|c p IH]; intros [|d q] H; simpl in *;
    try discriminate; try lia.
  apply andb_true_iff in H as [_ H]. apply IH in H. lia.
Qed.

(** With no clone in the cache and the lock granted, a clone that fails
    (or whose branch cannot be read) makes repository access throw "Git
    clone failed:", and shows the user nothing. *)
Lemma ensureRepository_clone_fails (refuses : Refusals) (git : GitEnv)
  (slug : string -> string) (cfg : RulesConfig) (w : World)
  (msg : string) (r : node) :
  refuses (OpMkdir (path_dirname (getRepositoryPath slug cfg))) = None ->
  mkdirp (path_dirname (getRepositoryPath slug cfg)) (Some (w_fs w))
  = Some r ->
  is_dir (lookup_path (path_join (getRepositoryPath slug cfg) ".git") r)
  = false ->
  g_lock git = Ok tt ->
  (g_clone git = Fail msg
   \/ exists tree, g_clone git = Ok tree /\ g_abbrev_head git = Fail msg) ->
  exists w1,
    ensureRepository refuses git slug cfg w
    = (Thrown (new_Error ("Git clone failed: " ++ msg)), w1)
    /\ w_ui w1 = w_ui w.
Proof.
  intros Hno Hr Hnogit Hlock Hclone.
  destruct (quiet_ensureRepository refuses git slug cfg w) as (Hui & _).
  destruct (fs_mkdir_runs refuses _ w r Hno Hr) as [H1 H2].
  revert Hui. unfold ensureRepository, acquireLock.
  rewrite (bind_run _ _ _ _ _ H1). rewrite bind_assoc.
  rewrite (bind_run _ _ _ _ _ H2). rewrite Hlock.
  unfold try_finally, repositoryExists, cloneRepository, releaseLock,
    stat_isDirectory.
  unfold bind, try_catch, await, ret, throw, log, write_tree.
  simpl. rewrite Hnogit. simpl.
  destruct Hclone as [Hc|(tree & Hc & Ha)]; rewrite Hc; simpl;
    try (rewrite Ha; simpl);
    destruct (g_release git) as [[]|m]; simpl; intros Hui;
    eexists; split; try reflexivity; exact Hui.
Qed.

Lemma removelast_shorter {A} (l : list A) :
  List.length (removelast l) <= List.length l.
Proof.
  induction l as [|x [|y l] IH]; simpl in *; lia.
Qed.

Lemma syncRules_clone_fails (slug : string -> string) (env : Env)
  (w : World) (cfg : RulesConfig) (msg : string) (r : node) :
  w_disposed w = false ->
  isConfigured (w_settings w) = true ->
  getConfig (w_settings w) = cfg ->
  validateConfig (w_settings w) cfg = [] ->
  refusals env (OpMkdir (path_dirname (getRepositoryPath slug cfg))) = None ->
  mkdirp (path_dirname (getRepositoryPath slug cfg)) (Some (w_fs w))
  = Some r ->
  is_dir (lookup_path (path_join (getRepositoryPath slug cfg) ".git")
            (w_fs w)) = false ->
  g_lock (git_env env) = Ok tt ->
  (g_clone (git_env env) = Fail msg
   \/ exists tree, g_clone (git_env env) = Ok tree
                   /\ g_abbrev_head (git_env env) = Fail msg) ->
  exists w1,
    syncRules slug env w
    = (Thrown (new_Error ("Git clone failed: " ++ msg)), w1)
    /\ w_ui w1 = w_ui w.
Proof.
  intros Hd Hc Hcfg Hv Hno Hr Hnogit Hlock Hclone.
  rewrite (syncRules_guarded slug env w cfg Hd Hc Hcfg Hv).
  set (w0 := add_log LInfo ("Syncing rules from " ++ repoUrl cfg) w).
  assert (Hnogit' : is_dir (lookup_path
                              (path_join (getRepositoryPath slug cfg) ".git")
                              r) = false).
  { assert (Hsame : lookup_path
                      (path_join (getRepositoryPath slug cfg) ".git") r
                    = lookup_path
                        (path_join (getRepositoryPath slug cfg) ".git")
                        (w_fs w)); [|now rewrite Hsame].
    unfold lookup_path. apply (mkdirp_frame _ _ _ _ Hr).
    rewrite path_join_plain by reflexivity.
    destruct (is_prefix (getRepositoryPath slug cfg ++ [".git"])
                (path_dirname (getRepositoryPath slug cfg))) eqn:E; auto.
    apply is_prefix_length in E. unfold path_dirname in E.
    rewrite length_app in E. simpl in E.
    pose proof (removelast_shorter (getRepositoryPath slug cfg)) as Hl.
    lia. }
  destruct (ensureRepository_clone_fails (refusals env) (git_env env) slug
              cfg w0 msg r Hno Hr Hnogit' Hlock Hclone) as (w1 & H1 & Hui).
  exists (add_log LError "Sync failed" w1). split.
  - unfold try_catch, bind at 1. now rewrite H1.
  - exact Hui.
Qed.

(** X8.  A first clone that fails never opens the blocking dialog.  On
    activation, with a valid configuration, no clone in the cache and
    the lock granted, a clone that fails (or a clone whose branch cannot
    be read afterwards) surfaces as "Git clone failed: ...", which
    [performInitialSetup] takes for a repository access error: the user
    is shown the notice offering "Open Settings" and "Work with Local
    Copy", and no modal dialog, whatever git's message is. *)
Theorem X8_clone_failure_never_modal (slug : string -> string) (env : Env)
  (reply : ModalReply) (w : World) (cfg : RulesConfig) (msg : string)
  (r : node) :
  w_disposed w = false ->
  isConfigured (w_settings w) = true ->
  getConfig (w_settings w) = cfg ->
  validateConfig (w_settings w) cfg = [] ->
  refusals env (OpMkdir (path_dirname (getRepositoryPath slug cfg))) = None ->
  mkdirp (path_dirname (getRepositoryPath slug cfg)) (Some (w_fs w))
  = Some r ->
  is_dir (lookup_path (path_join (getRepositoryPath slug cfg) ".git")
            (w_fs w)) = false ->
  g_lock (git_env env) = Ok tt ->
  (g_clone (git_env env) = Fail msg
   \/ exists tree, g_clone (git_env env) = Ok tree
                   /\ g_abbrev_head (git_env env) = Fail msg) ->
  filter is_modal
    (w_ui (snd (performInitialSetup slug (Attempt env reply) w)))
  = filter is_modal (w_ui w)
  /\ exists rest,
       w_ui (snd (performInitialSetup slug (Attempt env reply) w))
       = w_ui w
         ++ ShowWarning
              ("Failed to access AI rules repository: Git clone failed: "
                 ++ msg)
              ["Open Settings"; "Work with Local Copy"] :: rest.
Proof.
  intros Hd Hc Hcfg Hv Hno Hr Hnogit Hlock Hclone.
  set (wa := add_log LInfo "Configuration valid, starting initial sync..."
               (add_log LInfo "Checking configuration..." w)).
  destruct (syncRules_clone_fails slug env wa cfg msg r Hd Hc Hcfg Hv Hno
              Hr Hnogit Hlock Hclone) as (w1 & H1 & Hui).
  assert (Hbody : initialSetupBody slug env w
                  = (Thrown (new_Error ("Git clone failed: " ++ msg)), w1)).
  { unfold initialSetupBody. rewrite log_bind.
    unfold bind at 1, get_settings.
    change (w_settings (add_log LInfo "Checking configuration..." w))
      with (w_settings w).
    rewrite Hc, Hcfg, Hv. cbn [negb List.length Nat.eqb].
    rewrite log_bind. fold wa. unfold bind at 1. now rewrite H1. }
  assert (Heq : performInitialSetup slug (Attempt env reply) w
                = offerReconfiguration slug env ("Git clone failed: " ++ msg)
                    (add_log LWarn
                       "Repository access failed, offering reconfiguration"
                       (add_log LError "Initial setup failed" w1))).
  { unfold performInitialSetup, try_catch. rewrite Hbody.
    rewrite log_bind.
    change (e_message (new_Error ("Git clone failed: " ++ msg)))
      with ("Git clone failed: " ++ msg)%string.
    cbv zeta.
    assert (Ha : isRepositoryAccessError ("Git clone failed: " ++ msg)
                 = true).
    { unfold isRepositoryAccessError.
      change ("Git clone failed: " ++ msg)%string
        with ("Git clone failed" ++ (": " ++ msg))%string.
      rewrite includes_prefix. now rewrite !orb_true_r. }
    rewrite Ha. now rewrite log_bind. }
  rewrite Heq. change (w_ui w) with (w_ui wa). rewrite <- Hui. split.
  - apply (calm_modals
             (offerReconfiguration slug env ("Git clone failed: " ++ msg))
             (add_log LWarn
                "Repository access failed, offering reconfiguration"
                (add_log LError "Initial setup failed" w1))).
    apply calm_offerReconfiguration.
  - destruct (offerReconfiguration_first_notice slug env
                ("Git clone failed: " ++ msg)
                (add_log LWarn
                   "Repository access failed, offering reconfiguration"
                   (add_log LError "Initial setup failed" w1)))
      as (rest & Hrest).
    exists rest. rewrite Hrest. simpl w_ui.
    now rewrite <- append_assoc.
Qed.

Lemma X8_clone_failure_never_modal_witness :
  filter is_modal
    (w_ui (snd (performInitialSetup ex_slug
                  (Attempt env_offline (ClickRetry (Attempt env_offline
                                                      Dismissed)))
                  (ex_world_no_cache ["cloud-infra"]))))
  = [].
Proof.
  refine (proj1 (X8_clone_failure_never_modal ex_slug env_offline
                   (ClickRetry (Attempt env_offline Dismissed))
                   (ex_world_no_cache ["cloud-infra"])
                   (ex_cfg ["cloud-infra"])
                   "fatal: unable to access the remote: Could not resolve host"
                   _ eq_refl eq_refl eq_refl eq_refl eq_refl _ eq_refl
                   eq_refl (or_introl eq_refl))).
  vm_compute. reflexivity.
Defined.

(* ================================================================== *)
(** * The orchestrator: the guards and the settings *)
(* ================================================================== *)

Lemma unfailing_setupPeriodicSync : unfailing setupPeriodicSync.
Proof.
  intros w. unfold setupPeriodicSync.
  destruct (negb _); [now exists tt|].
  destruct (0 <? _)%Z; now exists tt.
Qed.

(** X10.  [syncRules] behind its guards.  After [dispose] it does
    nothing at all.  When the extension is not configured, or the
    configuration does not validate, it returns without an error and
    without touching the tree, the settings or the timer; neither git
    nor the file system is consulted (the run is the same in every
    environment with the same answer to the prompt), and what the user
    sees is not modal. *)
Theorem X10_syncRules_guards (slug : string -> string) (env env' : Env)
  (w : World) :
  (w_disposed w = true -> syncRules slug env w = (Returned tt, w))
  /\ (isConfigured (w_settings w) = false
      \/ validateConfig (w_settings w) (getConfig (w_settings w)) <> [] ->
      fst (syncRules slug env w) = Returned tt
      /\ w_fs (snd (syncRules slug env w)) = w_fs w
      /\ w_settings (snd (syncRules slug env w)) = w_settings w
      /\ w_timer (snd (syncRules slug env w)) = w_timer w
      /\ filter is_modal (w_ui (snd (syncRules slug env w)))
         = filter is_modal (w_ui w)
      /\ (prompt env' = prompt env ->
          syncRules slug env' w = syncRules slug env w)).
Proof.
  split.
  { intros Hd. unfold syncRules. now rewrite Hd. }
  intros Hguard.
  assert (Hmod : filter is_modal (w_ui (snd (syncRules slug env w)))
                 = filter is_modal (w_ui w))
    by apply calm_modals, calm_syncRules.
  revert Hmod. unfold syncRules.
  destruct (w_disposed w); [intros; repeat split; auto|].
  destruct (isConfigured (w_settings w)) eqn:Ec; simpl negb; cbv iota.
  - destruct Hguard as [Hg|Hg]; [discriminate|].
    destruct (validateConfig (w_settings w) (getConfig (w_settings w)))
      as [|err errs]; [congruence|].
    intros Hmod. repeat split; auto.
  - unfold promptToConfigure, bind, show, executeCommand, ret.
    intros Hmod. repeat split; auto;
      try (destruct (prompt env) as [a|]; [destruct (a =? "Open Settings")|];
           reflexivity).
    intros ->. reflexivity.
Qed.

Lemma X10_syncRules_guards_witness :
  fst (syncRules ex_slug env_online
         (mkWorld (ex_tree None) [] []
            (mkSettings "" [] ex_dest ex_cache 0 None None (Some ex_workspace))
            None false)) = Returned tt
  /\ w_fs (snd (syncRules ex_slug env_online
                  (mkWorld (ex_tree None) [] []
                     (mkSettings "" [] ex_dest ex_cache 0 None None
                        (Some ex_workspace))
                     None false))) = ex_tree None.
Proof.
  destruct (proj2 (X10_syncRules_guards ex_slug env_online env_online
                     (mkWorld (ex_tree None) [] []
                        (mkSettings "" [] ex_dest ex_cache 0 None None
                           (Some ex_workspace))
                        None false)) (or_introl eq_refl))
    as (H1 & H2 & _).
  split; [exact H1 | exact H2].
Defined.

(** X11.  The refresh command reports success when nothing was synced.
    When the extension is disposed, not configured, or its configuration
    does not validate, [syncRules] returns without an error, so the
    command [aiRulesSyncer.refreshRules] ends by showing "AI Rules
    refreshed successfully", the tree being exactly as it was. *)
Theorem X11_refresh_reports_success (slug : string -> string) (env : Env)
  (w : World) :
  w_disposed w = true
  \/ isConfigured (w_settings w) = false
  \/ validateConfig (w_settings w) (getConfig (w_settings w)) <> [] ->
  exists evs,
    fst (refreshCommand slug env w) = Returned tt
    /\ w_fs (snd (refreshCommand slug env w)) = w_fs w
    /\ w_ui (snd (refreshCommand slug env w))
       = w_ui w ++ evs
         ++ [ShowInformation false "AI Rules refreshed successfully" []].
Proof.
  intros Hguard.
  assert (Hsync : exists evs w1,
             syncRules slug env w = (Returned tt, w1)
             /\ w_fs w1 = w_fs w /\ w_ui w1 = w_ui w ++ evs).
  { unfold syncRules.
    destruct (w_disposed w).
    { exists [], w. rewrite app_nil_r. auto. }
    destruct Hguard as [Hg|Hguard]; [discriminate|].
    destruct (isConfigured (w_settings w)) eqn:Ec; simpl negb; cbv iota.
    - destruct Hguard as [Hg|Hg]; [discriminate|].
      destruct (validateConfig (w_settings w) (getConfig (w_settings w)))
        as [|err errs]; [congruence|].
      eexists [_], _. split; [reflexivity|]. split; reflexivity.
    - unfold promptToConfigure, bind, show, executeCommand, ret.
      destruct (prompt env) as [a|]; [destruct (a =? "Open Settings")|].
      + eexists [_; _], _. split; [reflexivity|]. split; [reflexivity|].
        simpl. now rewrite <- app_assoc.
      + eexists [_], _. split; [reflexivity|]. split; reflexivity.
      + eexists [_], _. split; [reflexivity|]. split; reflexivity. }
  destruct Hsync as (evs & w1 & Hs & Hfs & Hui).
  exists evs. unfold refreshCommand, try_catch, bind. rewrite Hs.
  simpl. rewrite Hui, Hfs. repeat split. now rewrite app_assoc.
Qed.

Lemma X11_refresh_reports_success_witness :
  exists evs,
    fst (refreshCommand ex_slug env_online
           (mkWorld (ex_tree None) [] []
              (mkSettings "ftp://rules" [] ex_dest ex_cache 0 None None
                 (Some ex_workspace))
              None false)) = Returned tt
    /\ w_fs (snd (refreshCommand ex_slug env_online
                    (mkWorld (ex_tree None) [] []
                       (mkSettings "ftp://rules" [] ex_dest ex_cache 0 None
                          None (Some ex_workspace))
                       None false))) = ex_tree None
    /\ w_ui (snd (refreshCommand ex_slug env_online
                    (mkWorld (ex_tree None) [] []
                       (mkSettings "ftp://rules" [] ex_dest ex_cache 0 None
                          None (Some ex_workspace))
                       None false)))
       = [] ++ evs
         ++ [ShowInformation false "AI Rules refreshed successfully" []].
Proof.
  apply (X11_refresh_reports_success ex_slug env_online
           (mkWorld (ex_tree None) [] []
              (mkSettings "ftp://rules" [] ex_dest ex_cache 0 None None
                 (Some ex_workspace))
              None false)).
  right. left. reflexivity.
Defined.

(** X12.  What a change of the settings triggers.  An event that does
    not affect [aiRulesSyncer] leaves the world as it is.  An event that
    affects it but none of the five settings [repoUrl], [teamNames],
    [branch], [rulesFolderPath], [cacheDirPath] (a change of
    [syncIntervalMinutes] alone, say) only re-arms the timer: the tree
    and what the user was shown are unchanged, and the timer runs
    exactly when the configuration validates and the interval is
    positive.  An event that affects one of the five runs, after the
    timer is re-armed, the very attempt a timer tick would run. *)
Theorem X12_config_change (slug : string -> string)
  (affects : string -> bool) (env : Env) (w : World) :
  (affects "aiRulesSyncer" = false ->
   onConfigChanged slug affects env w = (Returned tt, w))
  /\ (affects "aiRulesSyncer" = true ->
      (forall s, In s resyncSettings -> affects s = false) ->
      w_fs (snd (onConfigChanged slug affects env w)) = w_fs w
      /\ w_ui (snd (onConfigChanged slug affects env w)) = w_ui w
      /\ w_timer (snd (onConfigChanged slug affects env w))
         = (if Nat.eqb (List.length
                          (validateConfig (w_settings w)
                             (getConfig (w_settings w)))) 0
               && (0 <? syncIntervalMinutes (getConfig (w_settings w)))%Z
            then Some (syncIntervalMinutes (getConfig (w_settings w)))
            else None))
  /\ (affects "aiRulesSyncer" = true ->
      (exists s, In s resyncSettings /\ affects s = true) ->
      exists w0,
        w_fs w0 = w_fs w /\ w_ui w0 = w_ui w
        /\ w_settings w0 = w_settings w
        /\ onConfigChanged slug affects env w = timerTick slug env w0).
Proof.
  split; [|split].
  - intros Ha. unfold onConfigChanged. now rewrite Ha.
  - intros Ha Hnone. unfold onConfigChanged. rewrite Ha.
    assert (Hex : existsb
                    (fun setting =>
                       existsb (String.eqb setting) resyncSettings)
                    (filter affects watchedSettings) = false).
    { destruct (existsb _ (filter affects watchedSettings)) eqn:E; auto.
      apply existsb_exists in E as (s & Hs & Hin).
      apply filter_In in Hs as [_ Hs].
      apply existsb_eqb_In in Hin. rewrite (Hnone s Hin) in Hs.
      discriminate. }
    cbv zeta. rewrite Hex. rewrite !log_bind.
    unfold bind, setupPeriodicSync, ret, log. simpl.
    destruct (Nat.eqb _ 0); simpl; auto.
    destruct (0 <? _)%Z; simpl; auto.
  - intros Ha (s & Hin & Hs). unfold onConfigChanged. rewrite Ha.
    assert (Hex : existsb
                    (fun setting =>
                       existsb (String.eqb setting) resyncSettings)
                    (filter affects watchedSettings) = true).
    { apply existsb_exists. exists s. split.
      - apply filter_In. split; auto.
        simpl in Hin. simpl.
        repeat (destruct Hin as [<-|Hin]; [tauto|]). contradiction.
      - now apply existsb_eqb_In. }
    cbv zeta. rewrite Hex. rewrite !log_bind.
    unfold bind at 1.
    destruct (unfailing_setupPeriodicSync
                (add_log LDebug
                   ("Changed settings: "
                      ++ join_with ", " (filter affects watchedSettings))
                   (add_log LInfo
                      "Configuration changed, applying updates..." w)))
      as ([] & Hret).
    assert (Hq : forall w', w_fs (snd (setupPeriodicSync w')) = w_fs w'
                            /\ w_ui (snd (setupPeriodicSync w')) = w_ui w'
                            /\ w_settings (snd (setupPeriodicSync w'))
                               = w_settings w').
    { intros w'. unfold setupPeriodicSync.
      destruct (negb _); [repeat split|].
      destruct (0 <? _)%Z; repeat split. }
    specialize (Hq (add_log LDebug
                      ("Changed settings: "
                         ++ join_with ", " (filter affects watchedSettings))
                      (add_log LInfo
                         "Configuration changed, applying updates..." w))).
    destruct (setupPeriodicSync _) as [[[]|e] w1]; simpl in Hret;
      [|discriminate].
    rewrite log_bind. simpl in Hq. destruct Hq as (Hf & Hu & Hst).
    exists (add_log LInfo "Relevant settings changed, triggering sync..." w1).
    repeat split; auto.
Qed.

Lemma X12_config_change_witness :
  w_fs (snd (onConfigChanged ex_slug
               (fun s => (s =? "aiRulesSyncer")
                         || (s =? "aiRulesSyncer.syncIntervalMinutes"))
               env_offline (ex_world (Some ex_stale) [])))
  = ex_tree (Some ex_stale)
  /\ w_ui (snd (onConfigChanged ex_slug
                  (fun s => (s =? "aiRulesSyncer")
                            || (s =? "aiRulesSyncer.syncIntervalMinutes"))
                  env_offline (ex_world (Some ex_stale) []))) = [].
Proof.
  destruct (proj1 (proj2 (X12_config_change ex_slug
                            (fun s => (s =? "aiRulesSyncer")
                                      || (s =? "aiRulesSyncer.syncIntervalMinutes"))
                            env_offline (ex_world (Some ex_stale) [])))
              eq_refl) as (H1 & H2 & _).
  - intros s Hin. simpl in Hin.
    repeat (destruct Hin as [<-|Hin]; [reflexivity|]). contradiction.
  - split; [exact H1 | exact H2].
Defined.

(* ================================================================== *)
(** * [ConfigManager]: validation and the team names *)
(* ================================================================== *)

Lemma prefix_nil (s : string) : prefix "" s = true.
Proof. now destruct s. Qed.

Lemma prefix_cons (c : ascii) (p s : string) :
  prefix (String c p) s = true <-> exists s', s = String c s' /\ prefix p s' = true.
Proof.
  destruct s as [|d s]; simpl.
  - split; [discriminate | intros (s' & H & _); discriminate].
  - destruct (Ascii.ascii_dec c d) as [<-|Hne].
    + split; [eauto | intros (s' & [= <-] & H); exact H].
    + split; [discriminate | intros (s' & [= <- _] & _); congruence].
Qed.

Lemma trim_end_cons (c : ascii) (s : string) :
  is_space c = false -> trim_end (String c s) = String c (trim_end s).
Proof. intros H. simpl. now rewrite H. Qed.

Lemma trim_start_cons (c : ascii) (s : string) :
  is_space c = false -> trim_start (String c s) = String c s.
Proof. intros H. simpl. now rewrite H. Qed.

(** Trimming keeps a prefix that holds no white space. *)
Lemma prefix_trim (p s : string) :
  string_forallb (fun c => negb (is_space c)) p = true ->
  p <> "" -> prefix p s = true -> prefix p (trim s) = true.
Proof.
  intros Hp Hne H. unfold trim.
  assert (Hstart : trim_start s = s).
  { destruct p as [|c p]; [congruence|].
    apply prefix_cons in H as (s' & -> & _).
    simpl in Hp. apply andb_true_iff in Hp as [Hc _].
    apply negb_true_iff in Hc. now apply trim_start_cons. }
  rewrite Hstart. clear Hstart Hne.
  revert s H; induction p as [|c p IH]; intros s H.
  - apply prefix_nil.
  - apply prefix_cons in H as (s' & -> & H).
    simpl in Hp. apply andb_true_iff in Hp as [Hc Hp].
    apply negb_true_iff in Hc. rewrite trim_end_cons by assumption.
    apply prefix_cons. eauto.
Qed.

Lemma urlPattern_trim (u : string) :
  urlPattern u = true -> urlPattern (trim u) = true.
Proof.
  unfold urlPattern. intros H.
  apply orb_true_iff in H as [H|H]; [apply orb_true_iff in H as [H|H]|].
  - rewrite (prefix_trim "http://" u); auto. discriminate.
  - rewrite (prefix_trim "https://" u); auto;
      [now rewrite orb_true_r | discriminate].
  - rewrite (prefix_trim "git@" u); auto;
      [now rewrite !orb_true_r | discriminate].
Qed.

Lemma strip_prefix_app (root rules q : path) :
  strip_prefix root rules = Some q <-> rules = root ++ q.
Proof.
  revert rules; induction root as [|c root IH]; intros rules; simpl.
  - split; [now intros [= ->] | now intros ->].
  - destruct rules as [|d rules]; [split; discriminate|].
    destruct (c =? d) eqn:E.
    + apply String.eqb_eq in E; subst d. rewrite IH.
      split; [now intros -> | now intros [= ->]].
    + split; [discriminate|]. intros [= -> _].
      now rewrite String.eqb_refl in E.
Qed.

(** X13.  Which configurations validate.  [validateConfig] returns no
    error exactly when the URL is not blank and starts with [http://],
    [https://] or [git@] (as written, not trimmed), the interval is not
    negative and, if a workspace is open, the rules folder lies strictly
    below the workspace root, its first component below the root not
    starting with two dots.  A configuration that validates is one that
    [isConfigured] accepts. *)
Theorem X13_valid_configurations (s : Settings) (cfg : RulesConfig) :
  (validateConfig s cfg = []
   <-> truthy (trim (repoUrl cfg)) = true
       /\ urlPattern (repoUrl cfg) = true
       /\ (0 <= syncIntervalMinutes cfg)%Z
       /\ (forall root, s_workspaceRoot s = Some root ->
             exists c rest,
               rulesFolderPath cfg = root ++ c :: rest
               /\ prefix ".." c = false))
  /\ (validateConfig s (getConfig s) = [] -> isConfigured s = true).
Proof.
  assert (Hiff : validateConfig s cfg = []
                 <-> truthy (trim (repoUrl cfg)) = true
                     /\ urlPattern (repoUrl cfg) = true
                     /\ (0 <= syncIntervalMinutes cfg)%Z
                     /\ (forall root, s_workspaceRoot s = Some root ->
                           exists c rest,
                             rulesFolderPath cfg = root ++ c :: rest
                             /\ prefix ".." c = false)).
  { unfold validateConfig, isInsideWorkspace. split.
    - intros H. apply app_eq_nil in H as [H1 H2].
      apply app_eq_nil in H2 as [H2 H3].
      destruct (truthy (trim (repoUrl cfg))); [|discriminate].
      destruct (urlPattern (repoUrl cfg)); [|discriminate].
      destruct (syncIntervalMinutes cfg <? 0)%Z eqn:Ez; [discriminate|].
      apply Z.ltb_ge in Ez. repeat split; auto.
      intros root Hroot. rewrite Hroot in H3.
      destruct (strip_prefix root (rulesFolderPath cfg)) as [[|c rest]|]
        eqn:Es; try discriminate.
      apply strip_prefix_app in Es. exists c, rest. split; auto.
      destruct (prefix ".." c); [discriminate | reflexivity].
    - intros (H1 & H2 & H3 & H4). rewrite H1, H2. simpl.
      apply Z.ltb_ge in H3. rewrite H3. simpl.
      destruct (s_workspaceRoot s) as [root|]; auto.
      destruct (H4 root eq_refl) as (c & rest & Hr & Hc).
      apply strip_prefix_app in Hr. now rewrite Hr, Hc. }
  split; [exact Hiff|].
  intros H.
  assert (Hv : truthy (trim (repoUrl (getConfig s))) = true
               /\ urlPattern (repoUrl (getConfig s)) = true).
  { unfold validateConfig in H. apply app_eq_nil in H as [H1 _].
    destruct (truthy (trim (repoUrl (getConfig s)))); [|discriminate].
    destruct (urlPattern (repoUrl (getConfig s))); [auto|discriminate]. }
  destruct Hv as [Ht Hu]. unfold isConfigured.
  rewrite (urlPattern_trim _ Hu).
  unfold truthy in Ht. apply negb_true_iff in Ht.
  destruct (trim (repoUrl (getConfig s))); [discriminate | reflexivity].
Qed.

(** X13 on the example: the configuration of the README validates. *)
Lemma X13_valid_configurations_witness :
  validateConfig (ex_settings []) (ex_cfg []) = []
  /\ isConfigured (ex_settings []) = true.
Proof.
  destruct (X13_valid_configurations (ex_settings []) (ex_cfg []))
    as [[_ Hvalid] Hconf].
  assert (H : validateConfig (ex_settings []) (ex_cfg []) = []).
  { apply Hvalid.
    split; [reflexivity|]. split; [reflexivity|]. split; [cbn; lia|].
    intros root E. injection E as <-.
    exists ".cursor", ["rules"; "remote"]. split; reflexivity. }
  split; [exact H | exact (Hconf H)].
Defined.

Lemma trim_start_head (s : string) :
  match trim_start s with
  | EmptyString => True
  | String c _ => is_space c = false
  end.
Proof.
  induction s as [|c s IH]; simpl; auto.
  destruct (is_space c) eqn:E; simpl; auto.
Qed.

Lemma trim_end_idem (s : string) : trim_end (trim_end s) = trim_end s.
Proof.
  induction s as [|c s IH]; simpl; auto.
  destruct (is_space c && (trim_end s =? "")) eqn:E; simpl; auto.
  now rewrite IH, E.
Qed.

Lemma trim_end_head (s : string) :
  match s with
  | EmptyString => True
  | String c _ => is_space c = false
  end ->
  trim_start (trim_end s) = trim_end s.
Proof.
  destruct s as [|c s]; auto. intros H.
  rewrite trim_end_cons by assumption. now apply trim_start_cons.
Qed.

(** [trim] applied twice is [trim]. *)
Lemma trim_idem (s : string) : trim (trim s) = trim s.
Proof.
  unfold trim. rewrite (trim_end_head (trim_start s) (trim_start_head s)).
  apply trim_end_idem.
Qed.

Lemma In_normalized (t : string) (names : list string) :
  In t (filter truthy (map trim names)) ->
  t <> "" /\ trim t = t /\ exists raw, In raw names /\ t = trim raw.
Proof.
  intros H. apply filter_In in H as [Hin Ht].
  apply in_map_iff in Hin as (raw & <- & Hraw). repeat split.
  - intros E. rewrite E in Ht. discriminate.
  - apply trim_idem.
  - eauto.
Qed.

(** X14.  The team names [getConfig] makes of the setting are clean.
    For a setting of ASCII characters, in its array form or in its
    comma-separated string form, every name handed out is the trimmed
    form of a name of the setting (an element of the array, a piece
    between commas of the string), is not empty, and has no white space
    at either end: trimming it again changes nothing.  So a blank entry
    of the setting never becomes a team. *)
Theorem X14_team_names_clean (rawTeamNames : string + list string)
  (t : string) :
  match rawTeamNames with
  | inl text => ascii_only text = true
  | inr names => forallb ascii_only names = true
  end ->
  In t (normalizeTeamNames rawTeamNames) ->
  t <> "" /\ trim t = t
  /\ exists raw,
       In raw (match rawTeamNames with
               | inr names => names
               | inl text => split_on "," text ""
               end)
       /\ t = trim raw.
Proof.
  intros _.
  destruct rawTeamNames as [text|names]; apply In_normalized.
Qed.

Lemma X14_team_names_clean_witness :
  normalizeTeamNames (inl " cloud-infra , ,blue-team")
  = ["cloud-infra"; "blue-team"]
  /\ "blue-team" <> ""
  /\ trim "blue-team" = "blue-team".
Proof.
  split; [reflexivity|].
  destruct (X14_team_names_clean (inl " cloud-infra , ,blue-team")
              "blue-team") as (H1 & H2 & _).
  - reflexivity.
  - simpl. auto.
  - split; assumption.
Defined.

Lemma split_on_piece (sep : ascii) (a rest acc : string) :
  string_forallb (fun c => negb (Ascii.eqb c sep)) a = true ->
  split_on sep (a ++ rest) acc = split_on sep rest (acc ++ a).
Proof.
  revert acc; induction a as [|c a IH]; intros acc H; simpl.
  - now rewrite append_nil_r.
  - simpl in H. apply andb_true_iff in H as [Hc Ha].
    apply negb_true_iff in Hc. rewrite Hc, IH by assumption.
    now rewrite append_assoc.
Qed.

Lemma space_not_comma (pad : string) :
  string_forallb is_space pad = true ->
  string_forallb (fun c => negb (Ascii.eqb c ",")) pad = true.
Proof.
  induction pad as [|c pad IH]; simpl; auto.
  intros H. apply andb_true_iff in H as [Hc Hp]. rewrite IH by assumption.
  destruct (Ascii.eqb c ",") eqn:E; auto.
  apply Ascii.eqb_eq in E. subst c. discriminate.
Qed.

Lemma string_forallb_app (f : ascii -> bool) (a b : string) :
  string_forallb f (a ++ b) = string_forallb f a && string_forallb f b.
Proof.
  induction a as [|c a IH]; simpl; auto. now rewrite IH, andb_assoc.
Qed.

Lemma trim_pad (pad t : string) :
  string_forallb is_space pad = true -> trim (pad ++ t) = trim t.
Proof.
  unfold trim. induction pad as [|c pad IH]; simpl; auto.
  intros H. apply andb_true_iff in H as [Hc Hp]. rewrite Hc. auto.
Qed.

(** A name as [getConfig] hands it out, that can be written in a
    comma-separated list. *)
Lemma split_concat_clean (pad : string) (ts : list string) :
  string_forallb is_space pad = true ->
  Forall (fun t => t <> "" /\ trim t = t
                   /\ string_forallb (fun c => negb (Ascii.eqb c ",")) t
                      = true) ts ->
  ts <> [] ->
  forall p, string_forallb is_space p = true ->
  map trim (split_on "," (p ++ String.concat ("," ++ pad) ts) "") = ts.
Proof.
  intros Hpad Hts. induction Hts as [|t ts (Hne & Htrim & Hc) Hts IH];
    intros Hnil p Hp; [congruence|].
  destruct ts as [|t' ts].
  - simpl String.concat.
    rewrite <- (append_nil_r (p ++ t)).
    rewrite split_on_piece.
    2:{ rewrite string_forallb_app, Hc, (space_not_comma p Hp).
        reflexivity. }
    simpl. now rewrite trim_pad, Htrim.
  - change (String.concat ("," ++ pad) (t :: t' :: ts))
      with (t ++ ("," ++ pad) ++ String.concat ("," ++ pad) (t' :: ts))%string.
    rewrite <- append_assoc.
    rewrite split_on_piece.
    2:{ rewrite string_forallb_app, Hc, (space_not_comma p Hp).
        reflexivity. }
    change ((("," ++ pad) ++ String.concat ("," ++ pad) (t' :: ts)))%string
      with (String "," (pad ++ String.concat ("," ++ pad) (t' :: ts))).
    cbn [split_on]. rewrite Ascii.eqb_refl. cbn [map append].
    rewrite trim_pad, Htrim by assumption. f_equal.
    apply IH; [discriminate | assumption].
Qed.

Lemma filter_truthy_clean (ts : list string) :
  Forall (fun t => t <> "") ts -> filter truthy ts = ts.
Proof.
  induction 1 as [|t ts Ht _ IH]; simpl; auto.
  unfold truthy at 1. destruct t; [congruence|]. simpl. now rewrite IH.
Qed.

(** X15.  The two forms of the [teamNames] setting agree.  A list of
    clean names (of ASCII characters, not empty, no white space at
    either end, no comma) written as one string, the names separated by
    a comma that any ASCII white space may follow, is read back by
    [getConfig] as that very list, which is also what the array form of
    the list gives. *)
Theorem X15_team_names_forms_agree (pad : string) (ts : list string) :
  string_forallb is_space pad = true ->
  Forall (fun t => ascii_only t = true /\ t <> "" /\ trim t = t
                   /\ string_forallb (fun c => negb (Ascii.eqb c ",")) t
                      = true) ts ->
  normalizeTeamNames (inl (String.concat ("," ++ pad) ts)) = ts
  /\ normalizeTeamNames (inr ts) = ts.
Proof.
  intros Hpad Hascii.
  assert (Hts : Forall (fun t => t <> "" /\ trim t = t
                          /\ string_forallb
                               (fun c => negb (Ascii.eqb c ",")) t = true)
                  ts).
  { eapply Forall_impl; [|exact Hascii]. now intros t (_ & H). }
  assert (Hne : Forall (fun t => t <> "") ts).
  { eapply Forall_impl; [|exact Hts]. now intros t (H & _). }
  assert (Htrim : map trim ts = ts).
  { clear Hne Hascii.
    induction Hts as [|t ts (_ & Ht & _) _ IH]; simpl; auto.
    now rewrite Ht, IH. }
  split.
  - unfold normalizeTeamNames. destruct ts as [|t ts]; [reflexivity|].
    pose proof (split_concat_clean pad (t :: ts) Hpad Hts
                  ltac:(discriminate) "" eq_refl) as H.
    change (map trim (split_on "," (String.concat ("," ++ pad) (t :: ts)) "")
            = t :: ts) in H.
    rewrite H. now apply filter_truthy_clean.
  - unfold normalizeTeamNames. rewrite Htrim.
    now apply filter_truthy_clean.
Qed.

Lemma X15_team_names_forms_agree_witness :
  normalizeTeamNames (inl "cloud-infra, blue-team")
  = ["cloud-infra"; "blue-team"]
  /\ normalizeTeamNames (inr ["cloud-infra"; "blue-team"])
     = ["cloud-infra"; "blue-team"].
Proof.
  apply (X15_team_names_forms_agree " " ["cloud-infra"; "blue-team"]).
  - reflexivity.
  - repeat constructor; discriminate.
Defined.

(** The orchestrator's [setBranchDefault] is [setBranchDefaultWith] for
    a write that goes through. *)
Lemma setBranchDefaultWith_Ok (actualBranch : string) (w : World) :
  setBranchDefaultWith (Ok tt) actualBranch w
  = setBranchDefault actualBranch w.
Proof.
  unfold setBranchDefaultWith, setBranchDefault, bind, get_settings, await,
    ret.
  destruct (negb _ && _); reflexivity.
Qed.

(** X16.  [setBranchDefault] writes the user-level branch and nothing
    else, and only into a blank.  Let the user-level branch be of ASCII
    characters.  When it is not blank, or the detected branch is empty,
    nothing is written and the world is as it was, whatever
    [config.update] would answer.  Over a blank user level, with a
    detected branch: when [config.update] rejects, the rejection is
    thrown to the caller, nothing is changed and nothing is logged; when
    it goes through, the method returns, the tree, the messages and the
    timer are as before, the settings differ in the user-level branch
    alone, and the branch [getConfig] reads afterwards is the
    workspace-level one if there is one, and else the detected
    branch. *)
Theorem X16_setBranchDefault (update : Reply unit) (actualBranch : string)
  (w : World) :
  let s := w_settings w in
  let userBranchValue :=
    match s_branchUser s with Some b => b | None => "" end in
  ascii_only userBranchValue = true ->
  (truthy (trim userBranchValue) = true \/ actualBranch = "" ->
   setBranchDefaultWith update actualBranch w = (Returned tt, w))
  /\ (truthy (trim userBranchValue) = false -> actualBranch <> "" ->
      match update with
      | Fail msg =>
          setBranchDefaultWith update actualBranch w
          = (Thrown (new_Error msg), w)
      | Ok _ =>
          let w' := snd (setBranchDefaultWith update actualBranch w) in
          fst (setBranchDefaultWith update actualBranch w) = Returned tt
          /\ w_fs w' = w_fs w /\ w_ui w' = w_ui w
          /\ w_timer w' = w_timer w
          /\ w_settings w'
             = mkSettings (s_repoUrl s) (s_teamNames s)
                 (s_rulesFolderPath s) (s_cacheDirPath s)
                 (s_syncIntervalMinutes s) (Some actualBranch)
                 (s_branchWorkspace s) (s_workspaceRoot s)
          /\ branch (getConfig (w_settings w'))
             = match s_branchWorkspace s with
               | Some wb => wb
               | None => actualBranch
               end
      end).
Proof.
  intros s userBranchValue _. split.
  - intros Hblank.
    unfold setBranchDefaultWith, bind, get_settings, ret.
    fold s. fold userBranchValue.
    destruct Hblank as [Hu | Ha].
    + now rewrite Hu.
    + subst actualBranch. now rewrite andb_false_r.
  - intros Hu Ha.
    assert (Hb : truthy actualBranch = true).
    { unfold truthy. destruct actualBranch; [congruence | reflexivity]. }
    unfold setBranchDefaultWith, bind, get_settings, await, throw, log, ret.
    fold s. fold userBranchValue. rewrite Hu, Hb.
    destruct update as [[]|msg]; [|reflexivity].
    cbv zeta. cbn [negb andb fst snd].
    destruct (truthy (trim (match s_branchWorkspace s with
                            | Some b => b
                            | None => ""
                            end))); cbn [fst snd];
      repeat split;
      unfold getConfig, effective_branch; cbn;
      destruct (s_branchWorkspace s); reflexivity.
Qed.

(** X16 on the example, no branch being set anywhere: a rejected write
    is thrown and leaves the world as it was; a write that goes through
    makes the detected branch [main] the branch of the configuration. *)
Lemma X16_setBranchDefault_witness :
  setBranchDefaultWith (Fail "Unable to write into user settings") "main"
    (ex_world None [])
  = (Thrown (new_Error "Unable to write into user settings"),
     ex_world None [])
  /\ branch (getConfig
               (w_settings
                  (snd (setBranchDefaultWith (Ok tt) "main"
                          (ex_world None [])))))
     = "main".
Proof.
  split.
  - apply (proj2 (X16_setBranchDefault
                    (Fail "Unable to write into user settings") "main"
                    (ex_world None []) eq_refl));
      [reflexivity | discriminate].
  - destruct (proj2 (X16_setBranchDefault (Ok tt) "main"
                       (ex_world None []) eq_refl))
      as (_ & _ & _ & _ & _ & H); [reflexivity | discriminate |].
    exact H.
Defined.

(* ================================================================== *)
(** * [generateRepoSlug]: the name of the cache directory *)
(* ================================================================== *)

Lemma string_ind3 (P : string -> Prop) :
  P "" -> (forall a, P (String a "")) ->
  (forall a b, P (String a (String b ""))) ->
  (forall a b c rest, P rest -> P (String a (String b (String c rest)))) ->
  forall s, P s.
Proof.
  intros H0 H1 H2 H3. fix IH 1.
  intros [|a [|b [|c rest]]];
    [exact H0 | apply H1 | apply H2 | apply H3, IH].
Qed.

Lemma sextet_slug (x5 x4 x3 x2 x1 x0 : bool) :
  slug_char (sextet x5 x4 x3 x2 x1 x0) = true.
Proof. destruct x5, x4, x3, x2, x1, x0; reflexivity. Qed.

Lemma base64url_chars (s : string) :
  string_forallb slug_char (base64url s) = true.
Proof.
  induction s as [|a|a b|a b c rest IH] using string_ind3.
  - reflexivity.
  - destruct a. simpl. now rewrite !sextet_slug.
  - destruct a, b. simpl. now rewrite !sextet_slug.
  - destruct a, b, c. simpl. now rewrite !sextet_slug, IH.
Qed.

Lemma substring_chars (f : ascii -> bool) (n : nat) (s : string) :
  string_forallb f s = true -> string_forallb f (substring 0 n s) = true.
Proof.
  revert s; induction n as [|n IH]; intros [|c s] H; simpl; auto.
  simpl in H. apply andb_true_iff in H as [Hc Hs]. now rewrite Hc, IH.
Qed.

Lemma sanitize_chars (s : string) :
  string_forallb slug_char (sanitize s) = true.
Proof.
  unfold sanitize. induction s as [|c s IH]; simpl; auto. rewrite IH.
  destruct (slug_char c) eqn:E; [now rewrite E | reflexivity].
Qed.

Lemma sanitize_nonempty (a b : string) : sanitize (a ++ "-" ++ b) <> "".
Proof. destruct a; discriminate. Qed.

Lemma base64url_nonempty (s : string) : s <> "" -> base64url s <> "".
Proof.
  destruct s as [|[] [|[] [|[] rest]]]; [congruence | | |]; discriminate.
Qed.

Lemma slug_chars_plain (s : string) :
  string_forallb slug_char s = true -> s <> "" -> plain_name s = true.
Proof.
  intros H Hne. unfold plain_name.
  assert (Hsep : has_sep s = false).
  { induction s as [|c s IH]; simpl in *; auto.
    apply andb_true_iff in H as [Hc Hs].
    destruct (Ascii.eqb c "/") eqn:E.
    - apply Ascii.eqb_eq in E. subst c. discriminate.
    - destruct s; [reflexivity|]. apply IH; [assumption | discriminate]. }
  rewrite Hsep.
  destruct (s =? "") eqn:E1; [apply String.eqb_eq in E1; congruence|].
  destruct (s =? ".") eqn:E2;
    [apply String.eqb_eq in E2; subst s; discriminate|].
  destruct (s =? "..") eqn:E3;
    [apply String.eqb_eq in E3; subst s; discriminate|].
  reflexivity.
Qed.

Lemma generateRepoSlug_chars (pathname : string -> option string)
  (url : string) :
  string_forallb slug_char (generateRepoSlug pathname url) = true.
Proof.
  unfold generateRepoSlug.
  destruct (prefix "http" url).
  - destruct (pathname url); [apply sanitize_chars|].
    apply substring_chars, base64url_chars.
  - destruct (ssh_match url) as [[o r]|]; [apply sanitize_chars|].
    apply substring_chars, base64url_chars.
Qed.

Lemma generateRepoSlug_nonempty (pathname : string -> option string)
  (url : string) :
  url <> "" -> generateRepoSlug pathname url <> "".
Proof.
  intros Hne. unfold generateRepoSlug.
  assert (Hfb : substring 0 32 (base64url url) <> "").
  { pose proof (base64url_nonempty url Hne) as H.
    destruct (base64url url); [congruence | discriminate]. }
  destruct (prefix "http" url).
  - destruct (pathname url); [apply sanitize_nonempty | exact Hfb].
  - destruct (ssh_match url) as [[o r]|];
      [apply sanitize_nonempty | exact Hfb].
Qed.

(** X17.  The slug is a safe directory name.  Whatever the URL and
    whatever the URL parser answers, [generateRepoSlug] returns letters,
    digits, [-] and [_] only; for a URL that is not empty the slug is
    not empty, so it is a single path component and the repository path
    is a direct child of the cache directory: no URL makes the clone
    land elsewhere.  The empty URL has the empty slug, and its
    repository path is the cache directory itself. *)
Theorem X17_slug_is_directory_name (pathname : string -> option string)
  (cfg : RulesConfig) :
  (forall url, string_forallb slug_char (generateRepoSlug pathname url) = true)
  /\ (repoUrl cfg <> "" ->
      plain_name (generateRepoSlug pathname (repoUrl cfg)) = true
      /\ getRepositoryPath (generateRepoSlug pathname) cfg
         = cacheDirPath cfg ++ [generateRepoSlug pathname (repoUrl cfg)])
  /\ (repoUrl cfg = "" ->
      getRepositoryPath (generateRepoSlug pathname) cfg = cacheDirPath cfg).
Proof.
  split; [apply generateRepoSlug_chars|]. split.
  - intros Hne.
    assert (Hpl : plain_name (generateRepoSlug pathname (repoUrl cfg))
                  = true).
    { apply slug_chars_plain.
      - apply generateRepoSlug_chars.
      - now apply generateRepoSlug_nonempty. }
    split; [exact Hpl|].
    unfold getRepositoryPath. now apply path_join_plain.
  - intros He. unfold getRepositoryPath. rewrite He. reflexivity.
Qed.

Lemma X17_slug_is_directory_name_witness :
  getRepositoryPath (generateRepoSlug (fun _ => None))
    (mkConfig "git@github.com:Org/ai-coding-rules.git" [] ex_dest ex_cache
       0 "")
  = ex_repoPath.
Proof.
  apply (proj1 (proj2 (X17_slug_is_directory_name (fun _ => None)
                         (mkConfig "git@github.com:Org/ai-coding-rules.git"
                            [] ex_dest ex_cache 0 "")))).
  discriminate.
Defined.

Lemma break_at_app (sep : ascii) (a b : string) :
  string_forallb (fun c => negb (Ascii.eqb c sep)) a = true ->
  break_at sep (a ++ String sep b) = Some (a, b).
Proof.
  induction a as [|c a IH]; simpl.
  - now rewrite Ascii.eqb_refl.
  - intros H. apply andb_true_iff in H as [Hc Ha].
    apply negb_true_iff in Hc. now rewrite Hc, IH.
Qed.

Lemma string_forallb_impl (f g : ascii -> bool) (s : string) :
  (forall c, f c = true -> g c = true) ->
  string_forallb f s = true -> string_forallb g s = true.
Proof.
  intros Hfg. induction s as [|c s IH]; simpl; auto.
  intros H. apply andb_true_iff in H as [Hc Hs].
  now rewrite (Hfg c Hc), IH.
Qed.

Lemma has_sep_forallb (s : string) :
  has_sep s = false ->
  string_forallb (fun c => negb (Ascii.eqb c "/")) s = true.
Proof.
  induction s as [|c s IH]; simpl; auto.
  intros H. apply orb_false_iff in H as [Hc Hs]. now rewrite Hc, IH.
Qed.

Lemma has_sep_app (a b : string) :
  has_sep (a ++ b) = has_sep a || has_sep b.
Proof.
  induction a as [|c a IH]; simpl; auto. now rewrite IH, orb_assoc.
Qed.

Lemma length_append (a b : string) :
  String.length (a ++ b) = String.length a + String.length b.
Proof. induction a as [|c a IH]; simpl; auto. Qed.

(** [replace(/\.git$/, '')] takes a final [.git] off, whatever comes
    before it. *)
Lemma strip_dot_git_app (x : string) : strip_dot_git (x ++ ".git") = x.
Proof.
  induction x as [|c x IH]; [reflexivity|].
  change (String c x ++ ".git")%string with (String c (x ++ ".git")).
  cbn [strip_dot_git].
  destruct (String c (x ++ ".git") =? ".git") eqn:E.
  - apply String.eqb_eq in E. apply (f_equal String.length) in E.
    simpl in E. rewrite length_append in E. simpl in E. lia.
  - now rewrite IH.
Qed.

Lemma split_on_app_sep (sep : ascii) (a b acc : string) :
  split_on sep (a ++ String sep b) acc
  = split_on sep a acc ++ split_on sep b "".
Proof.
  revert acc; induction a as [|c a IH]; intros acc; simpl.
  - now rewrite Ascii.eqb_refl.
  - destruct (Ascii.eqb c sep); simpl; now rewrite IH.
Qed.

Lemma split_on_whole (sep : ascii) (a : string) :
  string_forallb (fun c => negb (Ascii.eqb c sep)) a = true ->
  split_on sep a "" = [a].
Proof.
  intros H. rewrite <- (append_nil_r a) at 1.
  now rewrite split_on_piece.
Qed.

Lemma at_end_last_two (l : list string) (x y : string) :
  at_end 1 (l ++ [x; y]) = Some x /\ at_end 0 (l ++ [x; y]) = Some y.
Proof. unfold at_end. rewrite rev_app_distr. simpl. auto. Qed.

(** X18.  The slug keeps the last two segments and nothing else.  For
    [org] and [repo] of ASCII characters, an SSH URL
    [user@host:org/repo.git] and an HTTP(S) URL whose path ends in
    [/org/repo.git] both get the slug made of [org], a hyphen and
    [repo], with every character outside letters, digits, [-] and [_]
    replaced by a hyphen.  So the two forms of one repository share a
    cache directory; and so do repositories of the same two last
    segments on different hosts or under different parent paths, since
    the user, the host and the leading path play no part. *)
Theorem X18_slug_last_two_segments (pathname : string -> option string)
  (user host parent org repo httpUrl : string) :
  ascii_only org = true -> ascii_only repo = true ->
  user <> "" -> string_forallb user_char user = true ->
  host <> "" ->
  string_forallb (fun c => negb (Ascii.eqb c ":")) host = true ->
  org <> "" -> has_sep org = false ->
  repo <> "" -> has_sep repo = false ->
  prefix "http"
    (user ++ "@" ++ host ++ ":" ++ org ++ "/" ++ repo ++ ".git")%string
  = false ->
  prefix "http" httpUrl = true ->
  pathname httpUrl = Some (parent ++ "/" ++ org ++ "/" ++ repo ++ ".git")%string ->
  generateRepoSlug pathname
    (user ++ "@" ++ host ++ ":" ++ org ++ "/" ++ repo ++ ".git")%string
  = sanitize (org ++ "-" ++ repo)%string
  /\ generateRepoSlug pathname httpUrl
     = sanitize (org ++ "-" ++ repo)%string.
Proof.
  intros _ _ Hu Huc Hh Hhc Ho Hos Hr Hrs Hssh Hhttp Hpath. split.
  - unfold generateRepoSlug. rewrite Hssh. unfold ssh_match.
    change (user ++ "@" ++ host ++ ":" ++ org ++ "/" ++ repo ++ ".git")%string
      with (user ++ String "@"
                      (host ++ ":" ++ org ++ "/" ++ repo ++ ".git"))%string.
    rewrite break_at_app.
    2:{ apply (string_forallb_impl user_char); auto.
        intros c Hc. destruct (Ascii.eqb c "@") eqn:E; auto.
        apply Ascii.eqb_eq in E. subst c. discriminate. }
    rewrite Huc.
    destruct (user =? "") eqn:Eu; [apply String.eqb_eq in Eu; congruence|].
    cbn [negb andb].
    change (host ++ ":" ++ org ++ "/" ++ repo ++ ".git")%string
      with (host ++ String ":" (org ++ "/" ++ repo ++ ".git"))%string.
    rewrite break_at_app by assumption.
    destruct (host =? "") eqn:Eh; [apply String.eqb_eq in Eh; congruence|].
    cbn [negb].
    change (org ++ "/" ++ repo ++ ".git")%string
      with (org ++ String "/" (repo ++ ".git"))%string.
    rewrite break_at_app by now apply has_sep_forallb.
    destruct (org =? "") eqn:Eo; [apply String.eqb_eq in Eo; congruence|].
    rewrite has_sep_app, Hrs.
    destruct repo as [|c repo']; [congruence|].
    cbn [negb andb append orb]. simpl has_sep. simpl String.eqb.
    cbn [negb andb]. unfold repo_group.
    now rewrite strip_dot_git_app.
  - unfold generateRepoSlug. rewrite Hhttp, Hpath.
    replace (parent ++ "/" ++ org ++ "/" ++ repo ++ ".git")%string
      with ((parent ++ "/" ++ org ++ "/" ++ repo) ++ ".git")%string
      by (now rewrite !append_assoc).
    rewrite strip_dot_git_app.
    change (parent ++ "/" ++ org ++ "/" ++ repo)%string
      with (parent ++ String "/" (org ++ String "/" repo))%string.
    rewrite !split_on_app_sep.
    rewrite (split_on_whole "/" org), (split_on_whole "/" repo)
      by now apply has_sep_forallb.
    rewrite !filter_app. cbn [filter].
    assert (Hto : truthy org = true) by (now destruct org).
    assert (Htr : truthy repo = true) by (now destruct repo).
    rewrite Hto, Htr. cbn [app].
    destruct (at_end_last_two (filter truthy (split_on "/" parent ""))
                org repo) as [H1 H2].
    cbv zeta. now rewrite H1, H2.
Qed.

(** X18 on the examples of the documentation: the SSH and the HTTPS URL
    of one repository. *)
Lemma X18_slug_last_two_segments_witness :
  let pathname := fun u : string =>
    if u =? "https://github.com/Org/ai-coding-rules.git"
    then Some "/Org/ai-coding-rules.git" else None in
  generateRepoSlug pathname "git@github.com:Org/ai-coding-rules.git"
  = "Org-ai-coding-rules"
  /\ generateRepoSlug pathname "https://github.com/Org/ai-coding-rules.git"
     = "Org-ai-coding-rules".
Proof.
  intros pathname.
  apply (X18_slug_last_two_segments pathname "git" "github.com" ""
           "Org" "ai-coding-rules"
           "https://github.com/Org/ai-coding-rules.git");
    first [ discriminate | reflexivity ].
Defined.

Lemma substring_none (s : string) : substring 0 0 s = "".
Proof. now destruct s. Qed.

Lemma substring_head (n : nat) (c : ascii) (s : string) :
  substring 0 (S n) (String c s) = String c (substring 0 n s).
Proof. reflexivity. Qed.

(** The first [4 * k] characters of the encoding are the encoding of the
    first [3 * k] bytes. *)
Lemma base64url_prefix (k : nat) (s : string) :
  substring 0 (4 * k) (base64url s)
  = substring 0 (4 * k) (base64url (substring 0 (3 * k) s)).
Proof.
  revert s; induction k as [|k IH]; intros s.
  - simpl. now rewrite !substring_none.
  - replace (4 * S k) with (S (S (S (S (4 * k))))) by lia.
    replace (3 * S k) with (S (S (S (3 * k)))) by lia.
    destruct s as [|[a0 a1 a2 a3 a4 a5 a6 a7] s]; [reflexivity|].
    destruct s as [|[b0 b1 b2 b3 b4 b5 b6 b7] s].
    { rewrite substring_head. now destruct (S (S (3 * k))). }
    destruct s as [|[c0 c1 c2 c3 c4 c5 c6 c7] s].
    { rewrite !substring_head. now destruct (S (3 * k)). }
    rewrite !substring_head. cbn [base64url].
    rewrite !substring_head. now rewrite IH.
Qed.

(** X19.  The fallback name is cut to 32 characters of the encoding, which
    are the first 24 bytes of the URL.  So two URLs that take the fallback
    (the URL parser throws on one that starts with [http], or the SSH
    pattern does not match one that does not) and agree on their first 24
    bytes get the same slug, hence the same cache directory, however they
    differ afterwards. *)
Theorem X19_fallback_slug_collides (pathname : string -> option string)
  (url1 url2 : string) :
  (if prefix "http" url1 then pathname url1 = None
   else ssh_match url1 = None) ->
  (if prefix "http" url2 then pathname url2 = None
   else ssh_match url2 = None) ->
  substring 0 24 url1 = substring 0 24 url2 ->
  generateRepoSlug pathname url1 = generateRepoSlug pathname url2.
Proof.
  intros H1 H2 Hsame.
  assert (Hfb : forall u,
             (if prefix "http" u then pathname u = None
              else ssh_match u = None) ->
             generateRepoSlug pathname u
             = substring 0 32 (base64url (substring 0 24 u))).
  { intros u Hu. unfold generateRepoSlug.
    destruct (prefix "http" u); rewrite Hu;
      exact (base64url_prefix 8 u). }
  now rewrite (Hfb url1 H1), (Hfb url2 H2), Hsame.
Qed.

(** X19 on two repositories of one GitLab subgroup: the SSH pattern
    allows one [/] only, so both take the fallback, and they share their
    first 24 bytes. *)
Lemma X19_fallback_slug_collides_witness :
  generateRepoSlug (fun _ => None) "git@gitlab.com:acme/platform/rules-a.git"
  = generateRepoSlug (fun _ => None)
      "git@gitlab.com:acme/platform/rules-b.git".
Proof.
  apply (X19_fallback_slug_collides (fun _ => None)
           "git@gitlab.com:acme/platform/rules-a.git"
           "git@gitlab.com:acme/platform/rules-b.git"); reflexivity.
Defined.
